(** * A task scheduler with a write-once Value Store, as exercised by the
    ray-core tutorial notebooks.

    The notebooks (src/ray-core/*.ipynb) only call the remote-execution API:
    [expensive_task.remote(n)], [ray.get(ids)], [make_array.remote],
    [add_array.remote(id1, id2)].  The scheduling core they exercise is not
    part of the repository sources, so it is modelled here from the
    specification (sections 3, 4, 5 and 7): the Value Store, the Dependency
    Resolver with its Blocked Set and unresolved-dependency counters, the
    FIFO Ready Queue, the fixed Worker Pool and the Get/Wait surface.

    Time is discrete.  Client submissions take no time; a blocking Get or
    Wait lets time pass one unit at a time, and at every instant the
    scheduler processes the completions that are due ([settle]). *)

From Stdlib Require Import ZArith Lia.
From stdpp Require Import base list relations.

(** Status of a Value Store entry (section 3). *)
Inductive Status := PENDING | READY | FAILED.

Section Scheduler.

(** [V] is the type of task values, [Cause] the type of the exceptions a
    task function can raise. *)
Context {V Cause : Type}.

(** Error taxonomy of section 7 that is stored in the Value Store. *)
Inductive Err :=
| ExecutionError (tid : nat) (cause : Cause)
| DependencyFailedError (tid : nat) (upstream : Err).

(** Outcome of running a task function: it returns or it raises. *)
Inductive Outcome :=
| Returned (v : V)
| Raised (c : Cause).

(** A task argument: a literal value or a Future Handle. *)
Inductive Arg :=
| Lit (v : V)
| Fut (h : nat).

(** Value Store entry: status, value or error detail, completion time. *)
Inductive Entry :=
| EPending
| EReady (v : V) (done_at : nat)
| EFailed (e : Err) (done_at : nat).

Definition status (e : Entry) : Status :=
  match e with EPending => PENDING | EReady _ _ => READY | EFailed _ _ => FAILED end.

Definition terminal (e : Entry) : bool :=
  match e with EPending => false | _ => true end.

(** Task Descriptor: function identifier, ordered arguments, submission
    time.  Its id is its position in [tasks]; its Future Handle is the
    same number (handles are monotonically increasing ids). *)
Record Task := mkTask { t_fn : nat; t_args : list Arg; t_sub : nat }.

(** A task occupying a Worker Slot: id, start, finish time and the outcome
    its function produced. *)
Record Run := mkRun { r_tid : nat; r_start : nat; r_fin : nat; r_out : Outcome }.

(** Scheduler state.  [store], [unresolved], [ready_at] and [waiters] are
    indexed by task id / handle.  [waiters] is the Blocked Set (handle to
    the ids waiting on it), [readyq] the Ready Queue, [slots] the Worker
    Slot table.  [ready_at] records when a task entered the Ready Queue and
    [log] which slot ran which task (both read-only introspection). *)
Record Sched := mkSched {
  now : nat;
  tasks : list Task;
  store : list Entry;
  unresolved : list nat;
  ready_at : list (option nat);
  waiters : list (list nat);
  readyq : list nat;
  slots : list (option Run);
  log : list (nat * Run)
}.

Definition set_now n st :=
  mkSched n (tasks st) (store st) (unresolved st) (ready_at st) (waiters st) (readyq st) (slots st) (log st).
Definition set_store s st :=
  mkSched (now st) (tasks st) s (unresolved st) (ready_at st) (waiters st) (readyq st) (slots st) (log st).
Definition set_unresolved u st :=
  mkSched (now st) (tasks st) (store st) u (ready_at st) (waiters st) (readyq st) (slots st) (log st).
Definition set_ready_at r st :=
  mkSched (now st) (tasks st) (store st) (unresolved st) r (waiters st) (readyq st) (slots st) (log st).
Definition set_waiters w st :=
  mkSched (now st) (tasks st) (store st) (unresolved st) (ready_at st) w (readyq st) (slots st) (log st).
Definition set_readyq q st :=
  mkSched (now st) (tasks st) (store st) (unresolved st) (ready_at st) (waiters st) q (slots st) (log st).
Definition set_slots s st :=
  mkSched (now st) (tasks st) (store st) (unresolved st) (ready_at st) (waiters st) (readyq st) s (log st).
Definition set_log l st :=
  mkSched (now st) (tasks st) (store st) (unresolved st) (ready_at st) (waiters st) (readyq st) (slots st) l.

(** An idle scheduler with a pool of [W] worker slots. *)
Definition init (W : nat) : Sched := mkSched 0 [] [] [] [] [] [] (repeat None W) [].

(** The function registry: running function [f] on resolved argument
    values yields an outcome and the number of time units it takes. *)
Variable exec : nat -> list V -> Outcome * nat.

Definition entry_terminal (st : Sched) (h : nat) : bool :=
  match store st !! h with Some e => terminal e | None => false end.

(** ** Dependency Resolver *)

Fixpoint fut_handles (args : list Arg) : list nat :=
  match args with
  | [] => []
  | Lit _ :: rest => fut_handles rest
  | Fut h :: rest => h :: fut_handles rest
  end.

Fixpoint unterminated (st : Sched) (hs : list nat) : list nat :=
  match hs with
  | [] => []
  | h :: rest => if entry_terminal st h then unterminated st rest else h :: unterminated st rest
  end.

(** The distinct handles among the arguments whose entries are not yet
    terminal: the unresolved dependencies. *)
Definition pending_deps (st : Sched) (args : list Arg) : list nat :=
  remove_dups (unterminated st (fut_handles args)).

Inductive Resolution :=
| Resolved (vs : list V)
| DepFailed (e : Err)
| Unresolved.

(** Pre-execution argument resolution: literal values pass through, a
    handle is replaced by its READY value; the first FAILED dependency (in
    argument order) makes the task fail. *)
Fixpoint resolve (st : Sched) (args : list Arg) : Resolution :=
  match args with
  | [] => Resolved []
  | Lit v :: rest =>
      match resolve st rest with Resolved vs => Resolved (v :: vs) | r => r end
  | Fut h :: rest =>
      match store st !! h with
      | Some (EReady v _) =>
          match resolve st rest with Resolved vs => Resolved (v :: vs) | r => r end
      | Some (EFailed e _) => DepFailed e
      | _ => Unresolved
      end
  end.

(** ** Value Store writes and the Blocked to Ready cascade *)

(** A terminal write for a handle decrements the counter of every task
    registered against it; a task whose counter reaches zero moves to the
    end of the Ready Queue. *)
Definition release (st : Sched) (t : nat) : Sched :=
  match unresolved st !! t with
  | Some c =>
      let st' := set_unresolved (<[t := c - 1]> (unresolved st)) st in
      if Nat.eqb (c - 1) 0
      then set_readyq (readyq st ++ [t]) (set_ready_at (<[t := Some (now st)]> (ready_at st)) st')
      else st'
  | None => st
  end.

Definition notify (h : nat) (st : Sched) : Sched :=
  let ws := default [] (waiters st !! h) in
  let st' := fold_left release ws st in
  set_waiters (<[h := []]> (waiters st')) st'.

Inductive StoreErr := DuplicateWriteError (h : nat).

(** Write-once: a handle whose entry is already terminal is refused. *)
Definition write_entry (h : nat) (e : Entry) (st : Sched) : option StoreErr * Sched :=
  if entry_terminal st h then (Some (DuplicateWriteError h), st)
  else (None, notify h (set_store (<[h := e]> (store st)) st)).

(** [Put] and [PutError] of section 4.1. *)
Definition put (h : nat) (v : V) (st : Sched) : option StoreErr * Sched :=
  write_entry h (EReady v (now st)) st.

Definition put_error (h : nat) (e : Err) (st : Sched) : option StoreErr * Sched :=
  write_entry h (EFailed e (now st)) st.

(** ** Worker Pool and assignment loop *)

Fixpoint find_slot (p : option Run -> bool) (l : list (option Run)) : option nat :=
  match l with
  | [] => None
  | x :: rest => if p x then Some 0 else option_map S (find_slot p rest)
  end.

Definition is_idle (x : option Run) : bool :=
  match x with None => true | Some _ => false end.

(** Assign the popped task [t] to slot [i]: resolve its arguments; if a
    dependency FAILED it is marked FAILED without running, otherwise its
    function runs in the slot. *)
Definition dispatch (i t : nat) (st : Sched) : Sched :=
  match tasks st !! t with
  | None => st
  | Some tk =>
      match resolve st (t_args tk) with
      | DepFailed e => snd (put_error t (DependencyFailedError t e) st)
      | Resolved vs =>
          let r := mkRun t (now st) (now st + snd (exec (t_fn tk) vs)) (fst (exec (t_fn tk) vs)) in
          set_log (log st ++ [(i, r)]) (set_slots (<[i := Some r]> (slots st)) st)
      | Unresolved => st
      end
  end.

Fixpoint assign_loop (fuel : nat) (st : Sched) : Sched :=
  match fuel with
  | 0 => st
  | S f =>
      match find_slot is_idle (slots st), readyq st with
      | Some i, t :: q => assign_loop f (dispatch i t (set_readyq q st))
      | _, _ => st
      end
  end.

(** Whenever a slot is idle and the Ready Queue is non-empty, pop the
    front task.  Each task is popped at most once, hence the fuel. *)
Definition assign (st : Sched) : Sched := assign_loop (S (length (tasks st))) st.

(** ** Submission *)

Definition add_waiter (t : nat) (w : list (list nat)) (h : nat) : list (list nat) :=
  match w !! h with Some ws => <[h := ws ++ [t]]> w | None => w end.

(** [Submit(fn, args)]: create the descriptor and a PENDING entry; a task
    with unresolved dependencies is registered against each of them, any
    other task is enqueued; then the assignment loop runs.  Returns the
    new Future Handle. *)
Definition submit (f : nat) (args : list Arg) (st : Sched) : nat * Sched :=
  let t := length (tasks st) in
  let deps := pending_deps st args in
  let blocked := match deps with [] => false | _ => true end in
  let st1 := mkSched (now st)
                     (tasks st ++ [mkTask f args (now st)])
                     (store st ++ [EPending])
                     (unresolved st ++ [length deps])
                     (ready_at st ++ [if blocked then None else Some (now st)])
                     (fold_left (add_waiter t) deps (waiters st ++ [[]]))
                     (if blocked then readyq st else readyq st ++ [t])
                     (slots st) (log st) in
  (t, assign st1).

(** ** Task completion and the passage of time *)

Definition write_result (r : Run) (st : Sched) : Sched :=
  match r_out r with
  | Returned v => snd (put (r_tid r) v st)
  | Raised c => snd (put_error (r_tid r) (ExecutionError (r_tid r) c) st)
  end.

(** The task in slot [i] completes: its result is written (driving the
    cascade), the slot is freed and the assignment loop re-entered. *)
Definition complete (i : nat) (st : Sched) : Sched :=
  match slots st !! i with
  | Some (Some r) =>
      let st1 := write_result r st in
      assign (set_slots (<[i := None]> (slots st1)) st1)
  | _ => st
  end.

Definition is_due (n : nat) (x : option Run) : bool :=
  match x with Some r => Nat.leb (r_fin r) n | None => false end.

Fixpoint settle_loop (fuel : nat) (st : Sched) : Sched :=
  match fuel with
  | 0 => st
  | S f =>
      match find_slot (is_due (now st)) (slots st) with
      | None => st
      | Some i => settle_loop f (complete i st)
      end
  end.

(** Process every completion due at the current instant. *)
Definition settle (st : Sched) : Sched := settle_loop (S (length (tasks st))) st.

Definition tick (st : Sched) : Sched := set_now (S (now st)) st.

(** The scheduler left alone for [m] time units. *)
Fixpoint advance (st : Sched) (m : nat) : Sched :=
  match m with
  | 0 => settle st
  | S m' => settle (tick (advance st m'))
  end.

(** ** Get and Wait *)

Definition expired (dl : option nat) (st : Sched) : bool :=
  match dl with Some d => Nat.leb d (now st) | None => false end.

(** Block the caller until [ready] holds or the deadline passes.  [fuel]
    bounds how many time units are simulated; [None] means the call is
    still blocked after that many units. *)
Fixpoint poll (fuel : nat) (dl : option nat) (ready : Sched -> bool) (st : Sched)
  : option (bool * Sched) :=
  let st' := settle st in
  if ready st' then Some (true, st')
  else if expired dl st' then Some (false, st')
  else match fuel with
       | 0 => None
       | S f => poll f dl ready (tick st')
       end.

Inductive GetResult :=
| GValues (vs : list V)
| GFailed (e : Err)
| GTimeout.

Definition all_terminal (st : Sched) (hs : list nat) : bool := forallb (entry_terminal st) hs.

(** Values in the order of the handles; the first FAILED handle in that
    order makes the whole Get fail with its error. *)
Fixpoint collect (st : Sched) (hs : list nat) : GetResult :=
  match hs with
  | [] => GValues []
  | h :: rest =>
      match store st !! h with
      | Some (EReady v _) =>
          match collect st rest with GValues vs => GValues (v :: vs) | r => r end
      | Some (EFailed e _) => GFailed e
      | _ => GTimeout
      end
  end.

(** [Get(handles, timeout)]: a zero or absent timeout blocks indefinitely
    ([horizon] bounds the simulation of such a call); a timeout [T > 0]
    ends the call with TimeoutError [T] units after it started. *)
Definition get (st : Sched) (hs : list nat) (timeout : option nat) (horizon : nat)
  : option (GetResult * Sched) :=
  let dl := match timeout with Some (S k) => Some (now st + S k) | _ => None end in
  let fuel := match timeout with Some (S k) => S k | _ => horizon end in
  match poll fuel dl (fun s => all_terminal s hs) st with
  | Some (true, st') => Some (collect st' hs, st')
  | Some (false, st') => Some (GTimeout, st')
  | None => None
  end.

Fixpoint count_terminal (st : Sched) (hs : list nat) : nat :=
  match hs with
  | [] => 0
  | h :: rest => (if entry_terminal st h then 1 else 0) + count_terminal st rest
  end.

Fixpoint ready_part (st : Sched) (hs : list nat) : list nat :=
  match hs with
  | [] => []
  | h :: rest => if entry_terminal st h then h :: ready_part st rest else ready_part st rest
  end.

Fixpoint remaining_part (st : Sched) (hs : list nat) : list nat :=
  match hs with
  | [] => []
  | h :: rest => if entry_terminal st h then remaining_part st rest else h :: remaining_part st rest
  end.

(** [Wait(handles, num_required, timeout)]: returns the (ready, remaining)
    partition as soon as [num_required] handles are terminal or the
    timeout elapses; an absent timeout blocks indefinitely. *)
Definition wait (st : Sched) (hs : list nat) (num_required : nat) (timeout : option nat)
  (horizon : nat) : option ((list nat * list nat) * Sched) :=
  let dl := match timeout with Some T => Some (now st + T) | None => None end in
  let fuel := match timeout with Some T => T | None => horizon end in
  match poll fuel dl (fun s => Nat.leb num_required (count_terminal s hs)) st with
  | Some (_, st') => Some ((ready_part st' hs, remaining_part st' hs), st')
  | None => None
  end.

End Scheduler.

Arguments EPending {V Cause}.

(** ** The notebooks' task functions *)
Module Notebook.

(** Python values the notebooks pass around: ints and pairs. *)
Inductive PyVal :=
| PInt (z : Z)
| PTuple (a b : PyVal).

Inductive PyExc := ValueError | TypeError.

Definition Out := @Outcome PyVal PyExc.

(** [def expensive(n): start = time.time(); time.sleep(n);
     return (n, time.time() - start)]: sleeping [n] units and returning
    [n] with the measured duration; [time.sleep] of a negative number
    raises ValueError. *)
Definition expensive (n : Z) : Out * nat :=
  if (n <? 0)%Z then (Raised ValueError, 0)
  else (Returned (PTuple (PInt n) (PInt n)), Z.to_nat n).

(** [def slow_square(n): time.sleep(n); return n*n] *)
Definition slow_square (n : Z) : Out * nat :=
  if (n <? 0)%Z then (Raised ValueError, 0)
  else (Returned (PInt (n * n)), Z.to_nat n).

Definition expensive_task : nat := 0.
Definition slow_square_task : nat := 1.

(** The registry of [@ray.remote] functions; a call with the wrong
    arguments raises TypeError as Python does. *)
Definition registry (f : nat) (args : list PyVal) : Out * nat :=
  match f, args with
  | 0, [PInt n] => expensive n
  | 1, [PInt n] => slow_square n
  | _, _ => (Raised TypeError, 0)
  end.

(** [ids = [expensive_task.remote(n) for n in range(N)]] *)
Fixpoint submit_range (k N : nat) (st : @Sched PyVal PyExc) : @Sched PyVal PyExc :=
  match N with
  | 0 => st
  | S N' => submit_range (S k) N' (snd (submit registry expensive_task [Lit (PInt (Z.of_nat k))] st))
  end.

End Notebook.

(** ** The oversubscription run of the notebooks

    [2W] calls [expensive_task.remote(j)], [j = 0 .. 2W-1], on a pool of
    [W] slots.  Slot [i] first runs task [i] (from 0 to [i]), then task
    [W + i] (from [i] to [2i + W]). *)
Module Oversub.
Import Notebook.

Definition ok (j : nat) : Out := Returned (PTuple (PInt (Z.of_nat j)) (PInt (Z.of_nat j))).

Definition task (j : nat) : @Task PyVal := mkTask expensive_task [Lit (PInt (Z.of_nat j))] 0.

Definition first_run (i : nat) : @Run PyVal PyExc := mkRun i 0 i (ok i).

Definition second_run (W i : nat) : @Run PyVal PyExc := mkRun (W + i) i (2 * i + W) (ok (W + i)).

(** When the entry of task [j] becomes READY. *)
Definition done_time (W j : nat) : nat := if j <? W then j else 2 * (j - W) + W.

Definition entry_at (W t j : nat) : @Entry PyVal PyExc :=
  if done_time W j <=? t
  then EReady (PTuple (PInt (Z.of_nat j)) (PInt (Z.of_nat j))) (done_time W j)
  else EPending.

Definition slot_at (W t i : nat) : option (@Run PyVal PyExc) :=
  if t <? i then Some (first_run i)
  else if t <? 2 * i + W then Some (second_run W i) else None.

(** The state after the first [k] submissions. *)
Record Submitted (W k : nat) (st : @Sched PyVal PyExc) : Prop := {
  sb_now : now st = 0;
  sb_tasks : tasks st = map task (seq 0 k);
  sb_store : forall j, store st !! j = if j <? k then Some EPending else None;
  sb_waiters : forall h ws, waiters st !! h = Some ws -> ws = [];
  sb_queue : readyq st = seq W (k - W);
  sb_slots : forall i, slots st !! i = if i <? W then Some (if i <? k then Some (first_run i) else None) else None;
  sb_log : forall p, p ∈ log st <-> exists i, i < W /\ i < k /\ p = (i, first_run i)
}.

(** The state when the clock reaches [u], before the completions due at
    [u] are processed. *)
Record Ticked (W u : nat) (st : @Sched PyVal PyExc) : Prop := {
  tk_now : now st = u;
  tk_tasks : tasks st = map task (seq 0 (2 * W));
  tk_store : forall j, store st !! j =
    if j <? 2 * W then Some (if done_time W j <? u then entry_at W u j else EPending) else None;
  tk_waiters : forall h ws, waiters st !! h = Some ws -> ws = [];
  tk_queue : readyq st = seq (W + u) (W - u);
  tk_slots : forall i, slots st !! i =
    if i <? W then Some (if u <=? i then Some (first_run i)
                         else if u <=? 2 * i + W then Some (second_run W i) else None)
    else None;
  tk_log : forall p, p ∈ log st <->
    exists i, i < W /\ (p = (i, first_run i) \/ (i < u /\ p = (i, second_run W i)))
}.

(** The state once the completions due at time [t] are processed. *)
Record Running (W t : nat) (st : @Sched PyVal PyExc) : Prop := {
  rn_now : now st = t;
  rn_tasks : tasks st = map task (seq 0 (2 * W));
  rn_store : forall j, store st !! j = if j <? 2 * W then Some (entry_at W t j) else None;
  rn_waiters : forall h ws, waiters st !! h = Some ws -> ws = [];
  rn_queue : readyq st = seq (W + S t) (W - S t);
  rn_slots : forall i, slots st !! i = if i <? W then Some (slot_at W t i) else None;
  rn_log : forall p, p ∈ log st <->
    exists i, i < W /\ (p = (i, first_run i) \/ (i <= t /\ p = (i, second_run W i)))
}.

End Oversub.

(** ** The driver cells of the notebooks *)
Module Drivers.
Import Notebook.

Local Abbreviation NSched := (@Sched PyVal PyExc).
Local Abbreviation NGet := (@GetResult PyVal PyExc).

(** [for n in range(k, k + N): id = expensive_task.remote(n);
     n2, duration = ray.get(id)]: each blocking Get follows its own
    submission; the results of the Gets in order. *)
Fixpoint get_each (horizon k N : nat) (st : NSched) : option (list NGet * NSched) :=
  match N with
  | 0 => Some ([], st)
  | S N' =>
      let (id, st1) := submit registry expensive_task [Lit (PInt (Z.of_nat k))] st in
      match get registry st1 [id] None horizon with
      | Some (r, st2) =>
          match get_each horizon (S k) N' st2 with
          | Some (rs, st3) => Some (r :: rs, st3)
          | None => None
          end
      | None => None
      end
  end.

(** [ids = [expensive_task.remote(n) for n in range(k, k + N)]]: the
    handles in submission order. *)
Fixpoint submit_all (k N : nat) (st : NSched) : list nat * NSched :=
  match N with
  | 0 => ([], st)
  | S N' =>
      let (id, st1) := submit registry expensive_task [Lit (PInt (Z.of_nat k))] st in
      let (ids, st2) := submit_all (S k) N' st1 in
      (id :: ids, st2)
  end.

(** [for n in range(k, k + N): f(n)] with the plain Python function [f]
    called in the driver itself: the values returned, in order, and the
    time the loop takes; an exception ends the loop and propagates. *)
Fixpoint call_each (f : Z -> Out * nat) (k N : nat) : (list PyVal + PyExc) * nat :=
  match N with
  | 0 => (inl [], 0)
  | S N' =>
      match f (Z.of_nat k) with
      | (Returned v, d) =>
          let (r, d') := call_each f (S k) N' in
          (match r with inl vs => inl (v :: vs) | inr e => inr e end, d + d')
      | (Raised e, d) => (inr e, d)
      end
  end.

(** A pool of [W] idle slots, [k] tasks submitted, an empty Ready Queue,
    at time [t]. *)
Record Idle (W k t : nat) (st : NSched) : Prop := {
  id_now : now st = t;
  id_tasks : length (tasks st) = k;
  id_store : length (store st) = k;
  id_waiters : forall h ws, waiters st !! h = Some ws -> ws = [];
  id_queue : readyq st = [];
  id_slots : forall i, slots st !! i = if i <? W then Some None else None
}.

(** The call [expensive(k)] submitted at time [t] to an [Idle W k t]
    pool, running in slot 0, at time [n]. *)
Record Started (W k t n : nat) (st : NSched) : Prop := {
  sd_now : now st = n;
  sd_tasks : length (tasks st) = S k;
  sd_store_len : length (store st) = S k;
  sd_entry : store st !! k = Some EPending;
  sd_waiters : forall h ws, waiters st !! h = Some ws -> ws = [];
  sd_queue : readyq st = [];
  sd_slots : forall i, slots st !! i =
    if i <? W then Some (if i =? 0 then Some (mkRun k t (t + k) (Oversub.ok k)) else None) else None
}.

(** [N <= W] calls [expensive(j)], [j < N], all started at time 0 in
    slots [0 .. N-1]; the first [c] of them are done. *)
Record Fanned (W N c : nat) (st : NSched) : Prop := {
  fa_tasks : tasks st = map Oversub.task (seq 0 N);
  fa_store : forall j, store st !! j =
    if j <? N then Some (if j <? c then EReady (PTuple (PInt (Z.of_nat j)) (PInt (Z.of_nat j))) j
                         else EPending)
    else None;
  fa_waiters : forall h ws, waiters st !! h = Some ws -> ws = [];
  fa_queue : readyq st = [];
  fa_slots : forall i, slots st !! i =
    if i <? W then Some (if (c <=? i) && (i <? N) then Some (Oversub.first_run i) else None) else None
}.

End Drivers.

(** * Runs of the scheduler *)
Section Runs.
Context {V Cause : Type} (exec : nat -> list V -> @Outcome V Cause * nat).

Local Abbreviation Sched := (@Sched V Cause).
Implicit Types st : Sched.

(** One move of the system: a client submission (whose future arguments
    are handles returned by earlier submissions), the processing of the
    completions due now, or the passage of one time unit.  Get and Wait
    are sequences of the last two. *)
Inductive step (st : Sched) : Sched -> Prop :=
| step_submit f args :
    Forall (fun h => h < length (tasks st)) (fut_handles args) ->
    step st (snd (submit exec f args st))
| step_settle : step st (settle exec st)
| step_tick : step st (tick st).

(** States reachable from an idle scheduler with some pool size. *)
Definition reachable (st : Sched) : Prop := exists W, rtc step (init W) st.

(** Terminal entries are never overwritten. *)
Definition stable (st st' : Sched) : Prop :=
  forall h e, store st !! h = Some e -> terminal e = true -> store st' !! h = Some e.

(** An operation that takes no time, adds no task, keeps the pool size
    and is write-once on the Value Store. *)
Definition frame (st st' : Sched) : Prop :=
  now st' = now st /\ tasks st' = tasks st /\
  length (slots st') = length (slots st) /\ stable st st'.

(** ** Introspection: per-task state *)

(** The task occupies a worker slot. *)
Definition running (st : Sched) (t : nat) : Prop :=
  exists i r, slots st !! i = Some (Some r) /\ r_tid r = t.

(** The task's function has been invoked in some slot. *)
Definition executed (st : Sched) (t : nat) : Prop :=
  exists i r, (i, r) ∈ log st /\ r_tid r = t.

Definition entry_done (o : option (@Entry V Cause)) : nat :=
  match o with Some (EReady _ a) => a | Some (EFailed _ a) => a | _ => 0 end.

(** The later of the submission time and the completion times of the
    task's dependencies. *)
Definition ready_time (st : Sched) (tk : @Task V) : nat :=
  fold_right (fun h m => Nat.max (entry_done (store st !! h)) m) (t_sub tk) (fut_handles (t_args tk)).

(** The entry a task's own outcome produces. *)
Definition entry_of (t : nat) (o : @Outcome V Cause) (e : @Entry V Cause) : Prop :=
  match o, e with
  | Returned v, EReady v' _ => v' = v
  | Raised c, EFailed err _ => err = ExecutionError t c
  | _, _ => False
  end.

(** The invariant of reachable states.  [x] names a task in transit
    inside an operation: popped from the Ready Queue or freed from its
    slot, and not yet running or terminal. *)
Record InvX (x : option nat) (st : Sched) : Prop := {
  inv_len_store : length (store st) = length (tasks st);
  inv_len_unres : length (unresolved st) = length (tasks st);
  inv_len_ready : length (ready_at st) = length (tasks st);
  inv_len_wait : length (waiters st) = length (tasks st);
  inv_args : forall t tk h, tasks st !! t = Some tk -> h ∈ fut_handles (t_args tk) -> h < t;
  inv_sub : forall t tk, tasks st !! t = Some tk -> t_sub tk <= now st;
  inv_done : forall h e, store st !! h = Some e -> entry_done (Some e) <= now st;
  inv_waiters : forall h ws, waiters st !! h = Some ws ->
    NoDup ws /\ forall t, t ∈ ws <-> exists tk, tasks st !! t = Some tk /\ h ∈ pending_deps st (t_args tk);
  inv_blocked : forall t tk, tasks st !! t = Some tk ->
    (ready_at st !! t = Some None <-> pending_deps st (t_args tk) <> []);
  inv_unres : forall t tk, tasks st !! t = Some tk -> ready_at st !! t = Some None ->
    unresolved st !! t = Some (length (pending_deps st (t_args tk)));
  inv_ready_time : forall t tk r, tasks st !! t = Some tk -> ready_at st !! t = Some (Some r) ->
    r = ready_time st tk;
  inv_blocked_pending : forall t, ready_at st !! t = Some None ->
    store st !! t = Some EPending /\ ~ executed st t;
  inv_queue_nodup : NoDup (readyq st);
  inv_queue : forall t, t ∈ readyq st <->
    (exists r, ready_at st !! t = Some (Some r)) /\ store st !! t = Some EPending /\
    ~ running st t /\ x <> Some t;
  inv_slots : forall i r, slots st !! i = Some (Some r) ->
    store st !! r_tid r = Some EPending /\ (i, r) ∈ log st;
  inv_slots_uniq : forall i j r r', slots st !! i = Some (Some r) -> slots st !! j = Some (Some r') ->
    r_tid r = r_tid r' -> i = j;
  inv_log : forall i r, (i, r) ∈ log st -> exists tk vs,
    tasks st !! r_tid r = Some tk /\ resolve st (t_args tk) = Resolved vs /\
    r_out r = fst (exec (t_fn tk) vs) /\ r_fin r = r_start r + snd (exec (t_fn tk) vs);
  inv_log_uniq : NoDup (map (fun p => r_tid (snd p)) (log st));
  inv_executed : forall t, executed st t -> running st t \/ entry_terminal st t = true \/ x = Some t;
  inv_entries : forall t e, store st !! t = Some e -> terminal e = true ->
    (exists i r, (i, r) ∈ log st /\ r_tid r = t /\ entry_of t (r_out r) e) \/
    (~ executed st t /\ exists tk err a, tasks st !! t = Some tk /\
       resolve st (t_args tk) = DepFailed err /\ e = EFailed (DependencyFailedError t err) a)
}.

Definition Inv (st : Sched) : Prop := InvX None st.

(** After the assignment loop: no idle slot is left while tasks wait. *)
Definition Quiet (st : Sched) : Prop :=
  readyq st = [] \/ find_slot is_idle (slots st) = None.

(** No completion due at the current instant is left unprocessed. *)
Definition settled (st : Sched) : Prop :=
  find_slot (is_due (now st)) (slots st) = None.

(** The release of [t] moves it to the Ready Queue. *)
Definition fires (st : Sched) (t : nat) : bool :=
  match unresolved st !! t with Some c => Nat.eqb (c - 1) 0 | None => false end.

Definition is_pending (st : Sched) (t : nat) : bool :=
  match store st !! t with Some EPending => true | _ => false end.

Definition in_log (st : Sched) (t : nat) : bool :=
  existsb (fun p => Nat.eqb (r_tid (snd p)) t) (log st).

(** PENDING tasks whose function has not been invoked. *)
Definition fresh (st : Sched) (t : nat) : bool := is_pending st t && negb (in_log st t).

Definition npending (st : Sched) : nat :=
  length (List.filter (is_pending st) (seq 0 (length (tasks st)))).

Definition nfresh (st : Sched) : nat :=
  length (List.filter (fresh st) (seq 0 (length (tasks st)))).

Definition log_incl (st st' : Sched) : Prop := forall p, p ∈ log st -> p ∈ log st'.

End Runs.

(** * Frame properties: what every internal operation leaves alone *)
Section Frame.
Context {V Cause : Type} (exec : nat -> list V -> @Outcome V Cause * nat).

Local Abbreviation Sched := (@Sched V Cause).
Implicit Types st : Sched.


Lemma frame_refl st : frame st st.
Proof. repeat split; auto. intros h e He _. exact He. Qed.

Lemma frame_trans st1 st2 st3 : frame st1 st2 -> frame st2 st3 -> frame st1 st3.
Proof.
  intros (H1 & H2 & H3 & H4) (H5 & H6 & H7 & H8).
  repeat split; try congruence. intros h e He Ht. auto.
Qed.

Lemma frame_same_store st st' :
  now st' = now st -> tasks st' = tasks st -> length (slots st') = length (slots st) ->
  store st' = store st -> frame st st'.
Proof. intros H1 H2 H3 H4. repeat split; auto. intros h e He _. congruence. Qed.

Ltac frame_setters := apply frame_same_store; reflexivity.

Lemma frame_release st t : frame st (release st t).
Proof.
  unfold release. destruct (unresolved st !! t); [|apply frame_refl].
  destruct (Nat.eqb _ 0); frame_setters.
Qed.

Lemma frame_fold_release ws st : frame st (fold_left release ws st).
Proof.
  revert st. induction ws as [|t ws IH]; intros st; simpl; [apply frame_refl|].
  eapply frame_trans; [apply frame_release|apply IH].
Qed.

Lemma frame_notify h st : frame st (notify h st).
Proof.
  unfold notify. eapply frame_trans; [apply frame_fold_release|]. frame_setters.
Qed.

Lemma frame_write_entry h e st : frame st (snd (write_entry h e st)).
Proof.
  unfold write_entry. destruct (entry_terminal st h) eqn:Ht; [apply frame_refl|].
  simpl. eapply frame_trans; [|apply frame_notify].
  repeat split; auto. intros h' e' He' Hte'. simpl.
  destruct (decide (h = h')) as [->|Hne].
  - unfold entry_terminal in Ht. rewrite He' in Ht. congruence.
  - rewrite list_lookup_insert_ne; auto.
Qed.

Lemma frame_dispatch i t st : frame st (dispatch exec i t st).
Proof.
  unfold dispatch. destruct (tasks st !! t) as [tk|]; [|apply frame_refl].
  destruct (resolve st (t_args tk)).
  - repeat split; simpl; auto; [apply length_insert|intros h e He _; exact He].
  - apply frame_write_entry.
  - apply frame_refl.
Qed.

Lemma frame_assign_loop fuel st : frame st (assign_loop exec fuel st).
Proof.
  revert st. induction fuel as [|f IH]; intros st; simpl; [apply frame_refl|].
  destruct (find_slot is_idle (slots st)); [|apply frame_refl].
  destruct (readyq st) as [|t q]; [apply frame_refl|].
  eapply frame_trans; [|apply IH].
  eapply frame_trans; [|apply frame_dispatch]. frame_setters.
Qed.

Lemma frame_assign st : frame st (assign exec st).
Proof. apply frame_assign_loop. Qed.

Lemma frame_write_result r st : frame st (write_result r st).
Proof. unfold write_result, put, put_error. destruct (r_out r); apply frame_write_entry. Qed.

Lemma frame_complete i st : frame st (complete exec i st).
Proof.
  unfold complete. destruct (slots st !! i) as [[r|]|]; try apply frame_refl.
  eapply frame_trans; [apply frame_write_result|].
  eapply frame_trans; [|apply frame_assign].
  repeat split; simpl; auto. apply length_insert. intros h e He _. exact He.
Qed.

Lemma frame_settle_loop fuel st : frame st (settle_loop exec fuel st).
Proof.
  revert st. induction fuel as [|f IH]; intros st; simpl; [apply frame_refl|].
  destruct (find_slot _ _); [|apply frame_refl].
  eapply frame_trans; [apply frame_complete|apply IH].
Qed.

Lemma frame_settle st : frame st (settle exec st).
Proof. apply frame_settle_loop. Qed.

Lemma stable_refl st : stable st st.
Proof. intros h e He _. exact He. Qed.

Lemma stable_trans st1 st2 st3 : stable st1 st2 -> stable st2 st3 -> stable st1 st3.
Proof. intros H1 H2 h e He Ht. auto. Qed.

Lemma advance_now st m : now (advance exec st m) = now st + m.
Proof.
  induction m as [|m IH]; simpl.
  - destruct (frame_settle st) as (H & _). lia.
  - destruct (frame_settle (tick (advance exec st m))) as (H & _). rewrite H. simpl. lia.
Qed.

Lemma advance_tasks st m : tasks (advance exec st m) = tasks st.
Proof.
  induction m as [|m IH]; simpl.
  - apply (frame_settle st).
  - destruct (frame_settle (tick (advance exec st m))) as (_ & H & _). rewrite H. exact IH.
Qed.

Lemma advance_slots_length st m : length (slots (advance exec st m)) = length (slots st).
Proof.
  induction m as [|m IH]; simpl.
  - apply (frame_settle st).
  - destruct (frame_settle (tick (advance exec st m))) as (_ & _ & H & _). rewrite H. exact IH.
Qed.

Lemma advance_stable st m : stable st (advance exec st m).
Proof.
  induction m as [|m IH]; simpl.
  - apply (frame_settle st).
  - eapply stable_trans; [exact IH|].
    destruct (frame_settle (tick (advance exec st m))) as (_ & _ & _ & H). exact H.
Qed.

(** Stepping into a poll loop one unit later is advancing one more unit. *)
Lemma advance_shift st m : advance exec (tick (settle exec st)) m = advance exec st (S m).
Proof. induction m as [|m IH]; simpl; [reflexivity|]. rewrite IH. reflexivity. Qed.

(** [poll] stops at the first instant where the condition holds or the
    deadline has passed. *)
Lemma poll_some fuel dl rd st b st' :
  poll exec fuel dl rd st = Some (b, st') ->
  exists m, m <= fuel /\ st' = advance exec st m /\ b = rd st' /\
    (rd st' = true \/ expired dl st' = true) /\
    forall m', m' < m -> rd (advance exec st m') = false /\ expired dl (advance exec st m') = false.
Proof.
  revert st. induction fuel as [|f IH]; intros st Hp; simpl in Hp.
  - destruct (rd (settle exec st)) eqn:Hr.
    + inversion Hp; subst. exists 0. repeat split; auto; intros; lia.
    + destruct (expired dl (settle exec st)) eqn:He; [|discriminate].
      inversion Hp; subst. exists 0. repeat split; auto; intros; lia.
  - destruct (rd (settle exec st)) eqn:Hr.
    + inversion Hp; subst. exists 0. repeat split; auto; intros; lia.
    + destruct (expired dl (settle exec st)) eqn:He.
      * inversion Hp; subst. exists 0. repeat split; auto; intros; lia.
      * destruct (IH _ Hp) as (m & Hm & -> & Hb & Hd & Hbefore).
        exists (S m). rewrite advance_shift in *.
        split; [lia|]. split; [reflexivity|]. split; [exact Hb|]. split; [exact Hd|].
        intros m' Hm'. destruct m' as [|k]; [simpl; auto|].
        rewrite <- advance_shift. apply Hbefore. lia.
Qed.

Lemma poll_none fuel dl rd st :
  poll exec fuel dl rd st = None ->
  forall m, m <= fuel -> rd (advance exec st m) = false /\ expired dl (advance exec st m) = false.
Proof.
  revert st. induction fuel as [|f IH]; intros st Hp m Hm; simpl in Hp.
  - destruct (rd (settle exec st)) eqn:Hr; [discriminate|].
    destruct (expired dl (settle exec st)) eqn:He; [discriminate|].
    assert (m = 0) as -> by lia. simpl. auto.
  - destruct (rd (settle exec st)) eqn:Hr; [discriminate|].
    destruct (expired dl (settle exec st)) eqn:He; [discriminate|].
    destruct m as [|m]; [simpl; auto|].
    rewrite <- advance_shift. apply IH; auto. lia.
Qed.

(** A poll whose condition or deadline is met within its fuel returns. *)
Lemma poll_returns fuel dl rd st m :
  m <= fuel -> rd (advance exec st m) = true \/ expired dl (advance exec st m) = true ->
  exists r, poll exec fuel dl rd st = Some r.
Proof.
  intros Hm Hc. destruct (poll exec fuel dl rd st) as [r|] eqn:Hp; [eauto|].
  destruct (poll_none _ _ _ _ Hp m Hm) as [H1 H2]. destruct Hc; congruence.
Qed.

(** The first instant within the fuel where the condition or deadline is
    met is where [poll] stops. *)
Lemma poll_first fuel dl rd st m :
  m <= fuel -> (rd (advance exec st m) = true \/ expired dl (advance exec st m) = true) ->
  (forall m', m' < m -> rd (advance exec st m') = false /\ expired dl (advance exec st m') = false) ->
  poll exec fuel dl rd st = Some (rd (advance exec st m), advance exec st m).
Proof.
  intros Hm Hc Hb. destruct (poll_returns _ _ _ _ _ Hm Hc) as [[b st'] Hp].
  rewrite Hp. destruct (poll_some _ _ _ _ _ _ Hp) as (m0 & Hm0 & -> & -> & Hc0 & Hb0).
  assert (m0 = m) as ->; [|reflexivity].
  destruct (Nat.lt_trichotomy m0 m) as [Hlt|[Heq|Hgt]]; auto.
  - destruct (Hb m0 Hlt). destruct Hc0; congruence.
  - destruct (Hb0 m Hgt). destruct Hc; congruence.
Qed.

End Frame.

(** * The Value Store contract and the Get/Wait surface *)
Section Surface.
Context {V Cause : Type} (exec : nat -> list V -> @Outcome V Cause * nat).

Local Abbreviation Sched := (@Sched V Cause).
Implicit Types st : Sched.

Lemma submit_stable f args (st : Sched) : stable st (snd (submit exec f args st)).
Proof.
  unfold submit. simpl.
  eapply stable_trans; [|apply (frame_assign exec)].
  intros h e He _. simpl. rewrite lookup_app_l; auto.
  apply lookup_lt_Some in He. exact He.
Qed.

Lemma step_stable (st st' : Sched) : step exec st st' -> stable st st'.
Proof.
  intros []; [apply submit_stable|apply (frame_settle exec)|intros h e He _; exact He].
Qed.

Lemma steps_stable (st st' : Sched) : rtc (step exec) st st' -> stable st st'.
Proof.
  induction 1 as [|x y z Hxy _ IH]; [apply stable_refl|].
  eapply stable_trans; [apply step_stable, Hxy|exact IH].
Qed.

Lemma entry_terminal_stable (st st' : Sched) h :
  stable st st' -> entry_terminal st h = true -> entry_terminal st' h = true.
Proof.
  unfold entry_terminal. intros Hs Ht. destruct (store st !! h) as [e|] eqn:He; [|discriminate].
  rewrite (Hs h e He Ht). exact Ht.
Qed.

Lemma collect_values (st : Sched) hs vs :
  collect st hs = GValues vs ->
  Forall2 (fun h v => exists a, store st !! h = Some (EReady v a)) hs vs.
Proof.
  revert vs. induction hs as [|h hs IH]; intros vs Hc; simpl in Hc.
  - inversion Hc. constructor.
  - destruct (store st !! h) as [[|v a|e a]|] eqn:He; try discriminate.
    destruct (collect st hs) as [vs'| |] eqn:Hc'; try discriminate.
    inversion Hc; subst. constructor; eauto.
Qed.

Lemma collect_not_timeout (st : Sched) hs :
  all_terminal st hs = true -> collect st hs <> GTimeout.
Proof.
  induction hs as [|h hs IH]; simpl; [discriminate|].
  intros Hall. apply andb_true_iff in Hall as [Hh Hall].
  unfold entry_terminal in Hh.
  destruct (store st !! h) as [[|v a|e a]|]; try discriminate.
  specialize (IH Hall). destruct (collect st hs); congruence.
Qed.

Lemma poll_now fuel dl rd st :
  rd (settle exec st) = true -> poll exec fuel dl rd st = Some (true, settle exec st).
Proof. intros H. destruct fuel; simpl; rewrite H; reflexivity. Qed.

(** The call's own deadline depends only on the time it started. *)
Lemma expired_advance (st : Sched) T m :
  expired (Some (now st + T)) (advance exec st m) = Nat.leb T m.
Proof.
  unfold expired. rewrite advance_now.
  destruct (Nat.leb T m) eqn:H; [apply Nat.leb_le in H|apply Nat.leb_gt in H];
    apply Nat.leb_le || apply Nat.leb_gt; lia.
Qed.

(** C4: Put and PutError on a terminal entry fail with DuplicateWriteError
    and leave the whole state (in particular the stored value and status)
    unchanged; and along every run an entry that is terminal stays the
    same, so it left PENDING at most once. *)
Theorem value_store_write_once (st : Sched) h e v err :
  store st !! h = Some e -> terminal e = true ->
  put h v st = (Some (DuplicateWriteError h), st) /\
  put_error h err st = (Some (DuplicateWriteError h), st) /\
  forall st', rtc (step exec) st st' -> store st' !! h = Some e.
Proof.
  intros He Ht. unfold put, put_error, write_entry, entry_terminal. rewrite He, Ht.
  split; [reflexivity|]. split; [reflexivity|].
  intros st' Hst. apply (steps_stable _ _ Hst h e He Ht).
Qed.

(** C7: Get on a handle whose entry is READY returns its stored value at
    the instant it is called, whatever the timeout. *)
Theorem get_ready_no_block (st : Sched) h v a timeout horizon :
  store st !! h = Some (EReady v a) ->
  get exec st [h] timeout horizon = Some (GValues [v], settle exec st) /\
  now (settle exec st) = now st.
Proof.
  intros He. destruct (frame_settle exec st) as (Hnow & _ & _ & Hs).
  pose proof (Hs h _ He eq_refl) as He'.
  assert (Hr : all_terminal (settle exec st) [h] = true).
  { unfold all_terminal, entry_terminal. simpl. rewrite He'. reflexivity. }
  split; [|exact Hnow].
  unfold get. rewrite (poll_now _ _ (fun s => all_terminal s [h]) _ Hr).
  simpl. rewrite He'. reflexivity.
Qed.

(** C10: a Get on a list of handles that returns values returns, for each
    handle in input order, the value stored for that handle. *)
Theorem get_values_in_order (st : Sched) hs timeout horizon vs st' :
  get exec st hs timeout horizon = Some (GValues vs, st') ->
  Forall2 (fun h v => exists a, store st' !! h = Some (EReady v a)) hs vs.
Proof.
  unfold get. destruct (poll exec _ _ _ st) as [[[|] s]|]; intros Hg; inversion Hg; subst.
  apply collect_values. congruence.
Qed.

Lemma count_ready_part st hs : length (ready_part st hs) = count_terminal st hs.
Proof. induction hs as [|h hs IH]; simpl; [reflexivity|]. destruct (entry_terminal st h); simpl; lia. Qed.

(** C6: Wait returns at the first instant at which [num_required] of the
    handles are terminal, or when its timeout elapses if that comes first;
    with no timeout it returns at the first instant the quorum is met,
    whatever the other handles are doing. *)
Theorem wait_returns_at_quorum st hs k T horizon :
  (exists m, m <= T /\
     wait exec st hs k (Some T) horizon =
       Some ((ready_part (advance exec st m) hs, remaining_part (advance exec st m) hs),
             advance exec st m) /\
     (k <= count_terminal (advance exec st m) hs \/ m = T) /\
     forall m', m' < m -> count_terminal (advance exec st m') hs < k) /\
  (forall m, m <= horizon -> k <= count_terminal (advance exec st m) hs ->
   exists m0, m0 <= m /\
     wait exec st hs k None horizon =
       Some ((ready_part (advance exec st m0) hs, remaining_part (advance exec st m0) hs),
             advance exec st m0) /\
     k <= count_terminal (advance exec st m0) hs /\
     forall m', m' < m0 -> count_terminal (advance exec st m') hs < k).
Proof.
  split.
  - unfold wait.
    destruct (poll_returns exec T (Some (now st + T)) (fun s => Nat.leb k (count_terminal s hs)) st T)
      as [[b st'] Hp]; [lia|right; rewrite expired_advance; apply Nat.leb_le; lia|].
    rewrite Hp. destruct (poll_some exec _ _ _ _ _ _ Hp) as (m & Hm & -> & _ & Hc & Hb).
    exists m. split; [exact Hm|]. split; [reflexivity|]. split.
    + rewrite expired_advance in Hc. destruct Hc as [Hc|Hc]; apply Nat.leb_le in Hc; [left|right]; lia.
    + intros m' Hm'. destruct (Hb m' Hm') as [H _]. apply Nat.leb_gt in H. exact H.
  - intros m Hm Hk. unfold wait.
    destruct (poll_returns exec horizon None (fun s => Nat.leb k (count_terminal s hs)) st m)
      as [[b st'] Hp]; [exact Hm|left; apply Nat.leb_le; exact Hk|].
    rewrite Hp. destruct (poll_some exec _ _ _ _ _ _ Hp) as (m0 & Hm0 & -> & _ & Hc & Hb).
    destruct Hc as [Hc|Hc]; [|discriminate]. apply Nat.leb_le in Hc.
    exists m0. split.
    + destruct (Nat.le_gt_cases m0 m) as [H|H]; [exact H|].
      destruct (Hb m H) as [H' _]. apply Nat.leb_gt in H'. lia.
    + split; [reflexivity|]. split; [exact Hc|].
      intros m' Hm'. destruct (Hb m' Hm') as [H _]. apply Nat.leb_gt in H. exact H.
Qed.

(** C8 (amended): a Get with a positive timeout [T] whose handles are not
    all terminal during the next [T] units returns TimeoutError exactly
    [T] units later; a Wait with timeout [T] that never sees its quorum
    returns after [T] units its (ready, remaining) partition with fewer
    than [num_required] ready handles.  In both cases the state left is the
    one the scheduler reaches by itself in [T] units: the timeout changes
    no task and no entry.  A zero timeout on Get means no timeout, so such
    a Get never yields TimeoutError. *)
Theorem timeout_result_is_local st hs :
  (forall T, (forall m, m <= S T -> all_terminal (advance exec st m) hs = false) ->
   forall horizon,
     get exec st hs (Some (S T)) horizon = Some (GTimeout, advance exec st (S T)) /\
     now (advance exec st (S T)) = now st + S T) /\
  (forall k T, (forall m, m <= T -> count_terminal (advance exec st m) hs < k) ->
   forall horizon,
     wait exec st hs k (Some T) horizon =
       Some ((ready_part (advance exec st T) hs, remaining_part (advance exec st T) hs),
             advance exec st T) /\
     length (ready_part (advance exec st T) hs) < k /\
     now (advance exec st T) = now st + T) /\
  (forall horizon r st', get exec st hs (Some 0) horizon = Some (r, st') -> r <> GTimeout).
Proof.
  split; [|split].
  - intros T Hn horizon. split; [|apply advance_now].
    unfold get.
    rewrite (poll_first exec (S T) (Some (now st + S T)) (fun s => all_terminal s hs) st (S T)).
    + rewrite (Hn (S T) (le_n _)). reflexivity.
    + lia.
    + right. rewrite expired_advance. apply Nat.leb_le. lia.
    + intros m' Hm'. split; [apply Hn; lia|]. rewrite expired_advance. apply Nat.leb_gt. lia.
  - intros k T Hn horizon. split; [|split; [|apply advance_now]].
    + unfold wait.
      rewrite (poll_first exec T (Some (now st + T)) (fun s => Nat.leb k (count_terminal s hs)) st T).
      * reflexivity.
      * lia.
      * right. rewrite expired_advance. apply Nat.leb_le. lia.
      * intros m' Hm'. split; [apply Nat.leb_gt, Hn; lia|].
        rewrite expired_advance. apply Nat.leb_gt. lia.
    + rewrite count_ready_part. apply Hn. lia.
  - intros horizon r st' Hg. unfold get in Hg.
    destruct (poll exec horizon None (fun s => all_terminal s hs) st) as [[b s]|] eqn:Hp;
      [|discriminate].
    destruct (poll_some exec _ _ _ _ _ _ Hp) as (m & _ & -> & Hb & Hc & _).
    destruct Hc as [Hc|Hc]; [|discriminate]. rewrite Hb, Hc in Hg. simpl in Hg.
    inversion Hg; subst. apply collect_not_timeout. exact Hc.
Qed.

End Surface.

(** * Facts about dependencies, argument resolution and store writes *)
Section Deps.
Context {V Cause : Type}.

Local Abbreviation Sched := (@Sched V Cause).
Implicit Types st : Sched.

Lemma elem_of_unterminated st hs x :
  x ∈ unterminated st hs <-> x ∈ hs /\ entry_terminal st x = false.
Proof.
  induction hs as [|h hs IH]; simpl.
  - split; [intros H; inversion H|intros [H _]; inversion H].
  - destruct (entry_terminal st h) eqn:Hh.
    + rewrite IH, elem_of_cons. split; [intros [H1 H2]; auto|].
      intros [[->|H1] H2]; [congruence|auto].
    + rewrite !elem_of_cons, IH. split; [intros [->|[H1 H2]]; auto|].
      intros [[->|H1] H2]; auto.
Qed.

Lemma elem_of_pending_deps st args x :
  x ∈ pending_deps st args <-> x ∈ fut_handles args /\ entry_terminal st x = false.
Proof. unfold pending_deps. rewrite elem_of_remove_dups. apply elem_of_unterminated. Qed.

Lemma NoDup_pending_deps st args : NoDup (pending_deps st args).
Proof. apply NoDup_remove_dups. Qed.

Lemma pending_deps_nil st args :
  pending_deps st args = [] <-> forall x, x ∈ fut_handles args -> entry_terminal st x = true.
Proof.
  split.
  - intros H x Hx. destruct (entry_terminal st x) eqn:Ht; [reflexivity|].
    assert (x ∈ pending_deps st args) as Hin by (apply elem_of_pending_deps; auto).
    rewrite H in Hin. inversion Hin.
  - intros H. destruct (pending_deps st args) as [|x l] eqn:Hp; [reflexivity|].
    assert (x ∈ pending_deps st args) as Hin by (rewrite Hp; left).
    apply elem_of_pending_deps in Hin as [H1 H2]. rewrite H in H2; auto. discriminate.
Qed.

Lemma unterminated_ext st st' hs :
  (forall x, x ∈ hs -> entry_terminal st x = entry_terminal st' x) ->
  unterminated st hs = unterminated st' hs.
Proof.
  induction hs as [|h hs IH]; intros H; simpl; [reflexivity|].
  rewrite (H h (list_elem_of_here _ _)), IH; [reflexivity|].
  intros x Hx. apply H. right. exact Hx.
Qed.

Lemma pending_deps_ext st st' args :
  (forall x, x ∈ fut_handles args -> entry_terminal st x = entry_terminal st' x) ->
  pending_deps st args = pending_deps st' args.
Proof. intros H. unfold pending_deps. f_equal. apply unterminated_ext. exact H. Qed.

Lemma length_nodup_remove (l l' : list nat) h :
  NoDup l -> NoDup l' -> h ∈ l -> (forall x, x ∈ l' <-> x ∈ l /\ x <> h) ->
  length l = S (length l').
Proof.
  intros Hl Hl' Hh Hx.
  assert (Hp : l ≡ₚ h :: l').
  { apply NoDup_Permutation; [exact Hl| |].
    - apply NoDup_cons. split; [|exact Hl']. intros Hin. apply Hx in Hin as [_ Hne]. auto.
    - intros x. rewrite elem_of_cons, Hx. destruct (decide (x = h)); naive_solver. }
  apply Permutation_length in Hp. exact Hp.
Qed.

Lemma resolve_terminal st args :
  (forall x, x ∈ fut_handles args -> entry_terminal st x = true) -> resolve st args <> Unresolved.
Proof.
  induction args as [|[v|h] args IH]; intros H; simpl; [discriminate| |].
  - destruct (resolve st args) eqn:Hr; try discriminate.
    exfalso. apply IH; [exact H|reflexivity].
  - assert (Hh : entry_terminal st h = true) by (apply H; left).
    unfold entry_terminal in Hh.
    destruct (store st !! h) as [[|v a|e a]|]; try discriminate.
    destruct (resolve st args) eqn:Hr; try discriminate.
    exfalso. apply IH; [|reflexivity]. intros x Hx. apply H. right. exact Hx.
Qed.

Lemma resolve_stable st st' args :
  stable st st' -> resolve st args <> Unresolved -> resolve st' args = resolve st args.
Proof.
  intros Hs. induction args as [|[v|h] args IH]; intros H; simpl in *; [reflexivity| |].
  - destruct (resolve st args) eqn:Hr;
      [rewrite IH by discriminate; reflexivity|rewrite IH by discriminate; reflexivity|congruence].
  - destruct (store st !! h) as [[|v a|e a]|] eqn:Hh; try congruence.
    + rewrite (Hs h _ Hh eq_refl).
      destruct (resolve st args) eqn:Hr;
        [rewrite IH by discriminate; reflexivity|rewrite IH by discriminate; reflexivity|congruence].
    + rewrite (Hs h _ Hh eq_refl). reflexivity.
Qed.

Lemma resolve_resolved_ready st args vs :
  resolve st args = Resolved vs ->
  forall h, h ∈ fut_handles args -> exists v a, store st !! h = Some (EReady v a).
Proof.
  revert vs. induction args as [|[v|h'] args IH]; intros vs Hr h Hh; simpl in *.
  - inversion Hh.
  - destruct (resolve st args) eqn:Hr'; try discriminate. eapply IH; eauto.
  - destruct (store st !! h') as [[|v a|e a]|] eqn:Hh'; try discriminate.
    destruct (resolve st args) eqn:Hr'; try discriminate.
    apply elem_of_cons in Hh as [->|Hh]; [eauto|]. eapply IH; eauto.
Qed.

Lemma resolve_depfailed st args err :
  resolve st args = DepFailed err ->
  exists h a, h ∈ fut_handles args /\ store st !! h = Some (EFailed err a).
Proof.
  induction args as [|[v|h'] args IH]; intros Hr; simpl in *; [discriminate| |].
  - destruct (resolve st args) eqn:Hr'; try discriminate. inversion Hr; subst.
    apply IH. reflexivity.
  - destruct (store st !! h') as [[|v a|e a]|] eqn:Hh'; try discriminate.
    + destruct (resolve st args) eqn:Hr'; try discriminate. inversion Hr; subst.
      destruct (IH eq_refl) as (h & a' & Hin & He). exists h, a'. split; [right|]; auto.
    + inversion Hr; subst. exists h', a. split; [left|]; auto.
Qed.

(** Writing a terminal entry at [h] makes exactly [h] newly terminal. *)
Lemma entry_terminal_insert st h e x :
  h < length (store st) -> terminal e = true ->
  entry_terminal (set_store (<[h := e]> (store st)) st) x =
  if decide (x = h) then true else entry_terminal st x.
Proof.
  intros Hh He. unfold entry_terminal. simpl.
  destruct (decide (x = h)) as [->|Hne].
  - rewrite list_lookup_insert_eq by exact Hh. exact He.
  - rewrite list_lookup_insert_ne by auto. reflexivity.
Qed.

End Deps.

(** * The cascade of releases *)
Section Cascade.
Context {V Cause : Type}.

Local Abbreviation Sched := (@Sched V Cause).
Implicit Types st : Sched.

Lemma release_fields st t :
  now (release st t) = now st /\ tasks (release st t) = tasks st /\
  store (release st t) = store st /\ waiters (release st t) = waiters st /\
  slots (release st t) = slots st /\ log (release st t) = log st /\
  length (unresolved (release st t)) = length (unresolved st) /\
  length (ready_at (release st t)) = length (ready_at st).
Proof.
  unfold release. destruct (unresolved st !! t); [|repeat split].
  destruct (Nat.eqb _ 0); simpl; rewrite ?length_insert; repeat split.
Qed.

Lemma fold_release_fields ws st :
  let st' := fold_left release ws st in
  now st' = now st /\ tasks st' = tasks st /\ store st' = store st /\
  waiters st' = waiters st /\ slots st' = slots st /\ log st' = log st /\
  length (unresolved st') = length (unresolved st) /\
  length (ready_at st') = length (ready_at st).
Proof.
  revert st. induction ws as [|t ws IH]; intros st; simpl; [repeat split|].
  destruct (IH (release st t)) as (H1 & H2 & H3 & H4 & H5 & H6 & H7 & H8).
  destruct (release_fields st t) as (G1 & G2 & G3 & G4 & G5 & G6 & G7 & G8).
  repeat split; congruence.
Qed.

Lemma release_other st t u :
  u <> t -> unresolved (release st t) !! u = unresolved st !! u /\
  ready_at (release st t) !! u = ready_at st !! u.
Proof.
  intros Hne. unfold release. destruct (unresolved st !! t); [|auto].
  destruct (Nat.eqb _ 0); simpl; rewrite !list_lookup_insert_ne by auto; auto.
Qed.

Lemma fires_release st t u : u <> t -> fires (release st t) u = fires st u.
Proof. intros Hne. unfold fires. rewrite (proj1 (release_other st t u Hne)). reflexivity. Qed.

Lemma fold_release_other ws st u :
  u ∉ ws -> unresolved (fold_left release ws st) !! u = unresolved st !! u /\
  ready_at (fold_left release ws st) !! u = ready_at st !! u.
Proof.
  revert st. induction ws as [|t ws IH]; intros st Hu; simpl; [auto|].
  rewrite elem_of_cons in Hu.
  destruct (IH (release st t)) as [-> ->]; [intros H; apply Hu; auto|].
  apply release_other. intros ->. apply Hu. auto.
Qed.

Lemma fold_release_queue ws st :
  NoDup ws -> readyq (fold_left release ws st) = readyq st ++ List.filter (fires st) ws.
Proof.
  revert st. induction ws as [|t ws IH]; intros st Hnd; simpl; [rewrite app_nil_r; reflexivity|].
  apply NoDup_cons in Hnd as [Hnin Hnd]. rewrite IH by exact Hnd.
  assert (Hf : List.filter (fires (release st t)) ws = List.filter (fires st) ws).
  { apply filter_ext_in. intros u Hu. apply fires_release.
    intros ->. apply Hnin. apply list_elem_of_In. exact Hu. }
  rewrite Hf. unfold release, fires at 2.
  destruct (unresolved st !! t) as [c|]; simpl; [|reflexivity].
  destruct (Nat.eqb (c - 1) 0); simpl; [|reflexivity].
  rewrite <- app_assoc. reflexivity.
Qed.

Lemma release_self st t :
  length (ready_at st) = length (unresolved st) ->
  unresolved (release st t) !! t = (fun c => c - 1) <$> unresolved st !! t /\
  ready_at (release st t) !! t = if fires st t then Some (Some (now st)) else ready_at st !! t.
Proof.
  intros Hlen. unfold release, fires. destruct (unresolved st !! t) as [c|] eqn:Hc; [|auto].
  assert (Ht : t < length (unresolved st)) by (apply lookup_lt_Some in Hc; exact Hc).
  destruct (Nat.eqb (c - 1) 0); simpl; rewrite list_lookup_insert_eq by exact Ht; split; auto.
  rewrite list_lookup_insert_eq by lia. reflexivity.
Qed.

Lemma fold_release_in ws st u :
  NoDup ws -> u ∈ ws -> length (ready_at st) = length (unresolved st) ->
  unresolved (fold_left release ws st) !! u = (fun c => c - 1) <$> unresolved st !! u /\
  ready_at (fold_left release ws st) !! u =
    if fires st u then Some (Some (now st)) else ready_at st !! u.
Proof.
  revert st. induction ws as [|t ws IH]; intros st Hnd Hu Hlen; simpl.
  - inversion Hu.
  - apply NoDup_cons in Hnd as [Hnin Hnd].
    destruct (release_fields st t) as (G1 & _ & _ & _ & _ & _ & G7 & G8).
    apply elem_of_cons in Hu as [Heq|Hu].
    + subst t.
      rewrite (proj1 (fold_release_other ws (release st u) u Hnin)).
      rewrite (proj2 (fold_release_other ws (release st u) u Hnin)).
      apply release_self. exact Hlen.
    + assert (Hne : u <> t) by (intros ->; contradiction).
      destruct (IH (release st t) Hnd Hu) as [-> ->]; [congruence|].
      rewrite fires_release by exact Hne. rewrite G1.
      destruct (release_other st t u Hne) as [-> ->]. auto.
Qed.

Lemma release_set_slots st t X :
  release (set_slots X st) t = set_slots X (release st t).
Proof.
  unfold release. destruct st; simpl.
  destruct (unresolved0 !! t); [|reflexivity]. destruct (Nat.eqb _ 0); reflexivity.
Qed.

Lemma fold_release_set_slots ws st X :
  fold_left release ws (set_slots X st) = set_slots X (fold_left release ws st).
Proof.
  revert st. induction ws as [|t ws IH]; intros st; simpl; [reflexivity|].
  rewrite release_set_slots. apply IH.
Qed.

Lemma write_entry_set_slots h e st X :
  write_entry h e (set_slots X st) = (fst (write_entry h e st), set_slots X (snd (write_entry h e st))).
Proof.
  unfold write_entry, entry_terminal. simpl. destruct (store st !! h); simpl.
  - destruct (terminal e0); [reflexivity|].
    unfold notify. f_equal.
    replace (set_store (<[h:=e]> (store st)) (set_slots X st))
      with (set_slots X (set_store (<[h:=e]> (store st)) st)) by (destruct st; reflexivity).
    rewrite fold_release_set_slots. destruct (fold_left _ _ _); reflexivity.
  - unfold notify. f_equal.
    replace (set_store (<[h:=e]> (store st)) (set_slots X st))
      with (set_slots X (set_store (<[h:=e]> (store st)) st)) by (destruct st; reflexivity).
    rewrite fold_release_set_slots. destruct (fold_left _ _ _); reflexivity.
Qed.

End Cascade.

(** * Small facts used by the invariant proofs *)
Section Helpers.
Context {V Cause : Type}.

Local Abbreviation Sched := (@Sched V Cause).
Implicit Types st : Sched.

Lemma fold_max_le {A} (f : A -> nat) (init N : nat) (l : list A) :
  (forall h, h ∈ l -> f h <= N) -> init <= N ->
  fold_right (fun h m => Nat.max (f h) m) init l <= N.
Proof.
  induction l as [|h l IH]; intros Hl Hi; simpl; [exact Hi|].
  apply Nat.max_lub; [apply Hl; left|apply IH; [|exact Hi]].
  intros h' Hh'. apply Hl. right. exact Hh'.
Qed.

Lemma fold_max_ge {A} (f : A -> nat) (init : nat) (l : list A) h :
  h ∈ l -> f h <= fold_right (fun h m => Nat.max (f h) m) init l.
Proof.
  induction l as [|h' l IH]; intros Hh; simpl; [inversion Hh|].
  apply elem_of_cons in Hh as [->|Hh]; [lia|]. specialize (IH Hh). lia.
Qed.

Lemma fold_max_init {A} (f : A -> nat) (init : nat) (l : list A) :
  init <= fold_right (fun h m => Nat.max (f h) m) init l.
Proof. induction l as [|h l IH]; simpl; lia. Qed.

Lemma fold_max_ext {A} (f g : A -> nat) (init : nat) (l : list A) :
  (forall h, h ∈ l -> f h = g h) ->
  fold_right (fun h m => Nat.max (f h) m) init l = fold_right (fun h m => Nat.max (g h) m) init l.
Proof.
  induction l as [|h l IH]; intros Hl; simpl; [reflexivity|].
  rewrite (Hl h (list_elem_of_here _ _)), IH; [reflexivity|].
  intros h' Hh'. apply Hl. right. exact Hh'.
Qed.

Lemma elem_of_filter_bool {A} (p : A -> bool) (l : list A) x :
  x ∈ List.filter p l <-> p x = true /\ x ∈ l.
Proof. rewrite !list_elem_of_In, filter_In. tauto. Qed.

Lemma NoDup_filter_bool {A} (p : A -> bool) (l : list A) :
  NoDup l -> NoDup (List.filter p l).
Proof.
  induction l as [|x l IH]; intros Hnd; simpl; [constructor|].
  apply NoDup_cons in Hnd as [Hx Hnd]. destruct (p x); [|auto].
  apply NoDup_cons. split; [|auto]. rewrite elem_of_filter_bool. tauto.
Qed.

Lemma NoDup_map_inj_on {A B} (f : A -> B) (l : list A) a b :
  NoDup (map f l) -> a ∈ l -> b ∈ l -> f a = f b -> a = b.
Proof.
  induction l as [|y l IH]; intros Hnd Ha Hb Hf; [inversion Ha|].
  simpl in Hnd. apply NoDup_cons in Hnd as [Hy Hnd].
  apply elem_of_cons in Ha as [->|Ha]; apply elem_of_cons in Hb as [->|Hb]; auto.
  - exfalso. apply Hy. rewrite Hf. apply list_elem_of_fmap_2. exact Hb.
  - exfalso. apply Hy. rewrite <- Hf. apply list_elem_of_fmap_2. exact Ha.
Qed.

Lemma filter_length_le {A} (p q : A -> bool) (l : list A) :
  (forall y, y ∈ l -> q y = true -> p y = true) ->
  length (List.filter q l) <= length (List.filter p l).
Proof.
  induction l as [|y l IH]; intros Hpq; simpl; [lia|].
  assert (Hl : forall z, z ∈ l -> q z = true -> p z = true) by (intros z Hz; apply Hpq; right; exact Hz).
  specialize (IH Hl). specialize (Hpq y (list_elem_of_here _ _)).
  destruct (q y), (p y); simpl; try specialize (Hpq eq_refl); try discriminate; lia.
Qed.

Lemma filter_length_lt {A} (p q : A -> bool) (l : list A) x :
  (forall y, y ∈ l -> q y = true -> p y = true) -> x ∈ l -> p x = true -> q x = false ->
  length (List.filter q l) < length (List.filter p l).
Proof.
  induction l as [|y l IH]; intros Hpq Hx Hp Hq; [inversion Hx|]. simpl.
  assert (Hl : forall z, z ∈ l -> q z = true -> p z = true) by (intros z Hz; apply Hpq; right; exact Hz).
  pose proof (filter_length_le p q l Hl) as Hle.
  apply elem_of_cons in Hx as [->|Hx].
  - rewrite Hp, Hq. simpl. lia.
  - specialize (IH Hl Hx Hp Hq).
    specialize (Hpq y (list_elem_of_here _ _)).
    destruct (q y), (p y); simpl; try specialize (Hpq eq_refl); try discriminate; lia.
Qed.

End Helpers.

(** * The invariant is preserved by every operation *)
Section Preservation.
Context {V Cause : Type} (exec : nat -> list V -> @Outcome V Cause * nat).

Local Abbreviation Sched := (@Sched V Cause).
Implicit Types st : Sched.

Lemma entry_terminal_store st st' h : store st = store st' -> entry_terminal st h = entry_terminal st' h.
Proof. unfold entry_terminal. intros ->. reflexivity. Qed.

Lemma pending_deps_store st st' args : store st = store st' -> pending_deps st args = pending_deps st' args.
Proof. intros H. apply pending_deps_ext. intros x _. apply entry_terminal_store. exact H. Qed.

Lemma resolve_lookup st st' args :
  (forall h, h ∈ fut_handles args -> store st !! h = store st' !! h) -> resolve st args = resolve st' args.
Proof.
  induction args as [|[v|h] args IH]; intros H; simpl in *; [reflexivity| |].
  - rewrite IH by exact H. reflexivity.
  - rewrite (H h (list_elem_of_here _ _)), IH; [reflexivity|].
    intros h' Hh'. apply H. right. exact Hh'.
Qed.

Lemma ready_time_lookup st st' tk :
  (forall h, h ∈ fut_handles (t_args tk) -> store st !! h = store st' !! h) ->
  ready_time st tk = ready_time st' tk.
Proof.
  intros H. unfold ready_time. apply fold_max_ext. intros h Hh. rewrite H by exact Hh. reflexivity.
Qed.

Lemma pending_deps_futs st args h : h ∈ pending_deps st args -> h ∈ fut_handles args.
Proof. rewrite elem_of_pending_deps. tauto. Qed.

Lemma running_executed x st t : InvX exec x st -> running st t -> executed st t.
Proof.
  intros HI (i & r & Hr & Ht). exists i, r. split; [|exact Ht].
  exact (proj2 (inv_slots _ _ _ HI i r Hr)).
Qed.

(** Everything the Dependency Resolver sees is read from the Value Store. *)
Lemma store_view st s :
  store s = store st ->
  (forall args, pending_deps s args = pending_deps st args) /\
  (forall args, resolve s args = resolve st args) /\
  (forall tk, ready_time s tk = ready_time st tk) /\
  (forall h, entry_terminal s h = entry_terminal st h).
Proof.
  intros H. split; [|split; [|split]].
  - intros args. apply pending_deps_store. exact H.
  - intros args. apply resolve_lookup. intros h _. rewrite H. reflexivity.
  - intros tk. apply ready_time_lookup. intros h _. rewrite H. reflexivity.
  - intros h. apply entry_terminal_store. exact H.
Qed.

(** Writing the terminal entry of a task in transit restores the invariant. *)
Lemma inv_write x e tkx st :
  InvX exec (Some x) st ->
  tasks st !! x = Some tkx ->
  store st !! x = Some EPending ->
  (exists r, ready_at st !! x = Some (Some r)) ->
  ~ running st x ->
  terminal e = true ->
  entry_done (Some e) = now st ->
  ((exists i r, (i, r) ∈ log st /\ r_tid r = x /\ entry_of x (r_out r) e) \/
   (~ executed st x /\ exists err a, resolve st (t_args tkx) = DepFailed err /\
      e = EFailed (DependencyFailedError x err) a)) ->
  Inv exec (snd (write_entry x e st)).
Proof.
  intros HI Htk Hpend Hrdy Hnrun He Hdone Hent.
  assert (Hxlen : x < length (tasks st)) by (apply lookup_lt_Some in Htk; exact Htk).
  assert (Hxs : x < length (store st)) by (rewrite (inv_len_store _ _ _ HI); exact Hxlen).
  destruct (lookup_lt_is_Some_2 (waiters st) x) as [ws Hws];
    [rewrite (inv_len_wait _ _ _ HI); exact Hxlen|].
  destruct (inv_waiters _ _ _ HI x ws Hws) as [Hwsnd Hwsm].
  assert (Hw : write_entry x e st =
    (None, notify x (set_store (<[x:=e]> (store st)) st))).
  { unfold write_entry, entry_terminal. rewrite Hpend. reflexivity. }
  rewrite Hw. simpl snd. unfold notify. cbv zeta.
  change (waiters (set_store (<[x:=e]> (store st)) st)) with (waiters st). rewrite Hws. simpl default.
  destruct (fold_release_fields ws (set_store (<[x:=e]> (store st)) st))
    as (F1 & F2 & F3 & F4 & F5 & F6 & F7 & F8).
  pose proof (fold_release_queue ws (set_store (<[x:=e]> (store st)) st) Hwsnd) as F9.
  pose proof (fun u => fold_release_other ws (set_store (<[x:=e]> (store st)) st) u) as F10.
  pose proof (fun u => fold_release_in ws (set_store (<[x:=e]> (store st)) st) u Hwsnd) as F11.
  remember (fold_left release ws (set_store (<[x:=e]> (store st)) st)) as s0 eqn:Hs0.
  clear Hs0. simpl in F1, F2, F3, F4, F5, F6, F7, F8, F9, F10, F11.
  assert (Hfires : fires (set_store (<[x:=e]> (store st)) st) = fires st) by reflexivity.
  rewrite Hfires in F9, F11.
  remember (set_waiters (<[x:=[]]> (waiters s0)) s0) as s eqn:Hs.
  assert (S_now : now s = now st) by (subst s; exact F1).
  assert (S_tasks : tasks s = tasks st) by (subst s; exact F2).
  assert (S_store : store s = <[x:=e]> (store st)) by (subst s; exact F3).
  assert (S_waiters : waiters s = <[x:=[]]> (waiters st)) by (subst s; simpl; rewrite F4; reflexivity).
  assert (S_slots : slots s = slots st) by (subst s; exact F5).
  assert (S_log : log s = log st) by (subst s; exact F6).
  assert (S_lenu : length (unresolved s) = length (unresolved st)) by (subst s; exact F7).
  assert (S_lenr : length (ready_at s) = length (ready_at st)) by (subst s; exact F8).
  assert (S_queue : readyq s = readyq st ++ List.filter (fires st) ws) by (subst s; exact F9).
  assert (S_other : forall u, u ∉ ws ->
    unresolved s !! u = unresolved st !! u /\ ready_at s !! u = ready_at st !! u)
    by (subst s; exact F10).
  assert (S_in : forall u, u ∈ ws ->
    unresolved s !! u = (fun c => c - 1) <$> unresolved st !! u /\
    ready_at s !! u = if fires st u then Some (Some (now st)) else ready_at st !! u).
  { intros u Hu. subst s. apply (F11 u Hu).
    rewrite (inv_len_ready _ _ _ HI), (inv_len_unres _ _ _ HI). reflexivity. }
  clear F1 F2 F3 F4 F5 F6 F7 F8 F9 F10 F11 Hs Hfires Hw.
  (* consequences on the Value Store *)
  assert (T_term : forall h, entry_terminal s h = if decide (h = x) then true else entry_terminal st h).
  { intros h. unfold entry_terminal. rewrite S_store.
    destruct (decide (h = x)) as [->|Hne].
    - rewrite list_lookup_insert_eq by exact Hxs. exact He.
    - rewrite list_lookup_insert_ne by auto. reflexivity. }
  assert (Hxterm : entry_terminal st x = false) by (unfold entry_terminal; rewrite Hpend; reflexivity).
  assert (T_pd : forall args h, h ∈ pending_deps s args <-> h ∈ pending_deps st args /\ h <> x).
  { intros args h. rewrite !elem_of_pending_deps, T_term.
    destruct (decide (h = x)); intuition congruence. }
  assert (T_stable : stable st s).
  { intros h e' He' Ht'. rewrite S_store. destruct (decide (h = x)) as [->|Hne].
    - rewrite Hpend in He'. inversion He'. subst e'. discriminate.
    - rewrite list_lookup_insert_ne by auto. exact He'. }
  assert (T_resolve : forall args, resolve st args <> Unresolved -> resolve s args = resolve st args).
  { intros args. apply resolve_stable. exact T_stable. }
  assert (T_run : forall t, running s t <-> running st t) by (intros t; unfold running; rewrite S_slots; tauto).
  assert (T_exec : forall t, executed s t <-> executed st t) by (intros t; unfold executed; rewrite S_log; tauto).
  assert (T_xws : x ∉ ws).
  { intros Hx. apply Hwsm in Hx as (tk & Htk' & Hin). rewrite Htk in Htk'. inversion Htk'. subst tk.
    apply pending_deps_futs in Hin. pose proof (inv_args _ _ _ HI x tkx x Htk Hin). lia. }
  assert (T_notin : forall u tk, tasks st !! u = Some tk -> u ∉ ws ->
    pending_deps s (t_args tk) = pending_deps st (t_args tk)).
  { intros u tk Hu Hnin. apply pending_deps_ext. intros h Hh. rewrite T_term.
    destruct (decide (h = x)) as [->|]; [|reflexivity].
    exfalso. apply Hnin. apply Hwsm. exists tk. split; [exact Hu|]. apply elem_of_pending_deps. auto. }
  assert (T_in : forall u tk, tasks st !! u = Some tk -> u ∈ ws ->
    ready_at st !! u = Some None /\
    unresolved st !! u = Some (S (length (pending_deps s (t_args tk))))).
  { intros u tk Hu Hin.
    assert (Hx : x ∈ pending_deps st (t_args tk)).
    { apply Hwsm in Hin as (tk' & Hu' & Hx). rewrite Hu in Hu'. inversion Hu'. subst. exact Hx. }
    assert (Hb : ready_at st !! u = Some None).
    { apply (inv_blocked _ _ _ HI u tk Hu). intros Hnil. rewrite Hnil in Hx. inversion Hx. }
    split; [exact Hb|]. rewrite (inv_unres _ _ _ HI u tk Hu Hb). f_equal.
    apply length_nodup_remove with x; [apply NoDup_pending_deps|apply NoDup_pending_deps|exact Hx|].
    intros h. apply T_pd. }
  assert (T_ws_task : forall u, u ∈ ws -> exists tk, tasks st !! u = Some tk).
  { intros u Hu. apply Hwsm in Hu as (tk & Hu & _). eauto. }
  assert (T_fires : forall u tk, tasks st !! u = Some tk -> u ∈ ws ->
    fires st u = true <-> pending_deps s (t_args tk) = []).
  { intros u tk Hu Hin. destruct (T_in u tk Hu Hin) as [_ Hc]. unfold fires. rewrite Hc.
    simpl. rewrite Nat.sub_0_r, Nat.eqb_eq, length_zero_iff_nil. tauto. }
  (* the ready time of a released task is the current instant *)
  assert (T_done : forall h e', store s !! h = Some e' -> entry_done (Some e') <= now st).
  { intros h e' He'. rewrite S_store in He'. destruct (decide (h = x)) as [->|Hne].
    - rewrite list_lookup_insert_eq in He' by exact Hxs. inversion He'. subst. lia.
    - rewrite list_lookup_insert_ne in He' by auto. apply (inv_done _ _ _ HI h e' He'). }
  assert (T_rb : forall t, ready_at s !! t = Some None -> ready_at st !! t = Some None).
  { intros t Hb. destruct (decide (t ∈ ws)) as [Hin|Hnin].
    - rewrite (proj2 (S_in t Hin)) in Hb. destruct (fires st t); [discriminate|exact Hb].
    - rewrite (proj2 (S_other t Hnin)) in Hb. exact Hb. }
  assert (Hxrdy : forall t, ready_at st !! t = Some None -> t <> x).
  { intros t Hb ->. destruct Hrdy as [r Hr]. congruence. }
  assert (Hlw : x < length (waiters st)) by (apply lookup_lt_Some in Hws; exact Hws).
  constructor.
  - rewrite S_store, length_insert, S_tasks. apply (inv_len_store _ _ _ HI).
  - rewrite S_lenu, S_tasks. apply (inv_len_unres _ _ _ HI).
  - rewrite S_lenr, S_tasks. apply (inv_len_ready _ _ _ HI).
  - rewrite S_waiters, length_insert, S_tasks. apply (inv_len_wait _ _ _ HI).
  - rewrite S_tasks. apply (inv_args _ _ _ HI).
  - rewrite S_tasks, S_now. apply (inv_sub _ _ _ HI).
  - rewrite S_now. exact T_done.
  - intros h ws' Hh. rewrite S_waiters in Hh. destruct (decide (h = x)) as [->|Hne].
    + rewrite list_lookup_insert_eq in Hh by exact Hlw. inversion Hh. subst ws'.
      split; [constructor|]. intros t. split; [intros Ht; inversion Ht|].
      intros (tk & _ & Hin). apply T_pd in Hin. tauto.
    + rewrite list_lookup_insert_ne in Hh by congruence.
      destruct (inv_waiters _ _ _ HI h ws' Hh) as [Hnd Hm]. split; [exact Hnd|].
      intros t. rewrite Hm, S_tasks.
      split; intros (tk & Ht & Hin); exists tk; split; auto; apply T_pd in Hin || apply T_pd; tauto.
  - intros t tk Ht. rewrite S_tasks in Ht. destruct (decide (t ∈ ws)) as [Hin|Hnin].
    + rewrite (proj2 (S_in t Hin)). destruct (T_in t tk Ht Hin) as [Hb _]. rewrite Hb.
      pose proof (T_fires t tk Ht Hin) as Hf. destruct (fires st t).
      * split; [discriminate|]. intros H. exfalso. apply H. apply Hf. reflexivity.
      * split; [|reflexivity]. intros _ Hnil. apply Hf in Hnil. discriminate.
    + rewrite (proj2 (S_other t Hnin)), (T_notin t tk Ht Hnin). apply (inv_blocked _ _ _ HI t tk Ht).
  - intros t tk Ht Hb. rewrite S_tasks in Ht. destruct (decide (t ∈ ws)) as [Hin|Hnin].
    + rewrite (proj2 (S_in t Hin)) in Hb. destruct (fires st t); [discriminate|].
      rewrite (proj1 (S_in t Hin)), (proj2 (T_in t tk Ht Hin)). simpl. f_equal. lia.
    + rewrite (proj2 (S_other t Hnin)) in Hb. rewrite (proj1 (S_other t Hnin)), (T_notin t tk Ht Hnin).
      apply (inv_unres _ _ _ HI t tk Ht Hb).
  - intros t tk r Ht Hr. rewrite S_tasks in Ht. destruct (decide (t ∈ ws)) as [Hin|Hnin].
    + rewrite (proj2 (S_in t Hin)) in Hr. pose proof (T_fires t tk Ht Hin) as Hf.
      destruct (fires st t); [|rewrite (proj1 (T_in t tk Ht Hin)) in Hr; discriminate].
      inversion Hr. subst r. apply Nat.le_antisymm.
      * assert (Hx : x ∈ fut_handles (t_args tk)).
        { apply Hwsm in Hin as (tk' & Ht' & Hx). rewrite Ht in Ht'. inversion Ht'. subst.
          apply pending_deps_futs in Hx. exact Hx. }
        unfold ready_time. etransitivity; [|apply (fold_max_ge _ _ _ x Hx)].
        rewrite S_store, list_lookup_insert_eq by exact Hxs. lia.
      * unfold ready_time. apply fold_max_le; [|apply (inv_sub _ _ _ HI t tk Ht)].
        intros h _. destruct (store s !! h) as [e'|] eqn:He'; [apply (T_done h e' He')|simpl; lia].
    + rewrite (proj2 (S_other t Hnin)) in Hr. rewrite (inv_ready_time _ _ _ HI t tk r Ht Hr).
      apply ready_time_lookup. intros h Hh.
      assert (Hnil : pending_deps st (t_args tk) = []).
      { destruct (pending_deps st (t_args tk)) eqn:Hp; [reflexivity|].
        exfalso. assert (Hb : ready_at st !! t = Some None).
        { apply (inv_blocked _ _ _ HI t tk Ht). rewrite Hp. discriminate. }
        congruence. }
      pose proof (proj1 (pending_deps_nil st (t_args tk)) Hnil h Hh) as Hth.
      rewrite S_store, list_lookup_insert_ne; [reflexivity|]. intros ->. congruence.
  - intros t Hb. apply T_rb in Hb. pose proof (Hxrdy t Hb) as Hne.
    destruct (inv_blocked_pending _ _ _ HI t Hb) as [Hp Hne']. rewrite S_store.
    rewrite list_lookup_insert_ne by congruence. split; [exact Hp|]. rewrite T_exec. exact Hne'.
  - rewrite S_queue. apply NoDup_app. split; [apply (inv_queue_nodup _ _ _ HI)|]. split.
    + intros t Hq Hf. apply elem_of_filter_bool in Hf as [_ Hin].
      destruct (T_ws_task t Hin) as [tk Ht]. destruct (T_in t tk Ht Hin) as [Hb _].
      apply (inv_queue _ _ _ HI) in Hq as ([r Hr] & _). congruence.
    + apply NoDup_filter_bool. exact Hwsnd.
  - intros t. rewrite S_queue, elem_of_app, elem_of_filter_bool, T_run, S_store.
    destruct (decide (t = x)) as [->|Hne].
    + rewrite list_lookup_insert_eq by exact Hxs. split.
      * intros [Hq|[_ Hin]]; [|contradiction].
        apply (inv_queue _ _ _ HI) in Hq. tauto.
      * intros (_ & Hp & _). inversion Hp. subst e. discriminate.
    + rewrite list_lookup_insert_ne by congruence. destruct (decide (t ∈ ws)) as [Hin|Hnin].
      * rewrite (proj2 (S_in t Hin)). destruct (T_ws_task t Hin) as [tk Ht].
        destruct (T_in t tk Ht Hin) as [Hb _].
        destruct (inv_blocked_pending _ _ _ HI t Hb) as [Hp Hnex].
        assert (Hnq : t ∉ readyq st).
        { intros Hq. apply (inv_queue _ _ _ HI) in Hq as ([r Hr] & _). congruence. }
        assert (Hnr : ~ running st t) by (intros Hr; apply Hnex; eapply running_executed; eauto).
        destruct (fires st t); split.
        -- intros _. split; [eauto|]. split; [exact Hp|]. split; [exact Hnr|discriminate].
        -- intros _. right. auto.
        -- intros [Hq|[Hf _]]; [contradiction|discriminate].
        -- intros ([r Hr] & _). rewrite Hb in Hr. discriminate.
      * rewrite (proj2 (S_other t Hnin)). rewrite (inv_queue _ _ _ HI t).
        split.
        -- intros [(H1 & H2 & H3 & _)|[_ Hin]]; [|contradiction]. repeat split; auto; discriminate.
        -- intros (H1 & H2 & H3 & _). left. repeat split; auto; congruence.
  - intros i r Hr. rewrite S_slots in Hr. destruct (inv_slots _ _ _ HI i r Hr) as [Hp Hl].
    rewrite S_log, S_store. split; [|exact Hl].
    rewrite list_lookup_insert_ne; [exact Hp|]. intros Heq. apply Hnrun. exists i, r. auto.
  - rewrite S_slots. apply (inv_slots_uniq _ _ _ HI).
  - intros i r Hl. rewrite S_log in Hl. destruct (inv_log _ _ _ HI i r Hl) as (tk & vs & H1 & H2 & H3 & H4).
    exists tk, vs. rewrite S_tasks, T_resolve; [|rewrite H2; discriminate]. auto.
  - rewrite S_log. apply (inv_log_uniq _ _ _ HI).
  - intros t Hex. rewrite T_exec in Hex. rewrite T_run, T_term.
    destruct (decide (t = x)) as [->|Hne]; [auto|].
    destruct (inv_executed _ _ _ HI t Hex) as [H|[H|H]]; auto. congruence.
  - intros t e' He' Ht'. rewrite S_store in He'. destruct (decide (t = x)) as [->|Hne].
    + rewrite list_lookup_insert_eq in He' by exact Hxs. inversion He'. subst e'.
      destruct Hent as [(i & r & H1 & H2 & H3)|(Hnex & err & a & H1 & H2)].
      * left. exists i, r. rewrite S_log. auto.
      * right. split; [rewrite T_exec; exact Hnex|]. exists tkx, err, a.
        rewrite S_tasks, T_resolve; [|rewrite H1; discriminate]. auto.
    + rewrite list_lookup_insert_ne in He' by congruence.
      destruct (inv_entries _ _ _ HI t e' He' Ht') as [(i & r & H1 & H2 & H3)|(Hnex & tk & err & a & H1 & H2 & H3)].
      * left. exists i, r. rewrite S_log. auto.
      * right. split; [rewrite T_exec; exact Hnex|]. exists tk, err, a.
        rewrite S_tasks, T_resolve; [|rewrite H2; discriminate]. auto.
Qed.


Lemma in_log_executed st t : in_log st t = true <-> executed st t.
Proof.
  unfold in_log, executed. rewrite existsb_exists. split.
  - intros ([i r] & Hin & Heq). apply Nat.eqb_eq in Heq. exists i, r.
    split; [apply list_elem_of_In; exact Hin|exact Heq].
  - intros (i & r & Hin & Heq). exists (i, r). split; [apply list_elem_of_In; exact Hin|].
    apply Nat.eqb_eq. exact Heq.
Qed.

Lemma write_entry_fields h e st :
  entry_terminal st h = false ->
  store (snd (write_entry h e st)) = <[h:=e]> (store st) /\
  log (snd (write_entry h e st)) = log st /\ slots (snd (write_entry h e st)) = slots st /\
  tasks (snd (write_entry h e st)) = tasks st /\ now (snd (write_entry h e st)) = now st.
Proof.
  intros Ht. unfold write_entry. rewrite Ht. simpl. unfold notify. cbv zeta.
  destruct (fold_release_fields (default [] (waiters (set_store (<[h:=e]> (store st)) st) !! h))
    (set_store (<[h:=e]> (store st)) st)) as (F1 & F2 & F3 & F4 & F5 & F6 & _).
  simpl. repeat split; assumption.
Qed.

Lemma log_write_entry h e st : log (snd (write_entry h e st)) = log st.
Proof.
  unfold write_entry. destruct (entry_terminal st h); [reflexivity|].
  simpl. unfold notify. cbv zeta. simpl.
  exact (proj1 (proj2 (proj2 (proj2 (proj2 (proj2 (fold_release_fields _ _))))))).
Qed.

Lemma nfresh_lt st s t :
  tasks s = tasks st -> length (store s) = length (store st) -> stable st s -> log_incl st s ->
  t < length (tasks st) -> fresh st t = true -> fresh s t = false -> nfresh s < nfresh st.
Proof.
  intros Htk Hlen Hst Hlog Ht Hf Hf'. unfold nfresh. rewrite Htk.
  apply (filter_length_lt _ _ _ t); [|apply list_elem_of_In, in_seq; lia|exact Hf|exact Hf'].
  intros y _ Hy. unfold fresh, is_pending in *. apply andb_true_iff in Hy as [Hp Hn].
  apply andb_true_iff. split.
  - destruct (store st !! y) as [e|] eqn:He.
    + destruct e; [reflexivity| |];
        rewrite (Hst y _ He eq_refl) in Hp; discriminate.
    + apply lookup_ge_None in He. rewrite <- Hlen in He. apply lookup_ge_None in He.
      rewrite He in Hp. discriminate.
  - apply negb_true_iff. apply negb_true_iff in Hn. destruct (in_log st y) eqn:Hl; [|reflexivity].
    apply in_log_executed in Hl as (i & r & Hin & Heq). apply Hlog in Hin.
    assert (in_log s y = true) by (apply in_log_executed; exists i, r; auto). congruence.
Qed.

Lemma npending_lt st s t :
  tasks s = tasks st -> length (store s) = length (store st) -> stable st s ->
  t < length (tasks st) -> is_pending st t = true -> is_pending s t = false -> npending s < npending st.
Proof.
  intros Htk Hlen Hst Ht Hf Hf'. unfold npending. rewrite Htk.
  apply (filter_length_lt _ _ _ t); [|apply list_elem_of_In, in_seq; lia|exact Hf|exact Hf'].
  intros y _ Hp. unfold is_pending in *.
  destruct (store st !! y) as [e|] eqn:He.
  - destruct e; [reflexivity| |]; rewrite (Hst y _ He eq_refl) in Hp; discriminate.
  - apply lookup_ge_None in He. rewrite <- Hlen in He. apply lookup_ge_None in He.
    rewrite He in Hp. discriminate.
Qed.

Lemma npending_le st s :
  tasks s = tasks st -> length (store s) = length (store st) -> stable st s -> npending s <= npending st.
Proof.
  intros Htk Hlen Hst. unfold npending. rewrite Htk. apply filter_length_le.
  intros y _ Hp. unfold is_pending in *.
  destruct (store st !! y) as [e|] eqn:He.
  - destruct e; [reflexivity| |]; rewrite (Hst y _ He eq_refl) in Hp; discriminate.
  - apply lookup_ge_None in He. rewrite <- Hlen in He. apply lookup_ge_None in He.
    rewrite He in Hp. discriminate.
Qed.

(** Popping the front of the Ready Queue puts its task in transit. *)
Lemma inv_pop st t q :
  Inv exec st -> readyq st = t :: q ->
  InvX exec (Some t) (set_readyq q st) /\
  exists tk, tasks st !! t = Some tk /\ store st !! t = Some EPending /\
    (exists r, ready_at st !! t = Some (Some r)) /\ ~ running st t /\ ~ executed st t /\
    pending_deps st (t_args tk) = [].
Proof.
  intros HI Hq.
  assert (Hqt : t ∈ readyq st) by (rewrite Hq; left).
  pose proof Hqt as Hqt'. apply (inv_queue _ _ _ HI) in Hqt' as ([r Hr] & Hp & Hnr & _).
  assert (Hnex : ~ executed st t).
  { intros Hex. destruct (inv_executed _ _ _ HI t Hex) as [H|[H|H]]; [auto| |discriminate].
    unfold entry_terminal in H. rewrite Hp in H. discriminate. }
  assert (Hlt : t < length (tasks st)).
  { rewrite <- (inv_len_ready _ _ _ HI). apply lookup_lt_Some in Hr. exact Hr. }
  destruct (lookup_lt_is_Some_2 _ _ Hlt) as [tk Htk].
  assert (Hnd : NoDup (t :: q)) by (rewrite <- Hq; apply (inv_queue_nodup _ _ _ HI)).
  apply NoDup_cons in Hnd as [Htq Hnd].
  split.
  - destruct (store_view st (set_readyq q st) eq_refl) as (HPD & HRS & HRT & _).
    destruct HI. constructor;
      try setoid_rewrite HPD; try setoid_rewrite HRS; try setoid_rewrite HRT;
      try (match goal with H : _ |- _ => exact H end).
    + intros u. simpl. split.
      * intros Hu. assert (Hu' : u ∈ readyq st) by (rewrite Hq; right; exact Hu).
        apply inv_queue0 in Hu' as (H1 & H2 & H3 & _). repeat split; auto.
        intros Heq. inversion Heq. subst. contradiction.
      * intros (H1 & H2 & H3 & H4). assert (Hu : u ∈ readyq st) by (apply inv_queue0; auto).
        rewrite Hq in Hu. apply elem_of_cons in Hu as [->|Hu]; [congruence|exact Hu].
    + intros u Hu. destruct (inv_executed0 u Hu) as [H|[H|H]];
        [left; exact H|right; left; exact H|discriminate].
  - exists tk. repeat split; eauto.
    destruct (pending_deps st (t_args tk)) eqn:Hpd; [reflexivity|].
    exfalso. assert (Hb : ready_at st !! t = Some None).
    { apply (inv_blocked _ _ _ HI t tk Htk). rewrite Hpd. discriminate. }
    congruence.
Qed.

(** A task in transit whose arguments resolve starts running in an idle slot. *)
Lemma inv_run st t tk i vs :
  InvX exec (Some t) st -> tasks st !! t = Some tk -> store st !! t = Some EPending ->
  (exists r0, ready_at st !! t = Some (Some r0)) ->
  ~ running st t -> ~ executed st t -> slots st !! i = Some None ->
  resolve st (t_args tk) = Resolved vs ->
  let r := mkRun t (now st) (now st + snd (exec (t_fn tk) vs)) (fst (exec (t_fn tk) vs)) in
  Inv exec (set_log (log st ++ [(i, r)]) (set_slots (<[i := Some r]> (slots st)) st)).
Proof.
  intros HI Htk Hp Hrdy Hnr Hnex Hi Hres r.
  remember (set_log (log st ++ [(i, r)]) (set_slots (<[i := Some r]> (slots st)) st)) as s eqn:Hs.
  destruct (store_view st s) as (HPD & HRS & HRT & HET); [subst s; reflexivity|].
  assert (Hil : i < length (slots st)) by (apply lookup_lt_Some in Hi; exact Hi).
  assert (R_slot : forall j, slots s !! j = if decide (j = i) then Some (Some r) else slots st !! j).
  { intros j. subst s. simpl. destruct (decide (j = i)) as [->|Hne].
    - apply list_lookup_insert_eq. exact Hil.
    - apply list_lookup_insert_ne. congruence. }
  assert (R_log : forall p, p ∈ log s <-> p ∈ log st \/ p = (i, r)).
  { intros p. subst s. simpl. rewrite elem_of_app, list_elem_of_singleton. tauto. }
  assert (R_run : forall u, running s u <-> running st u \/ u = t).
  { intros u. unfold running. split.
    - intros (j & r' & Hj & Hu). rewrite R_slot in Hj. destruct (decide (j = i)).
      + inversion Hj. subst. right. reflexivity.
      + left. eauto.
    - intros [(j & r' & Hj & Hu)| ->].
      + exists j, r'. rewrite R_slot. destruct (decide (j = i)) as [->|]; [congruence|auto].
      + exists i, r. rewrite R_slot. destruct (decide (i = i)); [auto|congruence]. }
  assert (R_exec : forall u, executed s u <-> executed st u \/ u = t).
  { intros u. unfold executed. split.
    - intros (j & r' & Hj & Hu). apply R_log in Hj as [Hj|Hj].
      + left. eauto.
      + inversion Hj. subst. right. reflexivity.
    - intros [(j & r' & Hj & Hu)| ->].
      + exists j, r'. rewrite R_log. auto.
      + exists i, r. rewrite R_log. auto. }
  assert (S_tasks : tasks s = tasks st) by (subst s; reflexivity).
  assert (S_store : store s = store st) by (subst s; reflexivity).
  assert (S_rdy : ready_at s = ready_at st) by (subst s; reflexivity).
  assert (S_q : readyq s = readyq st) by (subst s; reflexivity).
  destruct HI. constructor; try (rewrite ?S_tasks, ?S_store, ?S_rdy, ?S_q);
    try setoid_rewrite HPD; try setoid_rewrite HRS; try setoid_rewrite HRT;
    try (match goal with H : _ |- _ => exact H end);
    try (subst s; match goal with H : _ |- _ => exact H end).
  - intros u Hb. destruct (inv_blocked_pending0 u Hb) as [H1 H2]. split; [exact H1|].
    rewrite R_exec. intros [H| ->]; [contradiction|]. destruct Hrdy. congruence.
  - intros u. rewrite inv_queue0, R_run. split.
    + intros (H1 & H2 & H3 & H4). split; [exact H1|]. split; [exact H2|]. split; [|discriminate].
      intros [H| ->]; [contradiction|]. apply H4; reflexivity.
    + intros (H1 & H2 & H3 & H4). split; [exact H1|]. split; [exact H2|].
      split; [intros H; apply H3; left; exact H|].
      intros Heq; inversion Heq; subst. apply H3; right; reflexivity.
  - intros j r' Hj. rewrite R_slot in Hj. rewrite R_log. destruct (decide (j = i)) as [->|Hne].
    + inversion Hj. subst r'. split; [exact Hp|auto].
    + destruct (inv_slots0 j r' Hj). auto.
  - intros j k r1 r2 Hj Hk Heq. rewrite R_slot in Hj, Hk.
    destruct (decide (j = i)) as [->|Hj']; destruct (decide (k = i)) as [->|Hk']; auto.
    + inversion Hj. subst r1. exfalso. apply Hnr. exists k, r2. auto.
    + inversion Hk. subst r2. exfalso. apply Hnr. exists j, r1. auto.
    + eauto.
  - intros j r' Hj. apply R_log in Hj as [Hj|Hj]; [exact (inv_log0 j r' Hj)|].
    injection Hj as -> ->. exists tk, vs. unfold r. simpl. auto.
  - subst s. simpl. rewrite map_app. apply NoDup_app. split; [exact inv_log_uniq0|]. split.
    + intros u Hu Hu'. simpl in Hu'. apply list_elem_of_singleton in Hu'. subst u.
      apply list_elem_of_fmap in Hu as ([j r'] & Heq & Hin). apply Hnex. exists j, r'. auto.
    + apply NoDup_singleton.
  - intros u Hu. rewrite R_run, HET. apply R_exec in Hu as [Hu| ->]; [|auto].
    destruct (inv_executed0 u Hu) as [H|[H|H]]; [auto|auto|].
    inversion H. subst. auto.
  - intros u e He Ht.
    destruct (inv_entries0 u e He Ht) as [(j & r' & H1 & H2 & H3)|(H1 & tk' & err & a & H2 & H3 & H4)].
    + left. exists j, r'. rewrite R_log. auto.
    + right. split; [|exists tk', err, a; rewrite ?S_tasks, ?HRS; auto].
      rewrite R_exec. intros [H| ->]; [contradiction|]. rewrite Hp in He. inversion He. subst. discriminate.
Qed.

(** ** The Value Store log only grows *)

Lemma log_incl_refl st : log_incl st st.
Proof. intros p Hp. exact Hp. Qed.

Lemma log_incl_trans st1 st2 st3 : log_incl st1 st2 -> log_incl st2 st3 -> log_incl st1 st3.
Proof. intros H1 H2 p Hp. auto. Qed.

Lemma log_incl_eq st st' : log st' = log st -> log_incl st st'.
Proof. intros H p Hp. rewrite H. exact Hp. Qed.

Lemma log_dispatch i t st : log_incl st (dispatch exec i t st).
Proof.
  unfold dispatch. destruct (tasks st !! t) as [tk|]; [|apply log_incl_refl].
  destruct (resolve st (t_args tk)).
  - intros p Hp. simpl. apply elem_of_app. left. exact Hp.
  - apply log_incl_eq. apply log_write_entry.
  - apply log_incl_refl.
Qed.

Lemma log_assign_loop fuel st : log_incl st (assign_loop exec fuel st).
Proof.
  revert st. induction fuel as [|f IH]; intros st; simpl; [apply log_incl_refl|].
  destruct (find_slot is_idle (slots st)) as [i|]; [|apply log_incl_refl].
  destruct (readyq st) as [|t q]; [apply log_incl_refl|].
  eapply log_incl_trans; [|apply IH]. apply (log_dispatch i t (set_readyq q st)).
Qed.

Lemma log_assign st : log_incl st (assign exec st).
Proof. apply log_assign_loop. Qed.

Lemma log_write_result r st : log (write_result r st) = log st.
Proof. unfold write_result, put, put_error. destruct (r_out r); apply log_write_entry. Qed.

Lemma log_complete i st : log_incl st (complete exec i st).
Proof.
  unfold complete. destruct (slots st !! i) as [[r|]|]; try apply log_incl_refl.
  eapply log_incl_trans; [|apply log_assign].
  apply log_incl_eq. simpl. apply log_write_result.
Qed.

Lemma log_settle_loop fuel st : log_incl st (settle_loop exec fuel st).
Proof.
  revert st. induction fuel as [|f IH]; intros st; simpl; [apply log_incl_refl|].
  destruct (find_slot _ _); [|apply log_incl_refl].
  eapply log_incl_trans; [apply log_complete|apply IH].
Qed.

Lemma log_settle st : log_incl st (settle exec st).
Proof. apply log_settle_loop. Qed.

Lemma log_advance st m : log_incl st (advance exec st m).
Proof.
  induction m as [|m IH]; simpl; [apply log_settle|].
  eapply log_incl_trans; [exact IH|]. eapply log_incl_trans; [|apply log_settle].
  intros p Hp. exact Hp.
Qed.

Lemma log_submit f args st : log_incl st (snd (submit exec f args st)).
Proof. unfold submit. simpl. eapply log_incl_trans; [|apply log_assign]. intros p Hp. exact Hp. Qed.

Lemma log_step st st' : step exec st st' -> log_incl st st'.
Proof.
  intros []; [apply log_submit|apply log_settle|intros p Hp; exact Hp].
Qed.

Lemma log_steps st st' : rtc (step exec) st st' -> log_incl st st'.
Proof.
  induction 1 as [|s1 s2 s3 H _ IH]; [apply log_incl_refl|].
  eapply log_incl_trans; [apply log_step; exact H|exact IH].
Qed.

(** One round of the assignment loop keeps the invariant and uses up a
    fresh task. *)
Lemma inv_dispatch st t q i :
  Inv exec st -> readyq st = t :: q -> slots st !! i = Some None ->
  Inv exec (dispatch exec i t (set_readyq q st)) /\
  nfresh (dispatch exec i t (set_readyq q st)) < nfresh st.
Proof.
  intros HI Hq Hi.
  destruct (inv_pop st t q HI Hq) as [HX (tk & Htk & Hp & Hrdy & Hnr & Hnex & Hpd)].
  destruct (store_view st (set_readyq q st) eq_refl) as (_ & HRS & _ & _).
  assert (Hlt : t < length (tasks st)) by (apply lookup_lt_Some in Htk; exact Htk).
  assert (Hfr : fresh st t = true).
  { unfold fresh, is_pending. rewrite Hp. simpl. apply negb_true_iff.
    destruct (in_log st t) eqn:Hl; [|reflexivity]. apply in_log_executed in Hl. contradiction. }
  pose proof (frame_dispatch exec i t (set_readyq q st)) as (Fn & Ft & Fs & Fst).
  pose proof (log_dispatch i t (set_readyq q st)) as Flog.
  assert (Hres : resolve st (t_args tk) <> Unresolved).
  { apply resolve_terminal. apply pending_deps_nil. exact Hpd. }
  unfold dispatch in *. simpl tasks in *. rewrite Htk in *. rewrite HRS in *.
  destruct (resolve st (t_args tk)) as [vs|err|] eqn:Hr; [| |contradiction].
  - split.
    + apply (inv_run (set_readyq q st) t tk i vs); auto. rewrite HRS. exact Hr.
    + eapply nfresh_lt; eauto.
      unfold fresh. apply andb_false_iff. right. apply negb_false_iff.
      apply in_log_executed. exists i. eexists. split; [simpl; apply elem_of_app; right; left|reflexivity].
  - assert (Hnt : entry_terminal (set_readyq q st) t = false) by (unfold entry_terminal; simpl; rewrite Hp; reflexivity).
    split.
    + unfold put_error. apply (inv_write t _ tk); auto.
      right. split; [exact Hnex|]. exists err, (now st). split; [rewrite HRS; exact Hr|reflexivity].
    + destruct (write_entry_fields t (EFailed (DependencyFailedError t err) (now (set_readyq q st)))
        (set_readyq q st) Hnt) as (W1 & _).
      eapply nfresh_lt; eauto.
      * unfold put_error. rewrite W1, length_insert. reflexivity.
      * unfold fresh, is_pending. unfold put_error. rewrite W1. simpl.
        rewrite list_lookup_insert_eq; [reflexivity|].
        apply lookup_lt_Some in Hp. exact Hp.
Qed.

Lemma find_slot_some (p : option (@Run V Cause) -> bool) l i : find_slot p l = Some i -> exists x, l !! i = Some x /\ p x = true.
Proof.
  revert i. induction l as [|y l IH]; intros i H; simpl in H; [discriminate|].
  destruct (p y) eqn:Hp.
  - inversion H. subst. exists y. auto.
  - destruct (find_slot p l) as [j|] eqn:Hj; [|discriminate]. inversion H. subst.
    destruct (IH j eq_refl) as (x & Hx & Hpx). exists x. auto.
Qed.

Lemma find_slot_none (p : option (@Run V Cause) -> bool) l i x : find_slot p l = None -> l !! i = Some x -> p x = false.
Proof.
  revert i. induction l as [|y l IH]; intros i H Hi; [discriminate|]. simpl in H.
  destruct (p y) eqn:Hp; [discriminate|].
  destruct (find_slot p l) eqn:Hf; [discriminate|].
  destruct i as [|i]; simpl in Hi; [inversion Hi; subst; exact Hp|]. eapply IH; eauto.
Qed.

Lemma length_filter_seq (p : nat -> bool) n : length (List.filter p (seq 0 n)) <= n.
Proof.
  rewrite <- (length_seq n 0) at 2. generalize (seq 0 n). clear.
  induction l as [|y l IH]; simpl; [lia|]. destruct (p y); simpl; lia.
Qed.

Lemma inv_assign_loop fuel st :
  Inv exec st -> nfresh st < fuel ->
  Inv exec (assign_loop exec fuel st) /\ Quiet (assign_loop exec fuel st).
Proof.
  revert st. induction fuel as [|f IH]; intros st HI Hf; [lia|]. simpl.
  destruct (find_slot is_idle (slots st)) as [i|] eqn:Hi.
  - destruct (readyq st) as [|t q] eqn:Hq; [split; [exact HI|left; exact Hq]|].
    destruct (find_slot_some _ _ _ Hi) as (x & Hx & Hidle).
    destruct x; [discriminate|].
    destruct (inv_dispatch st t q i HI Hq Hx) as [HI' Hlt].
    apply IH; [exact HI'|lia].
  - split; [exact HI|right; exact Hi].
Qed.

Lemma inv_assign st : Inv exec st -> Inv exec (assign exec st) /\ Quiet (assign exec st).
Proof.
  intros HI. apply inv_assign_loop; [exact HI|].
  pose proof (length_filter_seq (fresh st) (length (tasks st))). unfold nfresh. lia.
Qed.

(** Freeing the slot of a running task puts that task in transit. *)
Lemma inv_free st i r :
  Inv exec st -> slots st !! i = Some (Some r) ->
  InvX exec (Some (r_tid r)) (set_slots (<[i := None]> (slots st)) st) /\
  exists tk, tasks st !! r_tid r = Some tk /\ store st !! r_tid r = Some EPending /\
    (exists a, ready_at st !! r_tid r = Some (Some a)) /\
    ~ running (set_slots (<[i := None]> (slots st)) st) (r_tid r) /\ (i, r) ∈ log st.
Proof.
  intros HI Hi. set (x := r_tid r).
  destruct (inv_slots _ _ _ HI i r Hi) as [Hp Hlog].
  destruct (inv_log _ _ _ HI i r Hlog) as (tk & vs & Htk & _).
  assert (Hexx : executed st x) by (exists i, r; auto).
  assert (Hlt : x < length (ready_at st)).
  { rewrite (inv_len_ready _ _ _ HI). apply lookup_lt_Some in Htk. exact Htk. }
  destruct (lookup_lt_is_Some_2 _ _ Hlt) as [o Ho].
  assert (Hrdy : exists a, ready_at st !! x = Some (Some a)).
  { destruct o as [a|]; [eauto|]. destruct (inv_blocked_pending _ _ _ HI x Ho). contradiction. }
  assert (Hil : i < length (slots st)) by (apply lookup_lt_Some in Hi; exact Hi).
  assert (R_run : forall u, running (set_slots (<[i := None]> (slots st)) st) u <-> running st u /\ u <> x).
  { intros u. unfold running. simpl. split.
    - intros (j & r' & Hj & Hu). destruct (decide (j = i)) as [->|Hne].
      + rewrite list_lookup_insert_eq in Hj by exact Hil. discriminate.
      + rewrite list_lookup_insert_ne in Hj by congruence. split; [eauto|].
        intros ->. apply Hne. apply (inv_slots_uniq _ _ _ HI j i r' r Hj Hi). exact Hu.
    - intros ((j & r' & Hj & Hu) & Hne). exists j, r'. split; [|exact Hu].
      rewrite list_lookup_insert_ne; [exact Hj|]. intros ->. rewrite Hi in Hj. inversion Hj.
      subst. contradiction. }
  destruct (store_view st (set_slots (<[i := None]> (slots st)) st) eq_refl) as (HPD & HRS & HRT & HET).
  split.
  - destruct HI. constructor;
      try setoid_rewrite HPD; try setoid_rewrite HRS; try setoid_rewrite HRT;
      try (match goal with H : _ |- _ => exact H end).
    + intros u. rewrite R_run. simpl. rewrite inv_queue0. split.
      * intros (H1 & H2 & H3 & _). split; [exact H1|]. split; [exact H2|]. split.
        -- intros [H _]. contradiction.
        -- intros Heq. inversion Heq. subst u. apply H3. exists i, r. auto.
      * intros (H1 & H2 & H3 & H4). split; [exact H1|]. split; [exact H2|]. split; [|discriminate].
        intros H. apply H3. split; [exact H|]. intros ->. apply H4. reflexivity.
    + intros j r' Hj. simpl in Hj. destruct (decide (j = i)) as [->|Hne].
      * rewrite list_lookup_insert_eq in Hj by exact Hil. discriminate.
      * rewrite list_lookup_insert_ne in Hj by congruence. exact (inv_slots0 j r' Hj).
    + intros j k r1 r2 Hj Hk. simpl in Hj, Hk.
      destruct (decide (j = i)) as [->|Hj']; [rewrite list_lookup_insert_eq in Hj by exact Hil; discriminate|].
      destruct (decide (k = i)) as [->|Hk']; [rewrite list_lookup_insert_eq in Hk by exact Hil; discriminate|].
      rewrite list_lookup_insert_ne in Hj, Hk by congruence. eauto.
    + intros u Hu. rewrite R_run, HET. destruct (decide (u = x)) as [->|Hne]; [auto|].
      destruct (inv_executed0 u Hu) as [H|[H|H]]; [left; auto|auto|discriminate].
  - exists tk. split; [exact Htk|]. split; [exact Hp|]. split; [exact Hrdy|]. split; [|exact Hlog].
    rewrite R_run. intros [_ H]. apply H. reflexivity.
Qed.

Lemma write_result_set_slots r st X :
  write_result r (set_slots X st) = set_slots X (write_result r st).
Proof.
  unfold write_result, put, put_error. destruct (r_out r); rewrite write_entry_set_slots; reflexivity.
Qed.

Lemma write_result_fields r st :
  entry_terminal st (r_tid r) = false ->
  slots (write_result r st) = slots st /\ tasks (write_result r st) = tasks st /\
  exists e, store (write_result r st) = <[r_tid r := e]> (store st) /\ terminal e = true.
Proof.
  intros Ht. unfold write_result, put, put_error. destruct (r_out r).
  - destruct (write_entry_fields (r_tid r) (EReady v (now st)) st Ht) as (W1 & _ & W3 & W4 & _).
    repeat split; auto. eexists. split; [exact W1|reflexivity].
  - destruct (write_entry_fields (r_tid r) (EFailed (ExecutionError (r_tid r) c) (now st)) st Ht)
      as (W1 & _ & W3 & W4 & _).
    repeat split; auto. eexists. split; [exact W1|reflexivity].
Qed.

(** A completion keeps the invariant and settles one PENDING entry. *)
Lemma inv_complete st i r :
  Inv exec st -> slots st !! i = Some (Some r) ->
  Inv exec (complete exec i st) /\ Quiet (complete exec i st) /\ npending (complete exec i st) < npending st.
Proof.
  intros HI Hi.
  destruct (inv_free st i r HI Hi) as [HX (tk & Htk & Hp & Hrdy & Hnr & Hlog)].
  set (x := r_tid r) in *.
  assert (Hnt : entry_terminal st x = false) by (unfold entry_terminal; rewrite Hp; reflexivity).
  destruct (write_result_fields r st Hnt) as (W1 & _ & _).
  unfold complete. rewrite Hi. rewrite W1, <- write_result_set_slots.
  set (free := set_slots (<[i := None]> (slots st)) st) in *.
  assert (Hntf : entry_terminal free x = false) by exact Hnt.
  destruct (write_result_fields r free Hntf) as (_ & Wt & e & Ws & He).
  assert (HW : Inv exec (write_result r free)).
  { unfold write_result, put, put_error. fold x.
    destruct (r_out r) as [v|c] eqn:Hout.
    - apply (inv_write x _ tk); auto. left. exists i, r. split; [exact Hlog|]. split; [reflexivity|].
      rewrite Hout. reflexivity.
    - apply (inv_write x _ tk); auto. left. exists i, r. split; [exact Hlog|]. split; [reflexivity|].
      rewrite Hout. reflexivity. }
  destruct (inv_assign _ HW) as [HA HQ].
  split; [exact HA|]. split; [exact HQ|].
  pose proof (frame_assign exec (write_result r free)) as (_ & Ft & _ & Fst).
  assert (Hlt : x < length (tasks st)) by (apply lookup_lt_Some in Htk; exact Htk).
  assert (Hxs : x < length (store st)) by (rewrite (inv_len_store _ _ _ HI); exact Hlt).
  apply (npending_lt _ _ x); [| | |exact Hlt| |].
  - rewrite Ft, Wt. reflexivity.
  - rewrite (inv_len_store _ _ _ HA), (inv_len_store _ _ _ HI), Ft, Wt. reflexivity.
  - intros h e' He' Ht'. apply Fst; [|exact Ht']. rewrite Ws. simpl.
    destruct (decide (h = x)) as [->|Hne].
    + rewrite Hp in He'. inversion He'. subst. discriminate.
    + rewrite list_lookup_insert_ne; [exact He'|]. intros Heq. apply Hne. symmetry. exact Heq.
  - unfold is_pending. rewrite Hp. reflexivity.
  - unfold is_pending. rewrite (Fst x e); [destruct e; [discriminate|reflexivity|reflexivity]| |exact He].
    rewrite Ws. simpl. apply list_lookup_insert_eq. exact Hxs.
Qed.

Lemma inv_settle_loop fuel st :
  Inv exec st -> Quiet st -> npending st < fuel ->
  Inv exec (settle_loop exec fuel st) /\ Quiet (settle_loop exec fuel st) /\
  settled (settle_loop exec fuel st).
Proof.
  revert st. induction fuel as [|f IH]; intros st HI HQ Hf; [lia|]. simpl.
  destruct (find_slot (is_due (now st)) (slots st)) as [i|] eqn:Hi.
  - destruct (find_slot_some _ _ _ Hi) as (o & Ho & Hdue).
    destruct o as [r|]; [|discriminate].
    destruct (inv_complete st i r HI Ho) as (HI' & HQ' & Hlt).
    apply IH; auto. lia.
  - split; [exact HI|]. split; [exact HQ|exact Hi].
Qed.

Lemma inv_settle st :
  Inv exec st -> Quiet st -> Inv exec (settle exec st) /\ Quiet (settle exec st) /\ settled (settle exec st).
Proof.
  intros HI HQ. apply inv_settle_loop; auto.
  pose proof (length_filter_seq (is_pending st) (length (tasks st))). unfold npending. lia.
Qed.

Lemma inv_tick st : Inv exec st -> Inv exec (tick st).
Proof.
  intros HI. destruct (store_view st (tick st) eq_refl) as (HPD & HRS & HRT & HET).
  destruct HI. constructor;
    try setoid_rewrite HPD; try setoid_rewrite HRS; try setoid_rewrite HRT;
    try (match goal with H : _ |- _ => exact H end).
  all: intros ? ? H; unfold tick, set_now; cbn [now];
    first [pose proof (inv_sub0 _ _ H) | pose proof (inv_done0 _ _ H)]; lia.
Qed.

Lemma snoc_lookup_ne {A} (l : list A) x u : u <> length l -> (l ++ [x]) !! u = l !! u.
Proof.
  intros Hne. destruct (decide (u < length l)) as [Hlt|Hge].
  - apply lookup_app_l. exact Hlt.
  - rewrite lookup_app_r by lia. rewrite (proj2 (lookup_ge_None l u)) by lia.
    destruct (u - length l) as [|k] eqn:Hk; [lia|reflexivity].
Qed.

Lemma snoc_lookup_eq {A} (l : list A) x : (l ++ [x]) !! length l = Some x.
Proof. apply list_lookup_middle. reflexivity. Qed.

Lemma fold_add_waiter t deps w h :
  NoDup deps ->
  fold_left (add_waiter t) deps w !! h =
  if decide (h ∈ deps) then (fun ws => ws ++ [t]) <$> w !! h else w !! h.
Proof.
  revert w. induction deps as [|d deps IH]; intros w Hnd; simpl.
  - destruct (decide (h ∈ [])) as [Hin|]; [inversion Hin|reflexivity].
  - apply NoDup_cons in Hnd as [Hd Hnd]. rewrite IH by exact Hnd.
    assert (Hadd : forall u, add_waiter t w d !! u =
      if decide (u = d) then (fun ws => ws ++ [t]) <$> w !! u else w !! u).
    { intros u. unfold add_waiter. destruct (w !! d) as [ws|] eqn:Hw.
      - destruct (decide (u = d)) as [->|Hne].
        + rewrite list_lookup_insert_eq; [rewrite Hw; reflexivity|]. apply lookup_lt_Some in Hw. exact Hw.
        + apply list_lookup_insert_ne. congruence.
      - destruct (decide (u = d)) as [->|]; [rewrite Hw; reflexivity|reflexivity]. }
    rewrite !Hadd.
    destruct (decide (h ∈ d :: deps)) as [Hin|Hnin]; destruct (decide (h ∈ deps)) as [Hin'|Hnin'];
      destruct (decide (h = d)) as [->|Hne]; try reflexivity.
    all: try contradiction.
    all: try (exfalso; apply Hnin; first [apply list_elem_of_here | apply list_elem_of_further; assumption]).
    all: try (apply elem_of_cons in Hin as [?|?]; [congruence|contradiction]).
Qed.

Lemma length_fold_add_waiter t deps w : length (fold_left (add_waiter t) deps w) = length w.
Proof.
  revert w. induction deps as [|d deps IH]; intros w; simpl; [reflexivity|].
  rewrite IH. unfold add_waiter. destruct (w !! d); [apply length_insert|reflexivity].
Qed.

Lemma Forall_elem {A} (P : A -> Prop) l x : Forall P l -> x ∈ l -> P x.
Proof. intros HF Hx. rewrite List.Forall_forall in HF. apply HF. apply list_elem_of_In. exact Hx. Qed.

(** The record a submission builds, before its assignment loop, satisfies
    the invariant. *)
Lemma inv_submit_record f args st :
  Inv exec st -> Forall (fun h => h < length (tasks st)) (fut_handles args) ->
  let n := length (tasks st) in
  let deps := pending_deps st args in
  let blocked := match deps with [] => false | _ => true end in
  Inv exec (mkSched (now st)
                     (tasks st ++ [mkTask f args (now st)])
                     (store st ++ [EPending])
                     (unresolved st ++ [length deps])
                     (ready_at st ++ [if blocked then None else Some (now st)])
                     (fold_left (add_waiter n) deps (waiters st ++ [[]]))
                     (if blocked then readyq st else readyq st ++ [n])
                     (slots st) (log st)).
Proof.
  intros HI HF n deps blocked.
  assert (Hn : n = length (tasks st)) by reflexivity.
  assert (Hd : deps = pending_deps st args) by reflexivity.
  assert (Hb : blocked = match deps with [] => false | _ => true end) by reflexivity.
  clearbody n deps blocked.
  set (tkn := mkTask f args (now st)).
  match goal with |- Inv exec ?s => remember s as s1 eqn:Hs1 end.
  assert (Ls : length (store st) = n) by (rewrite Hn; apply (inv_len_store _ _ _ HI)).
  assert (Lu : length (unresolved st) = n) by (rewrite Hn; apply (inv_len_unres _ _ _ HI)).
  assert (Lr : length (ready_at st) = n) by (rewrite Hn; apply (inv_len_ready _ _ _ HI)).
  assert (Lw : length (waiters st) = n) by (rewrite Hn; apply (inv_len_wait _ _ _ HI)).
  assert (F_now : now s1 = now st) by (subst s1; reflexivity).
  assert (F_slots : slots s1 = slots st) by (subst s1; reflexivity).
  assert (F_log : log s1 = log st) by (subst s1; reflexivity).
  assert (F_q : readyq s1 = if blocked then readyq st else readyq st ++ [n]) by (subst s1; reflexivity).
  assert (LT : length (tasks s1) = S n) by (subst s1; simpl; rewrite length_app; simpl; lia).
  assert (LS : length (store s1) = S n) by (subst s1; simpl; rewrite length_app; simpl; lia).
  assert (LU : length (unresolved s1) = S n) by (subst s1; simpl; rewrite length_app; simpl; lia).
  assert (LR : length (ready_at s1) = S n) by (subst s1; simpl; rewrite length_app; simpl; lia).
  assert (LW : length (waiters s1) = S n)
    by (subst s1; simpl; rewrite length_fold_add_waiter, length_app; simpl; lia).
  assert (T_ne : forall u, u <> n -> tasks s1 !! u = tasks st !! u)
    by (intros u Hu; subst s1; apply snoc_lookup_ne; lia).
  assert (T_eq : tasks s1 !! n = Some tkn) by (subst s1 n; apply snoc_lookup_eq).
  assert (T_n : tasks st !! n = None) by (apply lookup_ge_None; lia).
  assert (S_ne : forall u, u <> n -> store s1 !! u = store st !! u)
    by (intros u Hu; subst s1; apply snoc_lookup_ne; lia).
  assert (S_eq : store s1 !! n = Some EPending) by (subst s1; simpl; rewrite <- Ls; apply snoc_lookup_eq).
  assert (S_n : store st !! n = None) by (apply lookup_ge_None; lia).
  assert (U_ne : forall u, u <> n -> unresolved s1 !! u = unresolved st !! u)
    by (intros u Hu; subst s1; apply snoc_lookup_ne; lia).
  assert (U_eq : unresolved s1 !! n = Some (length deps)) by (subst s1; simpl; rewrite <- Lu; apply snoc_lookup_eq).
  assert (R_ne : forall u, u <> n -> ready_at s1 !! u = ready_at st !! u)
    by (intros u Hu; subst s1; apply snoc_lookup_ne; lia).
  assert (R_eq : ready_at s1 !! n = Some (if blocked then None else Some (now st)))
    by (subst s1; simpl; rewrite <- Lr; apply snoc_lookup_eq).
  assert (W_eq : forall h, waiters s1 !! h =
    if decide (h ∈ deps) then (fun ws => ws ++ [n]) <$> (waiters st ++ [[]]) !! h
    else (waiters st ++ [[]]) !! h).
  { intros h. subst s1. apply fold_add_waiter. rewrite Hd. apply NoDup_pending_deps. }
  clear Hs1.
  assert (ET : forall h, entry_terminal s1 h = entry_terminal st h).
  { intros h. unfold entry_terminal. destruct (decide (h = n)) as [->|Hne].
    - rewrite S_eq, S_n. reflexivity.
    - rewrite S_ne by exact Hne. reflexivity. }
  assert (PD : forall a, pending_deps s1 a = pending_deps st a).
  { intros a. apply pending_deps_ext. intros h _. apply ET. }
  assert (Hfut : forall u tk h, tasks s1 !! u = Some tk -> h ∈ fut_handles (t_args tk) -> h < n).
  { intros u tk h Hu Hh. destruct (decide (u = n)) as [->|Hne].
    - rewrite T_eq in Hu. inversion Hu. subst tk. pose proof (Forall_elem _ _ _ HF Hh). simpl in *. lia.
    - rewrite T_ne in Hu by exact Hne. pose proof (inv_args _ _ _ HI u tk h Hu Hh).
      pose proof (lookup_lt_Some _ _ _ Hu). lia. }
  assert (RS : forall u tk, tasks s1 !! u = Some tk -> resolve s1 (t_args tk) = resolve st (t_args tk)).
  { intros u tk Hu. apply resolve_lookup. intros h Hh. apply S_ne.
    pose proof (Hfut u tk h Hu Hh). lia. }
  assert (RT : forall u tk, tasks s1 !! u = Some tk -> ready_time s1 tk = ready_time st tk).
  { intros u tk Hu. apply ready_time_lookup. intros h Hh. apply S_ne.
    pose proof (Hfut u tk h Hu Hh). lia. }
  assert (RUN : forall u, running s1 u <-> running st u) by (intros u; unfold running; rewrite F_slots; tauto).
  assert (EXE : forall u, executed s1 u <-> executed st u) by (intros u; unfold executed; rewrite F_log; tauto).
  assert (Hnex : ~ executed st n).
  { intros (i & r & Hl & Ht). destruct (inv_log _ _ _ HI i r Hl) as (tk & _ & Htk & _).
    rewrite Ht, T_n in Htk. discriminate. }
  assert (Hdeps : forall h, h ∈ deps -> h < n).
  { intros h Hh. rewrite Hd in Hh. apply pending_deps_futs in Hh. rewrite Hn. exact (Forall_elem _ _ _ HF Hh). }
  assert (Tlt : forall u tk, tasks st !! u = Some tk -> u <> n).
  { intros u tk Hu ->. congruence. }
  assert (Q_lt : forall u, u ∈ readyq st -> u < n).
  { intros u Hu. apply (inv_queue _ _ _ HI) in Hu as ([r Hr] & _). apply lookup_lt_Some in Hr. lia. }
  assert (Q : forall u, u <> n -> u ∈ readyq s1 <-> u ∈ readyq st).
  { intros u Hne. rewrite F_q. destruct blocked; [tauto|].
    rewrite elem_of_app, list_elem_of_singleton. intuition. }
  assert (Rn : ~ running st n).
  { intros Hr. apply Hnex. exact (running_executed _ _ _ HI Hr). }
  destruct HI; constructor.
  - lia.
  - lia.
  - lia.
  - lia.
  - intros u tk h Hu Hh. destruct (decide (u = n)) as [->|Hne].
    + exact (Hfut n tk h Hu Hh).
    + rewrite T_ne in Hu by exact Hne. eauto.
  - intros u tk Hu. rewrite F_now. destruct (decide (u = n)) as [->|Hne].
    + rewrite T_eq in Hu. inversion Hu. simpl. lia.
    + rewrite T_ne in Hu by exact Hne. eauto.
  - intros h e He. rewrite F_now. destruct (decide (h = n)) as [->|Hne].
    + rewrite S_eq in He. inversion He. simpl. lia.
    + rewrite S_ne in He by exact Hne. eauto.
  - intros h ws' Hh. rewrite W_eq in Hh.
    destruct (decide (h ∈ deps)) as [Hin|Hnin].
    + pose proof (Hdeps h Hin) as Hlt. rewrite lookup_app_l in Hh by lia.
      destruct (waiters st !! h) as [ws|] eqn:Hws; [|discriminate].
      simpl in Hh. inversion Hh; subst ws'.
      destruct (inv_waiters0 h ws Hws) as [Hnd Hm]. split.
      * apply NoDup_app. split; [exact Hnd|]. split; [|apply NoDup_singleton].
        intros x Hx Hx'. apply list_elem_of_singleton in Hx'. subst x.
        apply Hm in Hx as (tk & Hx & _). exact (Tlt n tk Hx eq_refl).
      * intros u. rewrite elem_of_app, list_elem_of_singleton, Hm. split.
        -- intros [(tk & Hu & Hp)| ->].
           ++ exists tk. rewrite T_ne by exact (Tlt u tk Hu). rewrite PD. auto.
           ++ exists tkn. rewrite T_eq, PD. simpl. rewrite <- Hd. auto.
        -- intros (tk & Hu & Hp). destruct (decide (u = n)) as [->|Hne]; [right; reflexivity|].
           left. rewrite T_ne in Hu by exact Hne. rewrite PD in Hp. eauto.
    + destruct (decide (h = n)) as [->|Hne].
      * rewrite <- Lw, snoc_lookup_eq in Hh. inversion Hh; subst ws'.
        split; [constructor|]. intros u. split; [intros Hu; inversion Hu|].
        intros (tk & Hu & Hp). rewrite PD in Hp. apply pending_deps_futs in Hp.
        pose proof (Hfut u tk n Hu Hp). lia.
      * rewrite snoc_lookup_ne in Hh by lia.
        destruct (inv_waiters0 h ws' Hh) as [Hnd Hm]. split; [exact Hnd|].
        intros u. rewrite Hm. split.
        -- intros (tk & Hu & Hp). exists tk. rewrite T_ne by exact (Tlt u tk Hu). rewrite PD. auto.
        -- intros (tk & Hu & Hp). destruct (decide (u = n)) as [->|Hne'].
           ++ rewrite T_eq in Hu. inversion Hu. subst tk. rewrite PD in Hp. simpl in Hp.
              rewrite <- Hd in Hp. contradiction.
           ++ rewrite T_ne in Hu by exact Hne'. rewrite PD in Hp. eauto.
  - intros u tk Hu. rewrite PD. destruct (decide (u = n)) as [->|Hne].
    + rewrite T_eq in Hu. inversion Hu. subst tk. rewrite R_eq. simpl. rewrite <- Hd, Hb.
      destruct deps as [|d ds]; split; intros H; try discriminate; try reflexivity.
      all: exfalso; apply H; reflexivity.
    + rewrite T_ne in Hu by exact Hne. rewrite R_ne by exact Hne. eauto.
  - intros u tk Hu Hbl. rewrite PD. destruct (decide (u = n)) as [->|Hne].
    + rewrite T_eq in Hu. inversion Hu. subst tk. rewrite U_eq. simpl. rewrite <- Hd. reflexivity.
    + rewrite T_ne in Hu by exact Hne. rewrite R_ne in Hbl by exact Hne. rewrite U_ne by exact Hne. eauto.
  - intros u tk r Hu Hr. rewrite (RT u tk Hu). destruct (decide (u = n)) as [->|Hne].
    + rewrite T_eq in Hu. inversion Hu. subst tk. rewrite R_eq, Hb in Hr.
      destruct deps; [|discriminate]. inversion Hr. subst r. unfold ready_time. simpl.
      apply Nat.le_antisymm; [apply fold_max_init|]. apply fold_max_le; [|lia].
      intros h _. destruct (store st !! h) as [e|] eqn:He; [|simpl; lia]. eauto.
    + rewrite T_ne in Hu by exact Hne. rewrite R_ne in Hr by exact Hne. eauto.
  - intros u Hbl. rewrite EXE. destruct (decide (u = n)) as [->|Hne].
    + rewrite S_eq. auto.
    + rewrite R_ne in Hbl by exact Hne. rewrite S_ne by exact Hne. eauto.
  - rewrite F_q. destruct blocked; [exact inv_queue_nodup0|].
    apply NoDup_app. split; [exact inv_queue_nodup0|]. split; [|apply NoDup_singleton].
    intros x Hx Hx'. apply list_elem_of_singleton in Hx'. subst x. apply Q_lt in Hx. lia.
  - intros u. rewrite RUN. destruct (decide (u = n)) as [->|Hne].
    + rewrite R_eq, S_eq, F_q, Hb. destruct deps as [|d ds].
      * rewrite elem_of_app, list_elem_of_singleton. split; [|intros; right; reflexivity].
        intros _. split; [eauto|]. split; [reflexivity|]. split; [exact Rn|discriminate].
      * split; [intros Hx; apply Q_lt in Hx; lia|]. intros ([r Hr] & _). discriminate.
    + rewrite Q by exact Hne. rewrite R_ne, S_ne by exact Hne. apply inv_queue0.
  - intros i r Hi. rewrite F_slots in Hi. rewrite F_log.
    destruct (inv_slots0 i r Hi) as [Hp Hl]. split; [|exact Hl].
    rewrite S_ne; [exact Hp|]. intros Heq. rewrite Heq, S_n in Hp. discriminate.
  - rewrite F_slots. exact inv_slots_uniq0.
  - intros i r Hl. rewrite F_log in Hl. destruct (inv_log0 i r Hl) as (tk & vs & Htk & Hres & Ho & Hf).
    exists tk, vs. assert (Htk' : tasks s1 !! r_tid r = Some tk) by (rewrite T_ne; [exact Htk|exact (Tlt _ _ Htk)]).
    rewrite (RS _ _ Htk'). auto.
  - rewrite F_log. exact inv_log_uniq0.
  - intros u Hu. rewrite EXE in Hu. rewrite RUN, ET.
    destruct (inv_executed0 u Hu) as [H|[H|H]]; [left; exact H|right; left; exact H|discriminate].
  - intros u e He Ht. destruct (decide (u = n)) as [->|Hne].
    + rewrite S_eq in He. inversion He. subst e. discriminate.
    + rewrite S_ne in He by exact Hne. rewrite F_log.
      destruct (inv_entries0 u e He Ht) as [H|(Hx & tk & err & a & Htk & Hres & He')]; [left; exact H|].
      right. rewrite EXE. split; [exact Hx|]. exists tk, err, a.
      assert (Htk' : tasks s1 !! u = Some tk) by (rewrite T_ne by exact Hne; exact Htk).
      rewrite (RS _ _ Htk'). auto.
Qed.

Lemma inv_submit f args st :
  Inv exec st -> Forall (fun h => h < length (tasks st)) (fut_handles args) ->
  Inv exec (snd (submit exec f args st)) /\ Quiet (snd (submit exec f args st)).
Proof.
  intros HI HF. unfold submit. cbn [snd]. apply inv_assign.
  exact (inv_submit_record f args st HI HF).
Qed.

Lemma lookup_repeat_none {A} W i (x : option A) : repeat None W !! i = Some x -> x = None.
Proof.
  revert i. induction W as [|W IH]; intros [|i] H; simpl in H; try discriminate; [congruence|eauto].
Qed.

Lemma inv_init W : Inv exec (@init V Cause W) /\ Quiet (@init V Cause W).
Proof.
  split; [|left; reflexivity].
  constructor; simpl; try reflexivity.
  all: try (intros; match goal with H : [] !! _ = Some _ |- _ => discriminate H end).
  - apply NoDup_nil_2.
  - intros t. split; [intros Ht; inversion Ht|]. intros ([r Hr] & _). discriminate.
  - intros i r Hi. apply lookup_repeat_none in Hi. discriminate.
  - intros i j r r' Hi. apply lookup_repeat_none in Hi. discriminate.
  - intros i r Hl. inversion Hl.
  - constructor.
  - intros t (i & r & Hl & _). inversion Hl.
Qed.

Lemma quiet_tick st : Quiet st -> Quiet (tick st).
Proof. intros HQ. exact HQ. Qed.

Lemma inv_step st st' : step exec st st' -> Inv exec st -> Quiet st -> Inv exec st' /\ Quiet st'.
Proof.
  intros Hs HI HQ. destruct Hs as [f args HF| |].
  - apply inv_submit; assumption.
  - destruct (inv_settle st HI HQ) as (? & ? & _). split; assumption.
  - split; [apply inv_tick; exact HI|apply quiet_tick; exact HQ].
Qed.

Lemma inv_steps st st' : rtc (step exec) st st' -> Inv exec st -> Quiet st -> Inv exec st' /\ Quiet st'.
Proof.
  induction 1 as [s|s1 s2 s3 Hs _ IH]; intros HI HQ; [split; assumption|].
  destruct (inv_step s1 s2 Hs HI HQ) as [HI2 HQ2]. apply IH; assumption.
Qed.

Lemma inv_reachable st : reachable exec st -> Inv exec st /\ Quiet st.
Proof.
  intros [W Hr]. destruct (inv_init W) as [HI HQ]. exact (inv_steps _ _ Hr HI HQ).
Qed.

Lemma settle_settled st : settled st -> settle exec st = st.
Proof. intros Hs. unfold settle. simpl. unfold settled in Hs. rewrite Hs. reflexivity. Qed.

Lemma inv_advance st m :
  Inv exec st -> Quiet st ->
  Inv exec (advance exec st m) /\ Quiet (advance exec st m) /\ settled (advance exec st m).
Proof.
  intros HI HQ. induction m as [|m IH]; simpl.
  - apply inv_settle; assumption.
  - destruct IH as (HI' & HQ' & _). apply inv_settle; [apply inv_tick; exact HI'|apply quiet_tick; exact HQ'].
Qed.

Lemma advance_advance st m1 m2 :
  Inv exec st -> Quiet st -> advance exec (advance exec st m1) m2 = advance exec st (m1 + m2).
Proof.
  intros HI HQ. destruct (inv_advance st m1 HI HQ) as (_ & _ & Hs).
  induction m2 as [|m2 IH]; simpl.
  - rewrite Nat.add_0_r. apply settle_settled. exact Hs.
  - rewrite IH, Nat.add_succ_r. reflexivity.
Qed.

Lemma advance_steps st m : rtc (step exec) st (advance exec st m).
Proof.
  induction m as [|m IH]; simpl.
  - apply rtc_once. apply step_settle.
  - eapply rtc_r; [eapply rtc_r; [exact IH|apply step_tick]|apply step_settle].
Qed.
End Preservation.

(** * Progress: with at least one worker slot every task terminates *)
Section Liveness.
Context {V Cause : Type} (exec : nat -> list V -> @Outcome V Cause * nat).

Local Abbreviation Sched := (@Sched V Cause).
Implicit Types st : Sched.

(** With an empty Ready Queue and every slot idle, nothing is PENDING:
    the PENDING task with the least id would be blocked on a smaller one. *)
Lemma no_pending_when_idle st :
  Inv exec st -> readyq st = [] -> (forall i r, slots st !! i <> Some (Some r)) ->
  forall t, store st !! t <> Some EPending.
Proof.
  intros HI Hq Hidle t. induction t as [t IH] using lt_wf_ind. intros Ht.
  assert (Hlt : t < length (tasks st))
    by (rewrite <- (inv_len_store _ _ _ HI); apply lookup_lt_Some in Ht; exact Ht).
  destruct (lookup_lt_is_Some_2 _ _ Hlt) as [tk Htk].
  assert (Hlr : t < length (ready_at st)) by (rewrite (inv_len_ready _ _ _ HI); exact Hlt).
  destruct (lookup_lt_is_Some_2 _ _ Hlr) as [[a|] Ha].
  - assert (Hin : t ∈ readyq st).
    { apply (inv_queue _ _ _ HI). split; [eauto|]. split; [exact Ht|]. split; [|discriminate].
      intros (i & r & Hi & _). exact (Hidle i r Hi). }
    rewrite Hq in Hin. inversion Hin.
  - apply (inv_blocked _ _ _ HI t tk Htk) in Ha.
    destruct (pending_deps st (t_args tk)) as [|h hs] eqn:Hp; [contradiction|].
    assert (Hh : h ∈ pending_deps st (t_args tk)) by (rewrite Hp; left).
    apply elem_of_pending_deps in Hh as [Hf Hnt].
    pose proof (inv_args _ _ _ HI t tk h Htk Hf) as Hht.
    apply (IH h Hht). unfold entry_terminal in Hnt.
    assert (Hhl : h < length (store st)) by (rewrite (inv_len_store _ _ _ HI); lia).
    destruct (lookup_lt_is_Some_2 _ _ Hhl) as [e He]. rewrite He in Hnt.
    destruct e; [exact He|discriminate|discriminate].
Qed.

Lemma pending_busy st t :
  Inv exec st -> Quiet st -> 0 < length (slots st) -> store st !! t = Some EPending ->
  exists i r, slots st !! i = Some (Some r).
Proof.
  intros HI HQ Hl Ht.
  destruct (find_slot (fun x => negb (is_idle x)) (slots st)) as [i|] eqn:Hb.
  - destruct (find_slot_some _ _ _ Hb) as ([r|] & Hi & Hp); [eauto|discriminate].
  - exfalso.
    assert (Hidle : forall i r, slots st !! i <> Some (Some r)).
    { intros i r Hi. pose proof (find_slot_none _ _ _ _ Hb Hi). discriminate. }
    assert (Hq : readyq st = []).
    { destruct HQ as [Hq|Hn]; [exact Hq|]. exfalso.
      destruct (slots st) as [|x l] eqn:Hs; [simpl in Hl; lia|].
      destruct x as [r|]; [apply (Hidle 0 r); reflexivity|discriminate]. }
    exact (no_pending_when_idle st HI Hq Hidle t Ht).
Qed.

Lemma log_same_tid st i r j q :
  Inv exec st -> (i, r) ∈ log st -> (j, q) ∈ log st -> r_tid r = r_tid q -> (i, r) = (j, q).
Proof.
  intros HI Hr Hq Ht. apply (NoDup_map_inj_on (fun p => r_tid (snd p)) (log st));
    [exact (inv_log_uniq _ _ _ HI)|exact Hr|exact Hq|exact Ht].
Qed.

(** The terminal entry of a task that was run is the one its outcome gives. *)
Lemma logged_entry st i r e :
  Inv exec st -> (i, r) ∈ log st -> store st !! r_tid r = Some e -> terminal e = true ->
  entry_of (r_tid r) (r_out r) e.
Proof.
  intros HI Hl He Ht. destruct (inv_entries _ _ _ HI _ e He Ht) as [(j & q & Hq & Htq & Hof)|(Hx & _)].
  - assert (Heq : (i, r) = (j, q)) by (apply (log_same_tid st); auto).
    inversion Heq; subst. exact Hof.
  - exfalso. apply Hx. exists i, r. auto.
Qed.

(** A running task is terminal once the time reaches its finish. *)
Lemma running_finishes st i r :
  Inv exec st -> Quiet st -> slots st !! i = Some (Some r) ->
  entry_terminal (advance exec st (r_fin r - now st)) (r_tid r) = true.
Proof.
  intros HI HQ Hi. set (s := advance exec st (r_fin r - now st)).
  destruct (inv_advance exec st (r_fin r - now st) HI HQ) as (HIs & _ & Hset). fold s in HIs, Hset.
  assert (Hnow : r_fin r <= now s) by (unfold s; rewrite advance_now; lia).
  destruct (inv_slots _ _ _ HI i r Hi) as [_ Hlog].
  assert (Hlog' : (i, r) ∈ log s) by (apply (log_advance exec); exact Hlog).
  destruct (entry_terminal s (r_tid r)) eqn:Ht; [reflexivity|exfalso].
  destruct (inv_executed _ _ _ HIs (r_tid r)) as [(j & q & Hj & Hq)|[H|H]];
    [exists i, r; auto| |congruence|discriminate].
  destruct (inv_slots _ _ _ HIs j q Hj) as [_ Hlq].
  assert (Heq : (i, r) = (j, q)) by (apply (log_same_tid s); auto).
  inversion Heq; subst.
  pose proof (find_slot_none _ _ _ _ Hset Hj) as Hd. simpl in Hd.
  apply Nat.leb_gt in Hd. lia.
Qed.

Lemma npending_pos st : 0 < npending st -> exists t, store st !! t = Some EPending.
Proof.
  unfold npending. intros Hp.
  destruct (List.filter (is_pending st) (seq 0 (length (tasks st)))) as [|t l] eqn:Hf;
    [simpl in Hp; lia|].
  assert (Ht : t ∈ List.filter (is_pending st) (seq 0 (length (tasks st)))) by (rewrite Hf; left).
  apply elem_of_filter_bool in Ht as [Ht _]. exists t. unfold is_pending in Ht.
  destruct (store st !! t) as [[| |]|]; try discriminate. reflexivity.
Qed.

Lemma npending_zero st :
  Inv exec st -> npending st = 0 -> forall t, t < length (tasks st) -> entry_terminal st t = true.
Proof.
  intros HI Hz t Ht. unfold npending in Hz. apply length_zero_iff_nil in Hz.
  assert (Hlt : t < length (store st)) by (rewrite (inv_len_store _ _ _ HI); exact Ht).
  destruct (lookup_lt_is_Some_2 _ _ Hlt) as [e He].
  unfold entry_terminal. rewrite He.
  destruct e; [|reflexivity|reflexivity]. exfalso.
  assert (Hin : t ∈ List.filter (is_pending st) (seq 0 (length (tasks st)))).
  { apply elem_of_filter_bool. split; [unfold is_pending; rewrite He; reflexivity|].
    apply list_elem_of_In, in_seq. lia. }
  rewrite Hz in Hin. inversion Hin.
Qed.

Lemma npending_advance st m :
  Inv exec st -> Quiet st -> npending (advance exec st m) <= npending st.
Proof.
  intros HI HQ. destruct (inv_advance exec st m HI HQ) as (HIs & _).
  apply npending_le.
  - apply advance_tasks.
  - rewrite (inv_len_store _ _ _ HIs), (inv_len_store _ _ _ HI). f_equal. apply advance_tasks.
  - apply advance_stable.
Qed.

Lemma eventually_done_n n st :
  Inv exec st -> Quiet st -> 0 < length (slots st) -> npending st <= n ->
  exists m, npending (advance exec st m) = 0.
Proof.
  revert st. induction n as [|n IH]; intros st HI HQ Hl Hn.
  - exists 0. pose proof (npending_advance st 0 HI HQ). lia.
  - destruct (Nat.eq_dec (npending st) 0) as [Hz|Hnz].
    + exists 0. pose proof (npending_advance st 0 HI HQ). lia.
    + destruct (npending_pos st) as [t Ht]; [lia|].
      destruct (pending_busy st t HI HQ Hl Ht) as (i & r & Hi).
      set (m1 := r_fin r - now st).
      pose proof (running_finishes st i r HI HQ Hi) as Hfin. fold m1 in Hfin.
      destruct (inv_advance exec st m1 HI HQ) as (HI1 & HQ1 & _).
      destruct (inv_slots _ _ _ HI i r Hi) as [Hp _].
      assert (Hlt : npending (advance exec st m1) < npending st).
      { apply (npending_lt st _ (r_tid r)).
        - apply advance_tasks.
        - rewrite (inv_len_store _ _ _ HI1), (inv_len_store _ _ _ HI). f_equal. apply advance_tasks.
        - apply advance_stable.
        - rewrite <- (inv_len_store _ _ _ HI). apply lookup_lt_Some in Hp. exact Hp.
        - unfold is_pending. rewrite Hp. reflexivity.
        - unfold is_pending. unfold entry_terminal in Hfin.
          destruct (store (advance exec st m1) !! r_tid r) as [[| |]|]; try discriminate; reflexivity. }
      destruct (IH (advance exec st m1) HI1 HQ1) as [m2 Hm2].
      * rewrite advance_slots_length. exact Hl.
      * lia.
      * exists (m1 + m2). rewrite <- (advance_advance exec st m1 m2 HI HQ). exact Hm2.
Qed.

(** Every task of a reachable state with a non-empty pool terminates. *)
Lemma eventually_all_terminal st :
  Inv exec st -> Quiet st -> 0 < length (slots st) ->
  exists m, forall t, t < length (tasks st) -> entry_terminal (advance exec st m) t = true.
Proof.
  intros HI HQ Hl. destruct (eventually_done_n (npending st) st HI HQ Hl (le_n _)) as [m Hm].
  exists m. intros t Ht. destruct (inv_advance exec st m HI HQ) as (HIs & _).
  apply (npending_zero _ HIs Hm). rewrite advance_tasks. exact Ht.
Qed.

(** A blocking Get returns at the first instant its handles are terminal. *)
Lemma get_blocking st hs horizon m :
  m <= horizon -> all_terminal (advance exec st m) hs = true ->
  exists m0, m0 <= m /\ all_terminal (advance exec st m0) hs = true /\
    get exec st hs None horizon = Some (collect (advance exec st m0) hs, advance exec st m0).
Proof.
  intros Hm Ha. unfold get.
  destruct (poll_returns exec horizon None (fun s => all_terminal s hs) st m Hm (or_introl Ha))
    as [[b s] Hp].
  rewrite Hp. destruct (poll_some exec _ _ _ _ _ _ Hp) as (m0 & _ & -> & Hb & Hc & Hbefore).
  destruct Hc as [Hc|Hc]; [|discriminate]. rewrite Hb, Hc.
  exists m0. split; [|split; [exact Hc|reflexivity]].
  destruct (Nat.le_gt_cases m0 m) as [H|H]; [exact H|].
  destruct (Hbefore m H) as [H' _]. congruence.
Qed.

Lemma all_terminal_forall st hs :
  all_terminal st hs = true <-> forall h, h ∈ hs -> entry_terminal st h = true.
Proof.
  unfold all_terminal. rewrite forallb_forall. split; intros H h Hh; apply H.
  - apply list_elem_of_In. exact Hh.
  - apply list_elem_of_In. exact Hh.
Qed.

Lemma step_tasks st st' u tk :
  step exec st st' -> tasks st !! u = Some tk -> tasks st' !! u = Some tk.
Proof.
  intros Hs Hu. destruct Hs as [f args _| |].
  - unfold submit. cbn [snd]. rewrite (proj1 (proj2 (frame_assign exec _))). simpl.
    rewrite lookup_app_l; [exact Hu|]. apply lookup_lt_Some in Hu. exact Hu.
  - rewrite (proj1 (proj2 (frame_settle exec st))). exact Hu.
  - exact Hu.
Qed.

Lemma steps_tasks st st' u tk :
  rtc (step exec) st st' -> tasks st !! u = Some tk -> tasks st' !! u = Some tk.
Proof. induction 1; eauto using step_tasks. Qed.

Lemma steps_slots st st' : rtc (step exec) st st' -> length (slots st') = length (slots st).
Proof.
  induction 1 as [|s1 s2 s3 Hs _ IH]; [reflexivity|]. rewrite IH.
  destruct Hs as [f args _| |].
  - unfold submit. cbn [snd]. etransitivity; [apply (proj1 (proj2 (proj2 (frame_assign exec _))))|reflexivity].
  - apply (proj1 (proj2 (proj2 (frame_settle exec _)))).
  - reflexivity.
Qed.

End Liveness.

(** * Readiness, failure propagation and remote evaluation *)
Section Readiness.
Context {V Cause : Type} (exec : nat -> list V -> @Outcome V Cause * nat).

Local Abbreviation Sched := (@Sched V Cause).
Implicit Types st : Sched.

Lemma fold_max_cases {A} (f : A -> nat) (init : nat) (l : list A) :
  fold_right (fun h m => Nat.max (f h) m) init l = init \/
  exists h, h ∈ l /\ fold_right (fun h m => Nat.max (f h) m) init l = f h.
Proof.
  induction l as [|h l IH]; simpl; [left; reflexivity|].
  destruct (Nat.max_spec (f h) (fold_right (fun h m => Nat.max (f h) m) init l)) as [[_ ->]|[_ ->]].
  - destruct IH as [IH|(h' & Hh' & IH)]; [left; exact IH|right; exists h'; split; [right; exact Hh'|exact IH]].
  - right. exists h. split; [left|reflexivity].
Qed.

Lemma ready_at_some st t tk :
  Inv exec st -> tasks st !! t = Some tk ->
  (exists r, ready_at st !! t = Some (Some r)) <-> pending_deps st (t_args tk) = [].
Proof.
  intros HI Htk. pose proof (inv_blocked _ _ _ HI t tk Htk) as Hb.
  assert (Hl : t < length (ready_at st))
    by (rewrite (inv_len_ready _ _ _ HI); apply lookup_lt_Some in Htk; exact Htk).
  destruct (lookup_lt_is_Some_2 _ _ Hl) as [[a|] Ha]; rewrite Ha in Hb |- *.
  - split; [|eauto]. intros _. destruct (pending_deps st (t_args tk)) as [|d ds]; [reflexivity|].
    exfalso. assert (Some (Some a) = Some None) by (apply Hb; discriminate). discriminate.
  - split; [intros [r Hr]; discriminate|]. intros Hp. exfalso. apply (proj1 Hb eq_refl). exact Hp.
Qed.

Lemma resolve_lits st (vs : list V) : resolve st (map Lit vs) = Resolved vs.
Proof. induction vs as [|v vs IH]; simpl; [reflexivity|]. rewrite IH. reflexivity. Qed.

Lemma fut_handles_lits (vs : list V) : fut_handles (map (@Lit V) vs) = [].
Proof. induction vs as [|v vs IH]; simpl; [reflexivity|exact IH]. Qed.

(** A task whose function raised is never READY. *)
Lemma raised_not_ready st i r c v a :
  Inv exec st -> (i, r) ∈ log st -> r_out r = Raised c -> store st !! r_tid r <> Some (EReady v a).
Proof.
  intros HI Hl Hc He. pose proof (logged_entry exec st i r _ HI Hl He eq_refl) as Hof.
  rewrite Hc in Hof. exact Hof.
Qed.

(** A task with an argument whose function raised is never run. *)
Lemma dependent_not_executed st i r c u tk :
  Inv exec st -> (i, r) ∈ log st -> r_out r = Raised c ->
  tasks st !! u = Some tk -> r_tid r ∈ fut_handles (t_args tk) -> ~ executed st u.
Proof.
  intros HI Hl Hc Hu Hx (j & q & Hq & Hqu).
  destruct (inv_log _ _ _ HI j q Hq) as (tk' & vs & Htk' & Hres & _).
  rewrite Hqu, Hu in Htk'. inversion Htk'; subst tk'.
  destruct (resolve_resolved_ready st _ vs Hres (r_tid r) Hx) as (v & a & He).
  exact (raised_not_ready st i r c v a HI Hl Hc He).
Qed.

Lemma collect_single st h e : store st !! h = Some e -> terminal e = true ->
  collect st [h] = match e with EReady v _ => GValues [v] | EFailed err _ => GFailed err | EPending => GTimeout end.
Proof. intros He Ht. simpl. rewrite He. destruct e; reflexivity. Qed.

(** Every task of a reachable state with a non-empty pool has, for a
    large enough horizon, a blocking Get that returns at an instant where
    its entry is terminal. *)
Lemma get_terminates st u :
  Inv exec st -> Quiet st -> 0 < length (slots st) -> u < length (tasks st) ->
  exists M, forall horizon, M <= horizon -> exists m0 e,
    get exec st [u] None horizon = Some (collect (advance exec st m0) [u], advance exec st m0) /\
    store (advance exec st m0) !! u = Some e /\ terminal e = true.
Proof.
  intros HI HQ Hl Hu. destruct (eventually_all_terminal exec st HI HQ Hl) as [m Hm].
  exists m. intros horizon Hh.
  destruct (get_blocking exec st [u] horizon m Hh) as (m0 & _ & Ha & Hg).
  - apply all_terminal_forall. intros h Hh'. apply list_elem_of_singleton in Hh'. subst h. auto.
  - exists m0. rewrite all_terminal_forall in Ha.
    specialize (Ha u (list_elem_of_here _ _)). unfold entry_terminal in Ha.
    destruct (store (advance exec st m0) !! u) as [e|]; [|discriminate].
    exists e. auto.
Qed.

End Readiness.

(** * The scheduling claims over reachable states *)
Section Claims.
Context {V Cause : Type} (exec : nat -> list V -> @Outcome V Cause * nat).

Local Abbreviation Sched := (@Sched V Cause).
Implicit Types st : Sched.

(** C2 (amended): in every reachable state, a task is Blocked exactly
    while one of its future arguments is not terminal; a task with no
    future argument was Ready from its submission on and is never
    Blocked; and a Ready task became Ready at [ready_time]: the completion
    of its last dependency, or its submission if that came later. *)
Theorem ready_when_deps_terminal st t tk :
  reachable exec st -> tasks st !! t = Some tk ->
  (fut_handles (t_args tk) = [] -> ready_at st !! t = Some (Some (t_sub tk))) /\
  (ready_at st !! t = Some None <->
     exists h, h ∈ fut_handles (t_args tk) /\ entry_terminal st h = false) /\
  (forall r, ready_at st !! t = Some (Some r) ->
     r = ready_time st tk /\
     (forall h, h ∈ fut_handles (t_args tk) -> entry_terminal st h = true /\ entry_done (store st !! h) <= r) /\
     (r = t_sub tk \/ exists h, h ∈ fut_handles (t_args tk) /\ r = entry_done (store st !! h))).
Proof.
  intros Hr Htk. destruct (inv_reachable exec st Hr) as [HI _].
  assert (Hrt : forall r, ready_at st !! t = Some (Some r) ->
     r = ready_time st tk /\
     (forall h, h ∈ fut_handles (t_args tk) -> entry_terminal st h = true /\ entry_done (store st !! h) <= r) /\
     (r = t_sub tk \/ exists h, h ∈ fut_handles (t_args tk) /\ r = entry_done (store st !! h))).
  { intros r Hra. pose proof (inv_ready_time _ _ _ HI t tk r Htk Hra) as ->.
    split; [reflexivity|]. split.
    - intros h Hh. split.
      + apply (proj1 (pending_deps_nil st (t_args tk))); [|exact Hh].
        apply (ready_at_some exec st t tk HI Htk). eauto.
      + unfold ready_time. apply (fold_max_ge (fun h => entry_done (store st !! h))). exact Hh.
    - unfold ready_time. apply fold_max_cases. }
  split; [|split].
  - intros Hnil. destruct (proj2 (ready_at_some exec st t tk HI Htk)) as [r Hra].
    + apply pending_deps_nil. intros x Hx. rewrite Hnil in Hx. inversion Hx.
    + rewrite Hra. destruct (Hrt r Hra) as (-> & _). unfold ready_time. rewrite Hnil. reflexivity.
  - rewrite (inv_blocked _ _ _ HI t tk Htk). split.
    + intros Hp. destruct (pending_deps st (t_args tk)) as [|h hs] eqn:Hpd; [contradiction|].
      exists h. apply elem_of_pending_deps. rewrite Hpd. left.
    + intros (h & Hh & Hnt) Hp. assert (Hin : h ∈ pending_deps st (t_args tk)) by
        (apply elem_of_pending_deps; auto). rewrite Hp in Hin. inversion Hin.
  - exact Hrt.
Qed.

(** C5 (amended): in every reachable state the Ready Queue holds a task
    exactly when its entry is PENDING, it is not occupying a worker slot,
    and every future argument is terminal (READY or FAILED). *)
Theorem ready_queue_membership st t tk :
  reachable exec st -> tasks st !! t = Some tk ->
  (t ∈ readyq st <->
     store st !! t = Some EPending /\ ~ running st t /\
     forall h, h ∈ fut_handles (t_args tk) -> entry_terminal st h = true).
Proof.
  intros Hr Htk. destruct (inv_reachable exec st Hr) as [HI _].
  rewrite (inv_queue _ _ _ HI t), (ready_at_some exec st t tk HI Htk), pending_deps_nil.
  split.
  - intros (Hd & Hp & Hn & _). auto.
  - intros (Hp & Hn & Hd). split; [exact Hd|]. split; [exact Hp|]. split; [exact Hn|discriminate].
Qed.

(** C3: once the function of task [x] has raised [c] in a slot, with at
    least one worker slot a blocking Get on [x] yields ExecutionError [x c]
    and the entry of [x] is FAILED with it; every task [u] with [x] among
    its future arguments is never run, in this state or any later one, and
    a blocking Get on [u] yields a DependencyFailedError of [u] wrapping the
    error of a FAILED dependency, the error of [x] when [x] is its only
    FAILED dependency. *)
Theorem raised_task_fails_and_propagates st i r c :
  reachable exec st -> 0 < length (slots st) -> (i, r) ∈ log st -> r_out r = Raised c ->
  (exists M, forall horizon, M <= horizon -> exists st' a,
     get exec st [r_tid r] None horizon = Some (GFailed (ExecutionError (r_tid r) c), st') /\
     store st' !! r_tid r = Some (EFailed (ExecutionError (r_tid r) c) a)) /\
  (forall u tk, tasks st !! u = Some tk -> r_tid r ∈ fut_handles (t_args tk) ->
     (forall st', rtc (step exec) st st' -> ~ executed st' u) /\
     exists M, forall horizon, M <= horizon -> exists st' err a,
       get exec st [u] None horizon = Some (GFailed (DependencyFailedError u err), st') /\
       store st' !! u = Some (EFailed (DependencyFailedError u err) a) /\
       (exists h a', h ∈ fut_handles (t_args tk) /\ store st' !! h = Some (EFailed err a')) /\
       ((forall h a' e', h ∈ fut_handles (t_args tk) -> store st' !! h = Some (EFailed e' a') -> h = r_tid r) ->
        err = ExecutionError (r_tid r) c)).
Proof.
  intros Hr Hl Hlog Hc. destruct (inv_reachable exec st Hr) as [HI HQ].
  destruct (inv_log _ _ _ HI i r Hlog) as (tkx & _ & Htkx & _).
  assert (Hx : r_tid r < length (tasks st)) by (apply lookup_lt_Some in Htkx; exact Htkx).
  (* the entry of the raising task, in any state after this one *)
  assert (Hfail : forall s e, Inv exec s -> log_incl st s -> store s !! r_tid r = Some e -> terminal e = true ->
            exists a, e = EFailed (ExecutionError (r_tid r) c) a).
  { intros s e HIs Hinc He Ht. pose proof (logged_entry exec s i r e HIs (Hinc _ Hlog) He Ht) as Hof.
    rewrite Hc in Hof. destruct e as [|v a|err a]; simpl in Hof; try contradiction. subst err. eauto. }
  split.
  - destruct (get_terminates exec st (r_tid r) HI HQ Hl Hx) as [M HM].
    exists M. intros horizon Hh. destruct (HM horizon Hh) as (m0 & e & Hg & He & Ht).
    destruct (inv_advance exec st m0 HI HQ) as (HIs & _).
    destruct (Hfail _ e HIs (log_advance exec st m0) He Ht) as [a ->].
    exists (advance exec st m0), a. split; [|exact He].
    rewrite Hg, (collect_single _ _ _ He Ht). reflexivity.
  - intros u tk Hu Hdep.
    assert (Hnever : forall st', rtc (step exec) st st' -> ~ executed st' u).
    { intros st' Hs. destruct (inv_steps exec st st' Hs HI HQ) as [HIs _].
      apply (dependent_not_executed exec st' i r c u tk HIs); [apply (log_steps exec st st' Hs); exact Hlog|exact Hc| |exact Hdep].
      exact (steps_tasks exec st st' u tk Hs Hu). }
    split; [exact Hnever|].
    assert (Hul : u < length (tasks st)) by (apply lookup_lt_Some in Hu; exact Hu).
    destruct (get_terminates exec st u HI HQ Hl Hul) as [M HM].
    exists M. intros horizon Hh. destruct (HM horizon Hh) as (m0 & e & Hg & He & Ht).
    set (s := advance exec st m0) in *.
    destruct (inv_advance exec st m0 HI HQ) as (HIs & _). fold s in HIs.
    destruct (inv_entries _ _ _ HIs u e He Ht) as [(j & q & Hq & Hqu & _)|(_ & tk' & err & a & Htk' & Hres & ->)].
    + exfalso. apply (Hnever s (advance_steps exec st m0)). exists j, q. auto.
    + assert (Htks : tasks s !! u = Some tk) by (unfold s; rewrite advance_tasks; exact Hu).
      rewrite Htks in Htk'. inversion Htk'; subst tk'.
      exists s, err, a. split; [rewrite Hg, (collect_single _ _ _ He Ht); reflexivity|].
      split; [exact He|]. split; [exact (resolve_depfailed s _ err Hres)|].
      intros Honly. destruct (resolve_depfailed s _ err Hres) as (h & a' & Hh' & Hfh).
      pose proof (Honly h a' err Hh' Hfh) as ->.
      destruct (Hfail s _ HIs (log_advance exec st m0) Hfh eq_refl) as [a'' Heq].
      inversion Heq. reflexivity.
Qed.

(** C9: with at least one worker slot, submitting a function on literal
    arguments and calling a blocking Get on the returned handle yields the
    function's own result on those arguments: its value, or the
    ExecutionError of the task with the exception it raised. *)
Theorem remote_call_matches_local st f (vs : list V) :
  reachable exec st -> 0 < length (slots st) ->
  exists M, forall horizon, M <= horizon -> exists st',
    get exec (snd (submit exec f (map Lit vs) st)) [fst (submit exec f (map Lit vs) st)] None horizon =
    Some (match fst (exec f vs) with
          | Returned v => GValues [v]
          | Raised c => GFailed (ExecutionError (fst (submit exec f (map Lit vs) st)) c)
          end, st').
Proof.
  intros Hr Hl.
  set (n := fst (submit exec f (map Lit vs) st)).
  set (st1 := snd (submit exec f (map Lit vs) st)).
  assert (Hn : n = length (tasks st)) by reflexivity.
  assert (Hr1 : reachable exec st1).
  { destruct Hr as [W HW]. exists W. eapply rtc_r; [exact HW|].
    apply step_submit. rewrite fut_handles_lits. constructor. }
  destruct (inv_reachable exec st1 Hr1) as [HI HQ].
  assert (Htk : tasks st1 !! n = Some (mkTask f (map Lit vs) (now st))).
  { unfold st1, submit. cbn [snd]. rewrite (proj1 (proj2 (frame_assign exec _))). simpl.
    rewrite Hn. apply snoc_lookup_eq. }
  assert (Hl1 : 0 < length (slots st1)).
  { unfold st1, submit. cbn [snd].
    rewrite (proj1 (proj2 (proj2 (frame_assign exec _)))). exact Hl. }
  assert (Hnl : n < length (tasks st1)) by (apply lookup_lt_Some in Htk; exact Htk).
  destruct (get_terminates exec st1 n HI HQ Hl1 Hnl) as [M HM].
  exists M. intros horizon Hh. destruct (HM horizon Hh) as (m0 & e & Hg & He & Ht).
  set (s := advance exec st1 m0) in *.
  destruct (inv_advance exec st1 m0 HI HQ) as (HIs & _). fold s in HIs.
  assert (Htks : tasks s !! n = Some (mkTask f (map Lit vs) (now st))) by (unfold s; rewrite advance_tasks; exact Htk).
  exists s. rewrite Hg, (collect_single _ _ _ He Ht).
  destruct (inv_entries _ _ _ HIs n e He Ht) as [(j & q & Hq & Hqn & Hof)|(_ & tk' & err & a & Htk' & Hres & _)].
  - destruct (inv_log _ _ _ HIs j q Hq) as (tk' & vs' & Htk' & Hres & Hout & _).
    rewrite Hqn, Htks in Htk'. inversion Htk'; subst tk'. simpl in Hres, Hout.
    rewrite resolve_lits in Hres. inversion Hres; subst vs'.
    rewrite Hout in Hof. destruct (fst (exec f vs)) as [v|c]; destruct e as [|v' a|err a];
      simpl in Hof; try contradiction.
    + subst v'. reflexivity.
    + rewrite Hof. reflexivity.
  - rewrite Htks in Htk'. inversion Htk'; subst tk'. simpl in Hres. rewrite resolve_lits in Hres. discriminate.
Qed.

End Claims.

(** * Building reachable states *)
Section Build.
Context {V Cause : Type} (exec : nat -> list V -> @Outcome V Cause * nat).

Local Abbreviation Sched := (@Sched V Cause).
Implicit Types st : Sched.

Lemma reachable_init W : reachable exec (@init V Cause W).
Proof. exists W. apply rtc_refl. Qed.

Lemma reachable_submit st f args :
  reachable exec st -> Forall (fun h => h < length (tasks st)) (fut_handles args) ->
  reachable exec (snd (submit exec f args st)).
Proof. intros [W HW] HF. exists W. eapply rtc_r; [exact HW|]. apply step_submit. exact HF. Qed.

Lemma reachable_advance st m : reachable exec st -> reachable exec (advance exec st m).
Proof. intros [W HW]. exists W. eapply rtc_trans; [exact HW|apply advance_steps]. Qed.

(** Without worker slots time passes and nothing else happens. *)
Lemma advance_no_slots st m :
  slots st = [] -> store (advance exec st m) = store st /\ slots (advance exec st m) = [].
Proof.
  intros Hs. induction m as [|m IH]; simpl.
  - unfold settle. simpl. rewrite Hs. simpl. auto.
  - unfold settle. simpl. destruct IH as [H1 H2]. rewrite H2. simpl. auto.
Qed.

(** A call whose condition never holds within its fuel, and that has no
    deadline, is still blocked when the fuel runs out. *)
Lemma poll_never fuel rd st :
  (forall m, m <= fuel -> rd (advance exec st m) = false) -> poll exec fuel None rd st = None.
Proof.
  intros H. destruct (poll exec fuel None rd st) as [[b s]|] eqn:Hp; [|reflexivity].
  destruct (poll_some exec _ _ _ _ _ _ Hp) as (m & Hm & -> & _ & [Hc|Hc] & _); [|discriminate].
  rewrite (H m Hm) in Hc. discriminate.
Qed.

End Build.

(** * Runs of the notebooks' functions *)
(** ** The oversubscription run

    The schedule of the [2W] submissions of the notebooks, for every pool
    size [W]: the state after the submissions is [Submitted W (2W)], and
    at every instant [t] the settled state is [Running W t]. *)
Module OversubProofs.
Import Notebook Oversub.

Lemma lookup_map_seq {A} (f : nat -> A) s n i :
  map f (seq s n) !! i = if i <? n then Some (f (s + i)) else None.
Proof.
  revert s i; induction n as [|n IH]; intros s i; simpl.
  - destruct i; reflexivity.
  - destruct i as [|i]; simpl.
    + rewrite Nat.add_0_r. reflexivity.
    + rewrite IH. replace (S s + i) with (s + S i) by lia.
      destruct (Nat.ltb_spec i n), (Nat.ltb_spec (S i) (S n)); try reflexivity; lia.
Qed.

Lemma lookup_repeat {A} (x : A) n i : repeat x n !! i = if i <? n then Some x else None.
Proof.
  revert i; induction n as [|n IH]; intros [|i]; simpl; try reflexivity.
  rewrite IH. destruct (Nat.ltb_spec i n), (Nat.ltb_spec (S i) (S n)); try reflexivity; lia.
Qed.

Lemma len_lookups {A} (l : list A) k (f : nat -> A) :
  (forall j, l !! j = if j <? k then Some (f j) else None) -> length l = k.
Proof.
  intros H. destruct (Nat.lt_total (length l) k) as [Hl|[Hl|Hl]]; [|exact Hl|].
  - specialize (H (length l)). rewrite lookup_ge_None_2 in H by lia.
    destruct (Nat.ltb_spec (length l) k); [discriminate|lia].
  - specialize (H k). destruct (lookup_lt_is_Some_2 l k) as [y Hy]; [lia|].
    rewrite Hy in H. destruct (Nat.ltb_spec k k); [lia|discriminate].
Qed.

Lemma snoc_lookups {A} (l : list A) k (f : nat -> A) x :
  (forall j, l !! j = if j <? k then Some (f j) else None) -> f k = x ->
  forall j, (l ++ [x]) !! j = if j <? S k then Some (f j) else None.
Proof.
  intros H Hx j. pose proof (len_lookups l k f H) as Hl.
  destruct (Nat.lt_total j k) as [Hj|[->|Hj]].
  - rewrite lookup_app_l by lia. rewrite H.
    destruct (Nat.ltb_spec j k), (Nat.ltb_spec j (S k)); try lia; reflexivity.
  - rewrite lookup_app_r by lia. replace (k - length l) with 0 by lia. simpl.
    destruct (Nat.ltb_spec k (S k)); [subst; reflexivity|lia].
  - rewrite lookup_ge_None_2 by (rewrite length_app; simpl; lia).
    destruct (Nat.ltb_spec j (S k)); [lia|reflexivity].
Qed.

Lemma find_slot_at (p : option (@Run PyVal PyExc) -> bool) l i x :
  l !! i = Some x -> p x = true ->
  (forall j y, j < i -> l !! j = Some y -> p y = false) -> find_slot p l = Some i.
Proof.
  revert i; induction l as [|a l IH]; intros [|i] Hi Hp Hb; simpl in *; try discriminate.
  - injection Hi as ->. rewrite Hp. reflexivity.
  - rewrite (Hb 0 a) by (reflexivity || lia).
    rewrite (IH i Hi Hp); [reflexivity|].
    intros j y Hj Hy. apply (Hb (S j) y); [lia|exact Hy].
Qed.

Lemma find_slot_none_all (p : option (@Run PyVal PyExc) -> bool) l :
  (forall j y, l !! j = Some y -> p y = false) -> find_slot p l = None.
Proof.
  induction l as [|a l IH]; intros H; simpl; [reflexivity|].
  rewrite (H 0 a eq_refl). rewrite IH; [reflexivity|].
  intros j y Hy. apply (H (S j) y Hy).
Qed.

Lemma registry_expensive j : registry expensive_task [PInt (Z.of_nat j)] = (ok j, j).
Proof.
  unfold registry, expensive_task, expensive.
  destruct (Z.ltb_spec (Z.of_nat j) 0); [lia|]. rewrite Nat2Z.id. reflexivity.
Qed.

Lemma assign_loop_S f (st : @Sched PyVal PyExc) :
  assign_loop registry (S f) st =
  match find_slot is_idle (slots st), readyq st with
  | Some i, t :: q => assign_loop registry f (dispatch registry i t (set_readyq q st))
  | _, _ => st
  end.
Proof. reflexivity. Qed.

Lemma assign_loop_empty f (st : @Sched PyVal PyExc) :
  readyq st = [] -> assign_loop registry f st = st.
Proof.
  intros H. destruct f; simpl; [reflexivity|]. rewrite H.
  destruct (find_slot _ _); reflexivity.
Qed.

Lemma assign_loop_busy f (st : @Sched PyVal PyExc) :
  find_slot is_idle (slots st) = None -> assign_loop registry f st = st.
Proof. intros H. destruct f; simpl; [reflexivity|]. rewrite H. reflexivity. Qed.

Lemma dispatch_task i t j (st : @Sched PyVal PyExc) :
  tasks st !! t = Some (task j) ->
  dispatch registry i t st =
  set_log (log st ++ [(i, mkRun t (now st) (now st + j) (ok j))])
          (set_slots (<[i := Some (mkRun t (now st) (now st + j) (ok j))]> (slots st)) st).
Proof.
  intros H. unfold dispatch. rewrite H. unfold task. cbn [t_args t_fn resolve].
  rewrite registry_expensive. reflexivity.
Qed.

Lemma waiters_snoc (w : list (list nat)) :
  (forall h ws, w !! h = Some ws -> ws = []) ->
  forall h ws, (w ++ [[]]) !! h = Some ws -> ws = [].
Proof.
  intros H h ws Hh. apply lookup_app_Some in Hh as [Hh|[_ Hh]]; [eauto|].
  destruct (h - length w); simpl in Hh; [congruence|].
  rewrite lookup_nil in Hh. discriminate.
Qed.

Lemma submitted_init W : Submitted W 0 (@init PyVal PyExc W).
Proof.
  constructor; cbn [init now tasks store waiters readyq slots log].
  - reflexivity.
  - reflexivity.
  - intros j. rewrite lookup_nil. destruct (Nat.ltb_spec j 0); [lia|reflexivity].
  - intros h ws H. rewrite lookup_nil in H. discriminate.
  - reflexivity.
  - intros i. rewrite lookup_repeat. destruct (Nat.ltb_spec i W); [|reflexivity].
    destruct (Nat.ltb_spec i 0); [lia|reflexivity].
  - intros p. split; [intros H; inversion H|intros (i & _ & Hi & _); lia].
Qed.

Lemma submitted_step W k st :
  k < 2 * W -> Submitted W k st ->
  Submitted W (S k) (snd (submit registry expensive_task [Lit (PInt (Z.of_nat k))] st)).
Proof.
  intros Hk [Hnow Htasks Hstore Hw Hq Hslots Hlog].
  assert (Hlen : length (tasks st) = k) by (rewrite Htasks, length_map, length_seq; reflexivity).
  assert (Hls : length (slots st) = W) by (eapply len_lookups; exact Hslots).
  unfold submit. cbv zeta.
  change (pending_deps st [Lit (PInt (Z.of_nat k))]) with (@nil nat).
  cbn [fold_left length snd]. rewrite Hlen.
  match goal with |- Submitted _ _ (assign _ ?s) => set (s1 := s) end.
  assert (Ht1 : tasks s1 = map task (seq 0 (S k))).
  { unfold s1; cbn [tasks]. rewrite Htasks, Hnow, seq_S, map_app. reflexivity. }
  assert (Hn1 : now s1 = 0) by exact Hnow.
  assert (Hst1 : forall j, store s1 !! j = if j <? S k then Some EPending else None).
  { unfold s1; cbn [store]. apply (snoc_lookups _ k (fun _ => EPending)); [exact Hstore|reflexivity]. }
  assert (Hw1 : forall h ws, waiters s1 !! h = Some ws -> ws = []).
  { unfold s1; cbn [waiters]. apply waiters_snoc, Hw. }
  assert (Hq1 : readyq s1 = seq W (k - W) ++ [k]) by (unfold s1; cbn [readyq]; rewrite Hq; reflexivity).
  assert (Hs1 : slots s1 = slots st) by reflexivity.
  assert (Hl1 : log s1 = log st) by reflexivity.
  clearbody s1.
  unfold assign. rewrite Ht1, length_map, length_seq, assign_loop_S.
  destruct (Nat.ltb_spec k W) as [HkW|HkW].
  - assert (Hfs : find_slot is_idle (slots s1) = Some k).
    { rewrite Hs1. apply find_slot_at with (x := None); [|reflexivity|].
      - rewrite Hslots. destruct (Nat.ltb_spec k W); [|lia].
        destruct (Nat.ltb_spec k k); [lia|reflexivity].
      - intros j y Hj Hy. rewrite Hslots in Hy.
        destruct (Nat.ltb_spec j W); [|discriminate].
        destruct (Nat.ltb_spec j k); [|lia]. injection Hy as <-. reflexivity. }
    rewrite Hfs, Hq1. replace (k - W) with 0 by lia. cbn [seq app].
    rewrite dispatch_task with (j := k) by (cbn [set_readyq tasks]; rewrite Ht1, lookup_map_seq;
      destruct (Nat.ltb_spec k (S k)); [reflexivity|lia]).
    rewrite assign_loop_empty by reflexivity.
    cbn [set_log set_slots set_readyq now tasks store waiters readyq slots log].
    rewrite Hn1. change (mkRun k 0 (0 + k) (ok k)) with (first_run k).
    constructor; unfold set_log, set_slots, set_readyq; cbn [now tasks store waiters readyq slots log].
    + exact Hn1.
    + exact Ht1.
    + exact Hst1.
    + exact Hw1.
    + replace (S k - W) with 0 by lia. reflexivity.
    + intros i. rewrite Hs1. destruct (decide (i = k)) as [->|Hik].
      * rewrite list_lookup_insert_eq by lia.
        destruct (Nat.ltb_spec k W); [|lia]. destruct (Nat.ltb_spec k (S k)); [reflexivity|lia].
      * rewrite list_lookup_insert_ne by congruence. rewrite Hslots.
        destruct (Nat.ltb_spec i W); [|reflexivity].
        destruct (Nat.ltb_spec i k), (Nat.ltb_spec i (S k)); try reflexivity; lia.
    + intros p. rewrite Hl1, elem_of_app, list_elem_of_singleton, Hlog. split.
      * intros [(i & Hi & Hik & ->)| ->]; [exists i; split; [lia|split; [lia|reflexivity]]|].
        exists k. split; [lia|split; [lia|reflexivity]].
      * intros (i & Hi & Hik & ->). destruct (decide (i = k)) as [->|Hne]; [right; reflexivity|].
        left. exists i. split; [lia|split; [lia|reflexivity]].
  - assert (Hfs : find_slot is_idle (slots s1) = None).
    { rewrite Hs1. apply find_slot_none_all. intros j y Hy. rewrite Hslots in Hy.
      destruct (Nat.ltb_spec j W); [|discriminate].
      destruct (Nat.ltb_spec j k); [|lia]. injection Hy as <-. reflexivity. }
    rewrite Hfs.
    constructor.
    + exact Hn1.
    + exact Ht1.
    + exact Hst1.
    + exact Hw1.
    + rewrite Hq1. replace (S k - W) with (S (k - W)) by lia. rewrite seq_S.
      replace (W + (k - W)) with k by lia. reflexivity.
    + intros i. rewrite Hs1, Hslots. destruct (Nat.ltb_spec i W); [|reflexivity].
      destruct (Nat.ltb_spec i k), (Nat.ltb_spec i (S k)); try reflexivity; lia.
    + intros p. rewrite Hl1, Hlog. split; intros (i & Hi & Hik & ->); exists i; split; [lia|split; [lia|reflexivity]|lia|split; [lia|reflexivity]].
Qed.

Lemma submit_range_submitted W k N st :
  k + N <= 2 * W -> Submitted W k st -> Submitted W (k + N) (submit_range k N st).
Proof.
  revert k st; induction N as [|N IH]; intros k st HN H; simpl.
  - rewrite Nat.add_0_r. exact H.
  - replace (k + S N) with (S k + N) by lia. apply IH; [lia|]. apply submitted_step; [lia|exact H].
Qed.

Lemma submitted_ticked W st : Submitted W (2 * W) st -> Ticked W 0 st.
Proof.
  intros [Hnow Htasks Hstore Hw Hq Hslots Hlog]. constructor.
  - exact Hnow.
  - exact Htasks.
  - intros j. rewrite Hstore. reflexivity.
  - exact Hw.
  - rewrite Hq. f_equal; lia.
  - intros i. rewrite Hslots. destruct (Nat.ltb_spec i W); [|reflexivity].
    destruct (Nat.ltb_spec i (2 * W)); [reflexivity|lia].
  - intros p. rewrite Hlog. split.
    + intros (i & Hi & _ & ->). exists i. split; [exact Hi|left; reflexivity].
    + intros (i & Hi & [->|[Hlt _]]); [|lia]. exists i. repeat split; [exact Hi|lia].
Qed.

Lemma running_ticked W t st : Running W t st -> Ticked W (S t) (tick st).
Proof.
  intros [Hnow Htasks Hstore Hw Hq Hslots Hlog].
  constructor; unfold tick, set_now; cbn [now tasks store waiters readyq slots log].
  - rewrite Hnow. reflexivity.
  - exact Htasks.
  - intros j. rewrite Hstore. destruct (j <? 2 * W); [|reflexivity]. f_equal.
    unfold entry_at. destruct (Nat.leb_spec (done_time W j) t), (Nat.ltb_spec (done_time W j) (S t)),
      (Nat.leb_spec (done_time W j) (S t)); try reflexivity; lia.
  - exact Hw.
  - exact Hq.
  - intros i. rewrite Hslots. reflexivity.
  - intros p. rewrite Hlog. split; intros (i & Hi & H); exists i; (split; [exact Hi|]);
      (destruct H as [H|[H1 H2]]; [left; exact H|right; split; [lia|exact H2]]).
Qed.

Lemma settle_loop_S f (st : @Sched PyVal PyExc) :
  settle_loop registry (S f) st =
  match find_slot (is_due (now st)) (slots st) with
  | None => st
  | Some i => settle_loop registry f (complete registry i st)
  end.
Proof. reflexivity. Qed.

Lemma complete_ready i r v (st : @Sched PyVal PyExc) :
  slots st !! i = Some (Some r) -> r_out r = Returned v -> entry_terminal st (r_tid r) = false ->
  (forall h ws, waiters st !! h = Some ws -> ws = []) ->
  complete registry i st =
  assign registry (set_slots (<[i := None]> (slots st))
    (set_waiters (<[r_tid r := []]> (waiters st))
      (set_store (<[r_tid r := EReady v (now st)]> (store st)) st))).
Proof.
  intros Hs Ho Ht Hw. unfold complete. rewrite Hs. unfold write_result. rewrite Ho.
  unfold put, write_entry. rewrite Ht. cbn [snd]. unfold notify. cbv zeta.
  assert (Hd : default [] (waiters st !! r_tid r) = []).
  { destruct (waiters st !! r_tid r) as [ws|] eqn:E; [apply (Hw _ _ E)|reflexivity]. }
  change (waiters (set_store (<[r_tid r := EReady v (now st)]> (store st)) st)) with (waiters st).
  rewrite Hd. reflexivity.
Qed.

Lemma dispatch_fields i t j (st : @Sched PyVal PyExc) :
  tasks st !! t = Some (task j) ->
  let s := dispatch registry i t st in
  now s = now st /\ tasks s = tasks st /\ store s = store st /\ waiters s = waiters st /\
  readyq s = readyq st /\
  slots s = <[i := Some (mkRun t (now st) (now st + j) (ok j))]> (slots st) /\
  log s = log st ++ [(i, mkRun t (now st) (now st + j) (ok j))].
Proof. intros H. cbv zeta. rewrite (dispatch_task i t j st H). repeat split. Qed.

Lemma waiters_insert (w : list (list nat)) k :
  (forall h ws, w !! h = Some ws -> ws = []) ->
  forall h ws, <[k := []]> w !! h = Some ws -> ws = [].
Proof.
  intros H h ws Hh. destruct (decide (h = k)) as [->|Hne].
  - apply list_lookup_insert_Some in Hh as [(_ & <- & _)|(_ & Hh)]; [reflexivity|eauto].
  - rewrite list_lookup_insert_ne in Hh by congruence. eauto.
Qed.

Lemma done_time_first W j : j < W -> done_time W j = j.
Proof. intros H. unfold done_time. destruct (Nat.ltb_spec j W); [reflexivity|lia]. Qed.

Lemma done_time_second W i : done_time W (W + i) = 2 * i + W.
Proof. unfold done_time. destruct (Nat.ltb_spec (W + i) W); [lia|]. f_equal. lia. Qed.

Lemma entry_step W u j :
  done_time W j <> u -> (if done_time W j <? u then entry_at W u j else EPending) = entry_at W u j.
Proof.
  intros H. unfold entry_at.
  destruct (Nat.ltb_spec (done_time W j) u), (Nat.leb_spec (done_time W j) u); try reflexivity; lia.
Qed.

Lemma store_after W u (s : list (@Entry PyVal PyExc)) h :
  (forall j, s !! j = if j <? 2 * W then Some (if done_time W j <? u then entry_at W u j else EPending) else None) ->
  h < 2 * W -> done_time W h = u -> (forall j, done_time W j = u -> j = h) ->
  forall j, <[h := EReady (PTuple (PInt (Z.of_nat h)) (PInt (Z.of_nat h))) u]> s !! j =
            if j <? 2 * W then Some (entry_at W u j) else None.
Proof.
  intros Hs Hh Hd Hu j. pose proof (len_lookups _ _ _ Hs) as Hl.
  destruct (decide (j = h)) as [->|Hne].
  - rewrite list_lookup_insert_eq by lia. destruct (Nat.ltb_spec h (2 * W)); [|lia].
    unfold entry_at. rewrite Hd. destruct (Nat.leb_spec u u); [reflexivity|lia].
  - rewrite list_lookup_insert_ne by congruence. rewrite Hs.
    destruct (j <? 2 * W); [|reflexivity]. rewrite entry_step; [reflexivity|].
    intros E. apply Hne, Hu, E.
Qed.

Lemma store_idle W u (s : list (@Entry PyVal PyExc)) :
  (forall j, s !! j = if j <? 2 * W then Some (if done_time W j <? u then entry_at W u j else EPending) else None) ->
  (forall j, j < 2 * W -> done_time W j <> u) ->
  forall j, s !! j = if j <? 2 * W then Some (entry_at W u j) else None.
Proof.
  intros Hs Hu j. rewrite Hs. destruct (Nat.ltb_spec j (2 * W)); [|reflexivity].
  rewrite entry_step; auto.
Qed.

Lemma slot_step W u i :
  i <> u -> 2 * i + W <> u ->
  (if u <=? i then Some (first_run i) else if u <=? 2 * i + W then Some (second_run W i) else None)
  = slot_at W u i.
Proof.
  intros H1 H2. unfold slot_at.
  destruct (Nat.leb_spec u i), (Nat.ltb_spec u i); try lia;
  destruct (Nat.leb_spec u (2 * i + W)), (Nat.ltb_spec u (2 * i + W)); try reflexivity; lia.
Qed.

Lemma second_run_eq W u : mkRun (W + u) u (u + (W + u)) (ok (W + u)) = second_run W u.
Proof. unfold second_run. f_equal. lia. Qed.

Lemma ticked_running W u st : 1 <= W -> Ticked W u st -> Running W u (settle registry st).
Proof.
  intros HW [Hnow Htasks Hstore Hw Hq Hslots Hlog].
  assert (Hls : length (slots st) = W) by (eapply len_lookups; exact Hslots).
  assert (Hlst : length (store st) = 2 * W) by (eapply len_lookups; exact Hstore).
  assert (Hlt : length (tasks st) = 2 * W) by (rewrite Htasks, length_map, length_seq; reflexivity).
  unfold settle. rewrite Hlt. replace (S (2 * W)) with (S (S (2 * W - 1))) by lia.
  destruct (Nat.lt_ge_cases u W) as [HuW|HuW].
  - (* the first run of slot [u] completes; the slot takes task [W + u] *)
    assert (Hsu : slots st !! u = Some (Some (first_run u))).
    { rewrite Hslots. destruct (Nat.ltb_spec u W); [|lia]. destruct (Nat.leb_spec u u); [reflexivity|lia]. }
    assert (Hdue : find_slot (is_due (now st)) (slots st) = Some u).
    { apply find_slot_at with (x := Some (first_run u)); [exact Hsu| |].
      - rewrite Hnow. unfold is_due, first_run. cbn [r_fin]. apply Nat.leb_refl.
      - intros j y Hj Hy. rewrite Hslots in Hy. destruct (Nat.ltb_spec j W); [|discriminate].
        destruct (Nat.leb_spec u j); [lia|]. destruct (Nat.leb_spec u (2 * j + W)); [|lia].
        injection Hy as <-. rewrite Hnow. unfold is_due, second_run. cbn [r_fin].
        apply Nat.leb_gt. lia. }
    assert (Hterm : entry_terminal st u = false).
    { unfold entry_terminal. rewrite Hstore. destruct (Nat.ltb_spec u (2 * W)); [|lia].
      rewrite done_time_first by exact HuW. destruct (Nat.ltb_spec u u); [lia|reflexivity]. }
    rewrite settle_loop_S, Hdue.
    rewrite (complete_ready u (first_run u) _ st Hsu eq_refl Hterm Hw).
    change (r_tid (first_run u)) with u. rewrite Hnow.
    match goal with |- Running _ _ (settle_loop _ _ (assign _ ?s)) => set (s1 := s) end.
    assert (Hn1 : now s1 = u) by exact Hnow.
    assert (Ht1 : tasks s1 = map task (seq 0 (2 * W))) by exact Htasks.
    assert (Hst1 : store s1 = <[u := EReady (PTuple (PInt (Z.of_nat u)) (PInt (Z.of_nat u))) u]> (store st)) by reflexivity.
    assert (Hw1 : forall h ws, waiters s1 !! h = Some ws -> ws = []) by (apply waiters_insert, Hw).
    assert (Hq1 : readyq s1 = seq (W + u) (W - u)) by exact Hq.
    assert (Hs1 : slots s1 = <[u := None]> (slots st)) by reflexivity.
    assert (Hl1 : log s1 = log st) by reflexivity.
    clearbody s1.
    unfold assign. rewrite Ht1, length_map, length_seq, assign_loop_S.
    assert (Hfs : find_slot is_idle (slots s1) = Some u).
    { rewrite Hs1. apply find_slot_at with (x := None); [rewrite list_lookup_insert_eq by lia; reflexivity|reflexivity|].
      intros j y Hj Hy. rewrite list_lookup_insert_ne in Hy by lia. rewrite Hslots in Hy.
      destruct (Nat.ltb_spec j W); [|discriminate].
      destruct (Nat.leb_spec u j); [lia|]. destruct (Nat.leb_spec u (2 * j + W)); [|lia].
      injection Hy as <-. reflexivity. }
    rewrite Hfs, Hq1. replace (W - u) with (S (W - S u)) by lia. cbn [seq].
    assert (Htk : tasks (set_readyq (seq (S (W + u)) (W - S u)) s1) !! (W + u) = Some (task (W + u))).
    { unfold set_readyq. cbn [tasks]. rewrite Ht1, lookup_map_seq.
      destruct (Nat.ltb_spec (W + u) (2 * W)); [reflexivity|lia]. }
    destruct (dispatch_fields u _ _ _ Htk) as (Hn2 & Ht2 & Hst2 & Hw2 & Hq2 & Hs2 & Hl2).
    set (s2 := dispatch registry u (W + u) _) in *. clearbody s2.
    unfold set_readyq in Hn2, Ht2, Hst2, Hw2, Hq2, Hs2, Hl2.
    cbn [now tasks store waiters readyq slots log] in Hn2, Ht2, Hst2, Hw2, Hq2, Hs2, Hl2.
    rewrite Hn1, second_run_eq in Hs2, Hl2. rewrite Hn1 in Hn2.
    assert (Hslot2 : forall i, slots s2 !! i = if i <? W then Some (slot_at W u i) else None).
    { intros i. rewrite Hs2, Hs1. destruct (decide (i = u)) as [->|Hne].
      - rewrite list_lookup_insert_eq by (rewrite length_insert; lia).
        destruct (Nat.ltb_spec u W); [|lia]. unfold slot_at.
        destruct (Nat.ltb_spec u u); [lia|]. destruct (Nat.ltb_spec u (2 * u + W)); [reflexivity|lia].
      - rewrite !list_lookup_insert_ne by congruence. rewrite Hslots.
        destruct (i <? W); [|reflexivity]. rewrite slot_step by lia. reflexivity. }
    rewrite assign_loop_busy.
    2: { apply find_slot_none_all. intros j y Hy. rewrite Hslot2 in Hy.
         destruct (Nat.ltb_spec j W); [|discriminate]. injection Hy as <-.
         unfold slot_at. destruct (u <? j); [reflexivity|]. destruct (Nat.ltb_spec u (2 * j + W)); [reflexivity|lia]. }
    rewrite settle_loop_S.
    replace (find_slot (is_due (now s2)) (slots s2)) with (@None nat).
    2: { symmetry. apply find_slot_none_all. intros j y Hy. rewrite Hslot2 in Hy.
         destruct (Nat.ltb_spec j W); [|discriminate]. injection Hy as <-. rewrite Hn2.
         unfold slot_at. destruct (Nat.ltb_spec u j).
         - unfold is_due, first_run. cbn [r_fin]. apply Nat.leb_gt. exact H0.
         - destruct (Nat.ltb_spec u (2 * j + W)); [|reflexivity].
           unfold is_due, second_run. cbn [r_fin]. apply Nat.leb_gt. exact H1. }
    constructor.
    + exact Hn2.
    + rewrite Ht2. exact Ht1.
    + rewrite Hst2, Hst1. apply (store_after W u (store st) u Hstore); [lia|apply done_time_first, HuW|].
      intros j Hj. unfold done_time in Hj. destruct (Nat.ltb_spec j W); lia.
    + rewrite Hw2. exact Hw1.
    + rewrite Hq2. f_equal. lia.
    + exact Hslot2.
    + intros p. rewrite Hl2, Hl1, elem_of_app, list_elem_of_singleton, Hlog. split.
      * intros [(i & Hi & [->|[Hlt' ->]])| ->].
        -- exists i. split; [exact Hi|left; reflexivity].
        -- exists i. split; [exact Hi|right; split; [lia|reflexivity]].
        -- exists u. split; [exact HuW|right; split; [lia|reflexivity]].
      * intros (i & Hi & [->|[Hle ->]]).
        -- left. exists i. split; [exact Hi|left; reflexivity].
        -- destruct (decide (i = u)) as [->|Hne]; [right; reflexivity|].
           left. exists i. split; [exact Hi|right; split; [lia|reflexivity]].
  - set (i0 := (u - W) / 2).
    destruct (decide (i0 < W /\ 2 * i0 + W = u)) as [[Hi0 He]|Hn].
    + (* the second run of slot [i0] completes; nothing is left to start *)
      assert (Hsu : slots st !! i0 = Some (Some (second_run W i0))).
      { rewrite Hslots. destruct (Nat.ltb_spec i0 W); [|lia].
        destruct (Nat.leb_spec u i0); [lia|]. destruct (Nat.leb_spec u (2 * i0 + W)); [reflexivity|lia]. }
      assert (Hdue : find_slot (is_due (now st)) (slots st) = Some i0).
      { apply find_slot_at with (x := Some (second_run W i0)); [exact Hsu| |].
        - rewrite Hnow. unfold is_due, second_run. cbn [r_fin]. apply Nat.leb_le. lia.
        - intros j y Hj Hy. rewrite Hslots in Hy. destruct (Nat.ltb_spec j W); [|discriminate].
          destruct (Nat.leb_spec u j); [lia|]. destruct (Nat.leb_spec u (2 * j + W)); [lia|].
          injection Hy as <-. reflexivity. }
      assert (Hterm : entry_terminal st (W + i0) = false).
      { unfold entry_terminal. rewrite Hstore. destruct (Nat.ltb_spec (W + i0) (2 * W)); [|lia].
        rewrite done_time_second. destruct (Nat.ltb_spec (2 * i0 + W) u); [lia|reflexivity]. }
      rewrite settle_loop_S, Hdue.
      rewrite (complete_ready i0 (second_run W i0) _ st Hsu eq_refl Hterm Hw).
      change (r_tid (second_run W i0)) with (W + i0). rewrite Hnow.
      match goal with |- Running _ _ (settle_loop _ _ (assign _ ?s)) => set (s1 := s) end.
      assert (Hq1 : readyq s1 = []).
      { unfold s1. cbn [readyq set_slots set_waiters set_store]. rewrite Hq. replace (W - u) with 0 by lia. reflexivity. }
      unfold assign. rewrite assign_loop_empty by exact Hq1.
      assert (Hslot1 : forall i, slots s1 !! i = if i <? W then Some (slot_at W u i) else None).
      { intros i. unfold s1. cbn [slots set_slots set_waiters set_store]. destruct (decide (i = i0)) as [->|Hne].
        - rewrite list_lookup_insert_eq by lia. destruct (Nat.ltb_spec i0 W); [|lia]. unfold slot_at.
          destruct (Nat.ltb_spec u i0); [lia|]. destruct (Nat.ltb_spec u (2 * i0 + W)); [lia|reflexivity].
        - rewrite list_lookup_insert_ne by congruence. rewrite Hslots.
          destruct (Nat.ltb_spec i W); [|reflexivity]. rewrite slot_step; [reflexivity|lia|].
          intros E. apply Hne. lia. }
      rewrite settle_loop_S.
      replace (find_slot (is_due (now s1)) (slots s1)) with (@None nat).
      2: { symmetry. apply find_slot_none_all. intros j y Hy. rewrite Hslot1 in Hy.
           destruct (Nat.ltb_spec j W); [|discriminate]. injection Hy as <-.
           unfold s1. cbn [now set_slots set_waiters set_store]. rewrite Hnow.
           unfold slot_at. destruct (Nat.ltb_spec u j); [lia|].
           destruct (Nat.ltb_spec u (2 * j + W)); [|reflexivity].
           unfold is_due, second_run. cbn [r_fin]. apply Nat.leb_gt. exact H1. }
      constructor; unfold s1; cbn [now tasks store waiters readyq slots log set_slots set_waiters set_store].
      * exact Hnow.
      * exact Htasks.
      * apply (store_after W u (store st) (W + i0) Hstore); [lia|rewrite done_time_second; exact He|].
        intros j Hj. unfold done_time in Hj. destruct (Nat.ltb_spec j W); lia.
      * apply waiters_insert, Hw.
      * rewrite Hq. replace (W - u) with 0 by lia. replace (W - S u) with 0 by lia. reflexivity.
      * exact Hslot1.
      * intros p. rewrite Hlog. split; intros (i & Hi & H); exists i; (split; [exact Hi|]);
          (destruct H as [H|[H1 H2]]; [left; exact H|right; split; [lia|exact H2]]).
    + (* nothing completes at [u] *)
      assert (Hno : forall i, i < W -> 2 * i + W <> u).
      { intros i Hi E. apply Hn. replace i0 with i; [lia|].
        unfold i0. replace (u - W) with (i * 2) by lia. rewrite Nat.div_mul; lia. }
      rewrite settle_loop_S.
      replace (find_slot (is_due (now st)) (slots st)) with (@None nat).
      2: { symmetry. apply find_slot_none_all. intros j y Hy. rewrite Hslots in Hy.
           destruct (Nat.ltb_spec j W); [|discriminate]. injection Hy as <-. rewrite Hnow.
           destruct (Nat.leb_spec u j); [lia|].
           match goal with |- context [if ?b then _ else _] => destruct b eqn:E end; [|reflexivity].
           apply Nat.leb_le in E. unfold is_due, second_run. cbn [r_fin]. apply Nat.leb_gt.
           assert (2 * j + W <> u) by (apply Hno; lia). lia. }
      constructor.
      * exact Hnow.
      * exact Htasks.
      * apply (store_idle W u (store st) Hstore). intros j Hj2 Hj. unfold done_time in Hj.
        destruct (Nat.ltb_spec j W); [lia|]. apply (Hno (j - W)); lia.
      * exact Hw.
      * rewrite Hq. replace (W - u) with 0 by lia. replace (W - S u) with 0 by lia. reflexivity.
      * intros i. rewrite Hslots. destruct (Nat.ltb_spec i W); [|reflexivity].
        rewrite slot_step; [reflexivity|lia|apply Hno; exact H].
      * intros p. rewrite Hlog. split; intros (i & Hi & H); exists i; (split; [exact Hi|]);
          (destruct H as [H|[H1 H2]]; [left; exact H|right; split; [lia|exact H2]]).
Qed.

Lemma oversub_running W m :
  1 <= W -> Running W m (advance registry (submit_range 0 (2 * W) (init W)) m).
Proof.
  intros HW.
  assert (Hs : Submitted W (2 * W) (submit_range 0 (2 * W) (init W))).
  { apply (submit_range_submitted W 0 (2 * W)); [lia|apply submitted_init]. }
  induction m as [|m IH].
  - apply ticked_running; [exact HW|apply submitted_ticked, Hs].
  - apply ticked_running; [exact HW|apply running_ticked, IH].
Qed.

Lemma running_terminal W t st j :
  Running W t st -> j < 2 * W -> entry_terminal st j = (done_time W j <=? t).
Proof.
  intros R Hj. unfold entry_terminal. rewrite (rn_store _ _ _ R).
  destruct (Nat.ltb_spec j (2 * W)); [|lia]. unfold entry_at.
  destruct (done_time W j <=? t); reflexivity.
Qed.

(** C1: with a pool of [W >= 1] slots, submitting [expensive_task.remote(j)]
    for [j = 0 .. 2W-1] in that order to an idle scheduler, slot [i] runs
    exactly two tasks: task [i] from 0 to [i], then task [i + W] from [i]
    to [2i + W].  All [2W] tasks are terminal at time [3W - 2], and the
    last one is still PENDING at every earlier instant. *)
Theorem oversubscription_schedule W :
  1 <= W ->
  let st := submit_range 0 (2 * W) (init W) in
  let fin := advance registry st (3 * W - 2) in
  (forall i r, (i, r) ∈ log fin <->
     i < W /\ (r = mkRun i 0 i (ok i) \/ r = mkRun (i + W) i (2 * i + W) (ok (i + W)))) /\
  (forall i, i < W -> slots fin !! i = Some None) /\
  (forall j, j < 2 * W -> entry_terminal fin j = true) /\
  (forall m, m < 3 * W - 2 -> entry_terminal (advance registry st m) (2 * W - 1) = false).
Proof.
  intros HW; cbv zeta. pose proof (oversub_running W (3 * W - 2) HW) as R.
  split; [|split; [|split]].
  - intros i r. rewrite (rn_log _ _ _ R). split.
    + intros (i' & Hi & H). destruct H as [H|[_ H]]; injection H as <- ->; split; [exact Hi| |exact Hi|].
      * left. reflexivity.
      * right. unfold second_run. rewrite (Nat.add_comm W i). reflexivity.
    + intros [Hi [->| ->]]; exists i; split; [exact Hi|left; reflexivity|exact Hi|].
      right. split; [lia|]. unfold second_run. rewrite (Nat.add_comm W i). reflexivity.
  - intros i Hi. rewrite (rn_slots _ _ _ R). destruct (Nat.ltb_spec i W); [|lia]. unfold slot_at.
    destruct (Nat.ltb_spec (3 * W - 2) i); [lia|].
    destruct (Nat.ltb_spec (3 * W - 2) (2 * i + W)); [lia|reflexivity].
  - intros j Hj. rewrite (running_terminal _ _ _ _ R Hj). apply Nat.leb_le.
    unfold done_time. destruct (Nat.ltb_spec j W); lia.
  - intros m Hm. rewrite (running_terminal _ _ _ _ (oversub_running W m HW)) by lia.
    apply Nat.leb_gt. unfold done_time. destruct (Nat.ltb_spec (2 * W - 1) W); lia.
Qed.

Lemma oversubscription_schedule_witness :
  1 <= 8 /\
  (7, mkRun 15 7 22 (ok 15)) ∈ log (advance registry (submit_range 0 16 (init 8)) 22) /\
  entry_terminal (advance registry (submit_range 0 16 (init 8)) 22) 15 = true /\
  entry_terminal (advance registry (submit_range 0 16 (init 8)) 21) 15 = false.
Proof.
  split; [lia|].
  destruct (oversubscription_schedule 8 ltac:(lia)) as (Hlog & _ & Hterm & Hlast).
  split; [|split].
  - apply (Hlog 7). split; [lia|right; reflexivity].
  - apply (Hterm 15). lia.
  - apply (Hlast 21). lia.
Defined.

End OversubProofs.

Module NotebookRuns.
Import Notebook.

Lemma reach_late_dependent :
  reachable registry
    (snd (submit registry expensive_task [Fut 0]
       (advance registry (snd (submit registry expensive_task [Lit (PInt 1)] (init 1))) 3))).
Proof.
  apply reachable_submit; [apply reachable_advance, reachable_submit; [apply reachable_init|constructor]|].
  constructor; [vm_compute; lia|constructor].
Qed.

Lemma reach_failed_dependency :
  reachable registry
    (advance registry (snd (submit registry expensive_task [Fut 0]
       (snd (submit registry expensive_task [Lit (PInt 5)]
          (snd (submit registry expensive_task [Lit (PInt (-1))] (init 1))))))) 0).
Proof.
  apply reachable_advance. apply reachable_submit; [|constructor; [vm_compute; lia|constructor]].
  apply reachable_submit; [|constructor]. apply reachable_submit; [|constructor].
  apply reachable_init.
Qed.

Lemma reach_raised_dependent :
  reachable registry
    (snd (submit registry expensive_task [Fut 0]
       (snd (submit registry expensive_task [Lit (PInt (-1))] (init 1))))).
Proof.
  apply reachable_submit; [|constructor; [vm_compute; lia|constructor]].
  apply reachable_submit; [apply reachable_init|constructor].
Qed.

(** C4, at a run of [expensive(0)]: its entry is READY, and a second Put
    on it is refused. *)
Lemma value_store_write_once_witness :
  let st := advance registry (snd (submit registry expensive_task [Lit (PInt 0)] (init 1))) 0 in
  store st !! 0 = Some (EReady (PTuple (PInt 0) (PInt 0)) 0) /\
  put 0 (PInt 7) st = (Some (DuplicateWriteError 0), st).
Proof.
  intros st. assert (He : store st !! 0 = Some (EReady (PTuple (PInt 0) (PInt 0)) 0))
    by (vm_compute; reflexivity).
  split; [exact He|].
  exact (proj1 (value_store_write_once registry st 0 _ (PInt 7) (ExecutionError 0 ValueError) He eq_refl)).
Defined.

(** C7, at the same run: Get returns the stored tuple at once. *)
Lemma get_ready_no_block_witness :
  let st := advance registry (snd (submit registry expensive_task [Lit (PInt 0)] (init 1))) 0 in
  get registry st [0] None 0 = Some (GValues [PTuple (PInt 0) (PInt 0)], settle registry st).
Proof.
  intros st. assert (He : store st !! 0 = Some (EReady (PTuple (PInt 0) (PInt 0)) 0))
    by (vm_compute; reflexivity).
  exact (proj1 (get_ready_no_block registry st 0 _ 0 None 0 He)).
Defined.

(** C10, with [expensive(3)] submitted before [expensive(1)] on two
    slots: the second finishes first, Get still lists 3 before 1. *)
Lemma get_values_in_order_witness :
  let st := snd (submit registry expensive_task [Lit (PInt 1)]
              (snd (submit registry expensive_task [Lit (PInt 3)] (init 2)))) in
  Forall2 (fun h v => exists a, store (advance registry st 3) !! h = Some (EReady v a)) [0; 1]
    [PTuple (PInt 3) (PInt 3); PTuple (PInt 1) (PInt 1)].
Proof.
  intros st. apply (get_values_in_order registry st [0; 1] None 10).
  vm_compute. reflexivity.
Defined.

(** C6, with [expensive(100)] and [expensive(1)] on two slots: Wait for
    one of the two returns within one unit. *)
Lemma wait_returns_at_quorum_witness :
  let st := snd (submit registry expensive_task [Lit (PInt 1)]
              (snd (submit registry expensive_task [Lit (PInt 100)] (init 2)))) in
  exists m0, m0 <= 1 /\
    wait registry st [0; 1] 1 None 10 =
      Some ((ready_part (advance registry st m0) [0; 1], remaining_part (advance registry st m0) [0; 1]),
            advance registry st m0) /\
    1 <= count_terminal (advance registry st m0) [0; 1] /\
    forall m', m' < m0 -> count_terminal (advance registry st m') [0; 1] < 1.
Proof.
  intros st. apply (proj2 (wait_returns_at_quorum registry st [0; 1] 1 0 10) 1); [lia|].
  vm_compute. lia.
Defined.

(** C8, with [expensive(100)] on one slot: Get with a timeout of 5 units
    returns TimeoutError after 5 units. *)
Lemma timeout_result_is_local_witness :
  let st := snd (submit registry expensive_task [Lit (PInt 100)] (init 1)) in
  get registry st [0] (Some 5) 0 = Some (GTimeout, advance registry st 5) /\
  now (advance registry st 5) = now st + 5.
Proof.
  intros st. apply (proj1 (timeout_result_is_local registry st [0]) 4).
  intros m Hm. do 6 (destruct m as [|m]; [vm_compute; reflexivity|]). lia.
Defined.

(** C8: with no worker slot the entry of [expensive(1)] never becomes
    terminal, yet a Get with the finite timeout 0 is still blocked after
    any number of units, and a Wait with timeout 5 returns its (ready,
    remaining) partition, not a TimeoutError; with one slot busy for 100
    units, the same Get with timeout 0 is still blocked after 50 units,
    while timeout 5 yields TimeoutError after 5. *)
Lemma timeout_counterexample :
  let st0 := snd (submit registry expensive_task [Lit (PInt 1)] (init 0)) in
  let st1 := snd (submit registry expensive_task [Lit (PInt 100)] (init 1)) in
  reachable registry st0 /\
  (forall m, entry_terminal (advance registry st0 m) 0 = false) /\
  (forall horizon, get registry st0 [0] (Some 0) horizon = None) /\
  wait registry st0 [0] 1 (Some 5) 0 = Some (([], [0]), advance registry st0 5) /\
  reachable registry st1 /\
  get registry st1 [0] (Some 0) 50 = None /\
  get registry st1 [0] (Some 5) 50 = Some (GTimeout, advance registry st1 5).
Proof.
  intros st0 st1.
  assert (Hs : slots st0 = []) by (vm_compute; reflexivity).
  assert (Hnever : forall m, entry_terminal (advance registry st0 m) 0 = false).
  { intros m. unfold entry_terminal. rewrite (proj1 (advance_no_slots registry st0 m Hs)).
    vm_compute. reflexivity. }
  split; [apply reachable_submit; [apply reachable_init|constructor]|].
  split; [exact Hnever|].
  split.
  { intros horizon. unfold get. simpl. rewrite poll_never; [reflexivity|].
    intros m _. unfold all_terminal. simpl. rewrite Hnever. reflexivity. }
  split; [vm_compute; reflexivity|].
  split; [apply reachable_submit; [apply reachable_init|constructor]|].
  split; vm_compute; reflexivity.
Qed.

(** C2, at a dependent submitted at time 3 on [expensive(1)], which
    completed at time 1. *)
Lemma ready_when_deps_terminal_witness :
  let st := snd (submit registry expensive_task [Fut 0]
              (advance registry (snd (submit registry expensive_task [Lit (PInt 1)] (init 1))) 3)) in
  3 = ready_time st (mkTask expensive_task [Fut 0] 3) /\ entry_terminal st 0 = true.
Proof.
  intros st.
  destruct (ready_when_deps_terminal registry st 1 (mkTask expensive_task [Fut 0] 3)
              reach_late_dependent ltac:(vm_compute; reflexivity)) as (_ & _ & H3).
  destruct (H3 3 ltac:(vm_compute; reflexivity)) as (Hr & Hd & _).
  split; [exact Hr|]. apply (Hd 0). left.
Defined.

(** C2: the dependent becomes Ready at its submission (time 3), not when
    its only dependency became terminal (time 1). *)
Lemma ready_after_last_dep_counterexample :
  let st := snd (submit registry expensive_task [Fut 0]
              (advance registry (snd (submit registry expensive_task [Lit (PInt 1)] (init 1))) 3)) in
  reachable registry st /\
  tasks st !! 1 = Some (mkTask expensive_task [Fut 0] 3) /\
  store st !! 0 = Some (EReady (PTuple (PInt 1) (PInt 1)) 1) /\
  ready_at st !! 1 = Some (Some 3).
Proof.
  intros st. split; [exact reach_late_dependent|]. split; [|split]; vm_compute; reflexivity.
Qed.

(** C5, at a task queued behind [expensive(5)] whose dependency FAILED:
    it is in the Ready Queue, so its dependency is terminal. *)
Lemma ready_queue_membership_witness :
  let st := advance registry (snd (submit registry expensive_task [Fut 0]
              (snd (submit registry expensive_task [Lit (PInt 5)]
                 (snd (submit registry expensive_task [Lit (PInt (-1))] (init 1))))))) 0 in
  entry_terminal st 0 = true /\ ~ running st 2.
Proof.
  intros st. assert (Hq : readyq st = [2]) by (vm_compute; reflexivity).
  assert (Hin : 2 ∈ readyq st) by (rewrite Hq; left).
  destruct (proj1 (ready_queue_membership registry st 2 (mkTask expensive_task [Fut 0] 0)
              reach_failed_dependency ltac:(vm_compute; reflexivity)) Hin) as (_ & Hn & Hd).
  split; [apply (Hd 0); left|exact Hn].
Defined.

(** C5: a task with no future argument that is running is not in the
    Ready Queue; a queued task's only dependency is FAILED, not READY. *)
Lemma ready_queue_counterexample :
  let st := snd (submit registry expensive_task [Lit (PInt 1)] (init 1)) in
  let st' := advance registry (snd (submit registry expensive_task [Fut 0]
              (snd (submit registry expensive_task [Lit (PInt 5)]
                 (snd (submit registry expensive_task [Lit (PInt (-1))] (init 1))))))) 0 in
  reachable registry st /\ tasks st !! 0 = Some (mkTask expensive_task [Lit (PInt 1)] 0) /\
  readyq st = [] /\
  reachable registry st' /\ tasks st' !! 2 = Some (mkTask expensive_task [Fut 0] 0) /\
  store st' !! 0 = Some (EFailed (ExecutionError 0 ValueError) 0) /\ readyq st' = [2].
Proof.
  intros st st'. split; [apply reachable_submit; [apply reachable_init|constructor]|].
  split; [vm_compute; reflexivity|]. split; [vm_compute; reflexivity|].
  split; [exact reach_failed_dependency|]. split; [|split]; vm_compute; reflexivity.
Qed.

(** C3, at [expensive(-1)], which raises ValueError, with a dependent
    blocked on it. *)
Lemma raised_task_fails_and_propagates_witness :
  let st := snd (submit registry expensive_task [Fut 0]
              (snd (submit registry expensive_task [Lit (PInt (-1))] (init 1)))) in
  exists M, forall horizon, M <= horizon -> exists st' err a,
    get registry st [1] None horizon = Some (GFailed (DependencyFailedError 1 err), st') /\
    store st' !! 1 = Some (EFailed (DependencyFailedError 1 err) a) /\
    (exists h a', h ∈ [0] /\ store st' !! h = Some (EFailed err a')) /\
    ((forall h a' e', h ∈ [0] -> store st' !! h = Some (EFailed e' a') -> h = 0) ->
     err = ExecutionError 0 ValueError).
Proof.
  intros st. assert (Hl : log st = [(0, mkRun 0 0 0 (Raised ValueError))]) by (vm_compute; reflexivity).
  assert (Hin : (0, mkRun 0 0 0 (Raised ValueError)) ∈ log st) by (rewrite Hl; left).
  destruct (raised_task_fails_and_propagates registry st 0 (mkRun 0 0 0 (Raised ValueError)) ValueError
              reach_raised_dependent ltac:(vm_compute; lia) Hin eq_refl) as [_ Hdep].
  exact (proj2 (Hdep 1 (mkTask expensive_task [Fut 0] 0) ltac:(vm_compute; reflexivity) ltac:(left))).
Defined.

(** C9, at [slow_square(3)] on one slot: the remote call yields 9. *)
Lemma remote_call_matches_local_witness :
  exists M, forall horizon, M <= horizon -> exists st',
    get registry (snd (submit registry slow_square_task (map Lit [PInt 3]) (init 1)))
      [fst (submit registry slow_square_task (map Lit [PInt 3]) (init 1))] None horizon =
    Some (GValues [PInt 9], st').
Proof.
  exact (remote_call_matches_local registry (init 1) slow_square_task [PInt 3]
           (reachable_init registry 1) ltac:(vm_compute; lia)).
Defined.

End NotebookRuns.

(** ** The driver cells of the notebooks, run on the scheduler

    The loops of the notebooks that submit [expensive_task] and read the
    results back with [ray.get], and the loops that call the plain Python
    functions in the driver. *)
Module DriverProofs.
Import Notebook Oversub OversubProofs Drivers.

Lemma submit_tasks f args (st : @Sched PyVal PyExc) :
  tasks (snd (submit registry f args st)) = tasks st ++ [mkTask f args (now st)].
Proof.
  unfold submit. cbn [snd]. rewrite (proj1 (proj2 (frame_assign registry _))). reflexivity.
Qed.

Lemma submit_all_eq k N st :
  length (tasks st) = k -> submit_all k N st = (seq k N, submit_range k N st).
Proof.
  revert k st; induction N as [|N IH]; intros k st Hk; [reflexivity|].
  cbn [submit_all submit_range].
  destruct (submit registry expensive_task [Lit (PInt (Z.of_nat k))] st) as [id st1] eqn:E.
  assert (Hid : id = k) by (rewrite <- Hk; symmetry; exact (f_equal fst E)).
  assert (Hst1 : st1 = snd (submit registry expensive_task [Lit (PInt (Z.of_nat k))] st)) by (rewrite E; reflexivity).
  rewrite IH.
  - rewrite Hid, Hst1. reflexivity.
  - rewrite Hst1, submit_tasks, length_app, Hk. simpl. lia.
Qed.

Lemma dispatch_call i t j s (st : @Sched PyVal PyExc) :
  tasks st !! t = Some (mkTask expensive_task [Lit (PInt (Z.of_nat j))] s) ->
  dispatch registry i t st =
  set_log (log st ++ [(i, mkRun t (now st) (now st + j) (ok j))])
          (set_slots (<[i := Some (mkRun t (now st) (now st + j) (ok j))]> (slots st)) st).
Proof.
  intros H. unfold dispatch. rewrite H. cbn [t_args t_fn resolve].
  rewrite registry_expensive. reflexivity.
Qed.

(** ** All calls started at once *)

Lemma submitted_fanned W N st : N <= W -> Submitted W N st -> Fanned W N 0 st.
Proof.
  intros HN [Hnow Htasks Hstore Hw Hq Hslots Hlog]. constructor.
  - exact Htasks.
  - intros j. rewrite Hstore. destruct (j <? N); reflexivity.
  - exact Hw.
  - rewrite Hq. replace (N - W) with 0 by lia. reflexivity.
  - intros i. rewrite Hslots. reflexivity.
Qed.

Lemma fanned_tick W N c st : Fanned W N c st -> Fanned W N c (tick st).
Proof. intros [Ht Hs Hw Hq Hsl]. constructor; assumption. Qed.

Lemma fanned_settle W N n st :
  N <= W -> Fanned W N n st -> now st = n ->
  Fanned W N (S n) (settle registry st) /\ now (settle registry st) = n.
Proof.
  intros HN [Htasks Hstore Hw Hq Hslots] Hnow.
  assert (Hls : length (slots st) = W) by (eapply len_lookups; exact Hslots).
  assert (Hlst : length (store st) = N) by (eapply len_lookups; exact Hstore).
  unfold settle. rewrite Htasks, length_map, length_seq.
  destruct (Nat.lt_ge_cases n N) as [Hn|Hn].
  - replace (S N) with (S (S (N - 1))) by lia.
    assert (Hsu : slots st !! n = Some (Some (first_run n))).
    { rewrite Hslots. destruct (Nat.ltb_spec n W); [|lia].
      destruct (Nat.leb_spec n n); [|lia]. destruct (Nat.ltb_spec n N); [reflexivity|lia]. }
    assert (Hdue : find_slot (is_due (now st)) (slots st) = Some n).
    { apply find_slot_at with (x := Some (first_run n)); [exact Hsu| |].
      - rewrite Hnow. unfold is_due, first_run. cbn [r_fin]. apply Nat.leb_refl.
      - intros j y Hj Hy. rewrite Hslots in Hy. destruct (Nat.ltb_spec j W); [|discriminate].
        destruct (Nat.leb_spec n j); [lia|]. injection Hy as <-. reflexivity. }
    assert (Hterm : entry_terminal st n = false).
    { unfold entry_terminal. rewrite Hstore. destruct (Nat.ltb_spec n N); [|lia].
      destruct (Nat.ltb_spec n n); [lia|reflexivity]. }
    rewrite settle_loop_S, Hdue.
    rewrite (complete_ready n (first_run n) _ st Hsu eq_refl Hterm Hw).
    change (r_tid (first_run n)) with n. rewrite Hnow.
    unfold assign. rewrite assign_loop_empty by exact Hq.
    match goal with |- context [settle_loop _ _ ?s] => set (s1 := s) end.
    assert (Hslot1 : forall i, slots s1 !! i =
      if i <? W then Some (if (S n <=? i) && (i <? N) then Some (first_run i) else None) else None).
    { intros i. unfold s1. cbn [slots set_slots set_waiters set_store].
      destruct (decide (i = n)) as [->|Hne].
      - rewrite list_lookup_insert_eq by lia. destruct (Nat.ltb_spec n W); [|lia].
        destruct (Nat.leb_spec (S n) n); [lia|reflexivity].
      - rewrite list_lookup_insert_ne by congruence. rewrite Hslots.
        destruct (i <? W); [|reflexivity].
        destruct (Nat.leb_spec n i), (Nat.leb_spec (S n) i); try reflexivity; lia. }
    rewrite settle_loop_S.
    replace (find_slot (is_due (now s1)) (slots s1)) with (@None nat).
    2: { symmetry. apply find_slot_none_all. intros j y Hy. rewrite Hslot1 in Hy.
         destruct (j <? W); [|discriminate].
         destruct ((S n <=? j) && (j <? N)) eqn:E; injection Hy as <-; [|reflexivity].
         apply andb_true_iff in E as [E _]. apply Nat.leb_le in E.
         unfold s1. cbn [now set_slots set_waiters set_store]. rewrite Hnow.
         unfold is_due, first_run. cbn [r_fin]. apply Nat.leb_gt. lia. }
    split; [|exact Hnow].
    constructor; unfold s1; cbn [tasks store waiters readyq slots set_slots set_waiters set_store].
    + exact Htasks.
    + intros j. destruct (decide (j = n)) as [->|Hne].
      * rewrite list_lookup_insert_eq by lia. destruct (Nat.ltb_spec n N); [|lia].
        destruct (Nat.ltb_spec n (S n)); [reflexivity|lia].
      * rewrite list_lookup_insert_ne by congruence. rewrite Hstore.
        destruct (j <? N); [|reflexivity].
        destruct (Nat.ltb_spec j n), (Nat.ltb_spec j (S n)); try reflexivity; lia.
    + apply waiters_insert, Hw.
    + exact Hq.
    + exact Hslot1.
  - rewrite settle_loop_S.
    replace (find_slot (is_due (now st)) (slots st)) with (@None nat).
    2: { symmetry. apply find_slot_none_all. intros j y Hy. rewrite Hslots in Hy.
         destruct (j <? W); [|discriminate]. injection Hy as <-.
         destruct (Nat.leb_spec n j), (Nat.ltb_spec j N); try reflexivity; lia. }
    split; [|exact Hnow]. constructor.
    + exact Htasks.
    + intros j. rewrite Hstore. destruct (Nat.ltb_spec j N); [|reflexivity].
      destruct (Nat.ltb_spec j n), (Nat.ltb_spec j (S n)); try reflexivity; lia.
    + exact Hw.
    + exact Hq.
    + intros i. rewrite Hslots. destruct (i <? W); [|reflexivity].
      destruct (Nat.leb_spec n i), (Nat.leb_spec (S n) i), (Nat.ltb_spec i N); try reflexivity; lia.
Qed.

Lemma fanned_advance W N st m :
  N <= W -> Fanned W N 0 st -> now st = 0 ->
  Fanned W N (S m) (advance registry st m) /\ now (advance registry st m) = m.
Proof.
  intros HN H0 Hn0. split; [|rewrite advance_now, Hn0; reflexivity].
  induction m as [|m IH].
  - apply fanned_settle; assumption.
  - apply (fanned_settle W N (S m) (tick (advance registry st m)) HN (fanned_tick _ _ _ _ IH)).
    change (S (now (advance registry st m)) = S m). rewrite advance_now, Hn0. reflexivity.
Qed.

Lemma fanned_all_terminal W N c st :
  Fanned W N c st -> all_terminal st (seq 0 N) = (N <=? c).
Proof.
  intros F. unfold all_terminal. destruct (Nat.leb_spec N c).
  - apply forallb_forall. intros x Hx. apply in_seq in Hx.
    unfold entry_terminal. rewrite (fa_store _ _ _ _ F).
    destruct (Nat.ltb_spec x N); [|lia]. destruct (Nat.ltb_spec x c); [reflexivity|lia].
  - destruct (forallb _ _) eqn:E; [|reflexivity].
    rewrite forallb_forall in E. specialize (E c ltac:(apply in_seq; lia)).
    unfold entry_terminal in E. rewrite (fa_store _ _ _ _ F) in E.
    destruct (Nat.ltb_spec c N); [|lia]. destruct (Nat.ltb_spec c c); [lia|discriminate].
Qed.

Lemma fanned_collect W N c st k M :
  Fanned W N c st -> k + M <= N -> k + M <= c ->
  collect st (seq k M) = GValues (map (fun n => PTuple (PInt (Z.of_nat n)) (PInt (Z.of_nat n))) (seq k M)).
Proof.
  intros F. revert k. induction M as [|M IH]; intros k H1 H2; [reflexivity|].
  cbn [seq collect map]. rewrite (fa_store _ _ _ _ F).
  destruct (Nat.ltb_spec k N); [|lia]. destruct (Nat.ltb_spec k c); [|lia].
  rewrite IH by lia. reflexivity.
Qed.

(** ** One call at a time *)

Lemma idle_init W : Idle W 0 0 (@init PyVal PyExc W).
Proof.
  constructor; cbn [init now tasks store waiters readyq slots]; try reflexivity.
  - intros h ws H. rewrite lookup_nil in H. discriminate.
  - intros i. rewrite lookup_repeat. reflexivity.
Qed.

Lemma submit_idle W k t st :
  1 <= W -> Idle W k t st ->
  exists s1, submit registry expensive_task [Lit (PInt (Z.of_nat k))] st = (k, s1) /\ Started W k t t s1.
Proof.
  intros HW [Hnow Hlt Hls Hw Hq Hslots].
  assert (Hlsl : length (slots st) = W) by (eapply (len_lookups _ _ (fun _ => None)); exact Hslots).
  unfold submit. cbv zeta.
  change (pending_deps st [Lit (PInt (Z.of_nat k))]) with (@nil nat).
  cbn [fold_left length]. rewrite Hlt.
  eexists. split; [reflexivity|].
  match goal with |- Started _ _ _ _ (assign _ ?s) => set (s0 := s) end.
  assert (Ht0 : tasks s0 = tasks st ++ [mkTask expensive_task [Lit (PInt (Z.of_nat k))] t]) by (unfold s0; cbn [tasks]; rewrite Hnow; reflexivity).
  assert (Hq0 : readyq s0 = [k]) by (unfold s0; cbn [readyq]; rewrite Hq; reflexivity).
  assert (Hs0 : slots s0 = slots st) by reflexivity.
  assert (Hn0 : now s0 = t) by exact Hnow.
  unfold assign. rewrite Ht0, length_app, Hlt. simpl length. rewrite assign_loop_S.
  assert (Hfs : find_slot is_idle (slots s0) = Some 0).
  { rewrite Hs0. apply find_slot_at with (x := None); [|reflexivity|intros; lia].
    rewrite Hslots. destruct (Nat.ltb_spec 0 W); [reflexivity|lia]. }
  rewrite Hfs, Hq0.
  rewrite (dispatch_call 0 k k t) by (cbn [set_readyq tasks]; rewrite Ht0, lookup_app_r, Hlt, Nat.sub_diag by lia; reflexivity).
  rewrite assign_loop_empty by reflexivity.
  constructor; unfold set_log, set_slots, set_readyq; cbn [now tasks store waiters readyq slots]; rewrite ?Hn0.
  - reflexivity.
  - rewrite Ht0, length_app, Hlt. simpl. lia.
  - unfold s0. cbn [store]. rewrite length_app, Hls. simpl. lia.
  - unfold s0. cbn [store]. rewrite lookup_app_r by lia. rewrite Hls, Nat.sub_diag. reflexivity.
  - unfold s0. cbn [waiters]. apply waiters_snoc, Hw.
  - reflexivity.
  - intros i. rewrite Hs0. destruct (decide (i = 0)) as [->|Hne].
    + rewrite list_lookup_insert_eq by lia. destruct (Nat.ltb_spec 0 W); [reflexivity|lia].
    + rewrite list_lookup_insert_ne by congruence. rewrite Hslots.
      destruct (i <? W); [|reflexivity]. destruct (Nat.eqb_spec i 0); [lia|reflexivity].
Qed.

Lemma started_tick W k t n st : Started W k t n st -> Started W k t (S n) (tick st).
Proof.
  intros [Hn Ht Hl He Hw Hq Hs]. constructor; unfold tick, set_now; cbn [now tasks store waiters readyq slots]; try assumption.
  rewrite Hn. reflexivity.
Qed.

Lemma started_early W k t n st : Started W k t n st -> n < t + k -> settle registry st = st.
Proof.
  intros [Hn Ht Hl He Hw Hq Hs] Hlt. unfold settle. rewrite settle_loop_S.
  replace (find_slot (is_due (now st)) (slots st)) with (@None nat); [reflexivity|].
  symmetry. apply find_slot_none_all. intros j y Hy. rewrite Hs in Hy.
  destruct (j <? W); [|discriminate]. injection Hy as <-.
  destruct (j =? 0); [|reflexivity]. rewrite Hn. unfold is_due. cbn [r_fin]. apply Nat.leb_gt. exact Hlt.
Qed.

Lemma started_done W k t st :
  1 <= W -> Started W k t (t + k) st ->
  Idle W (S k) (t + k) (settle registry st) /\
  store (settle registry st) !! k = Some (EReady (PTuple (PInt (Z.of_nat k)) (PInt (Z.of_nat k))) (t + k)).
Proof.
  intros HW [Hn Ht Hl He Hw Hq Hs].
  assert (Hsl : length (slots st) = W) by (eapply len_lookups; exact Hs).
  unfold settle. rewrite Ht.
  assert (Hsu : slots st !! 0 = Some (Some (mkRun k t (t + k) (ok k)))).
  { rewrite Hs. destruct (Nat.ltb_spec 0 W); [reflexivity|lia]. }
  assert (Hdue : find_slot (is_due (now st)) (slots st) = Some 0).
  { apply find_slot_at with (x := Some (mkRun k t (t + k) (ok k))); [exact Hsu| |intros; lia].
    rewrite Hn. unfold is_due. cbn [r_fin]. apply Nat.leb_refl. }
  assert (Hterm : entry_terminal st k = false) by (unfold entry_terminal; rewrite He; reflexivity).
  rewrite settle_loop_S, Hdue.
  rewrite (complete_ready 0 (mkRun k t (t + k) (ok k)) _ st Hsu eq_refl Hterm Hw).
  cbn [r_tid]. rewrite Hn.
  unfold assign. rewrite assign_loop_empty by exact Hq.
  match goal with |- context [settle_loop _ _ ?s] => set (s1 := s) end.
  assert (Hslot1 : forall i, slots s1 !! i = if i <? W then Some None else None).
  { intros i. unfold s1. cbn [slots set_slots set_waiters set_store].
    destruct (decide (i = 0)) as [->|Hne].
    - rewrite list_lookup_insert_eq by lia. destruct (Nat.ltb_spec 0 W); [reflexivity|lia].
    - rewrite list_lookup_insert_ne by congruence. rewrite Hs.
      destruct (i <? W); [|reflexivity]. destruct (Nat.eqb_spec i 0); [lia|reflexivity]. }
  rewrite settle_loop_S.
  replace (find_slot (is_due (now s1)) (slots s1)) with (@None nat).
  2: { symmetry. apply find_slot_none_all. intros j y Hy. rewrite Hslot1 in Hy.
       destruct (j <? W); [|discriminate]. injection Hy as <-. reflexivity. }
  split.
  - constructor; unfold s1; cbn [now tasks store waiters readyq slots set_slots set_waiters set_store].
    + exact Hn.
    + exact Ht.
    + rewrite length_insert. exact Hl.
    + apply waiters_insert, Hw.
    + exact Hq.
    + exact Hslot1.
  - unfold s1. cbn [store set_slots set_waiters set_store].
    apply list_lookup_insert_eq. rewrite Hl. lia.
Qed.

Lemma started_advance W k t st m :
  Started W k t t st -> m <= k ->
  exists y, Started W k t (t + m) y /\ advance registry st m = settle registry y.
Proof.
  intros H0. induction m as [|m IH]; intros Hm.
  - exists st. rewrite Nat.add_0_r. split; [exact H0|reflexivity].
  - destruct IH as (y & Hy & Ha); [lia|].
    exists (tick y). split.
    + replace (t + S m) with (S (t + m)) by lia. apply started_tick, Hy.
    + cbn [advance]. rewrite Ha, (started_early _ _ _ _ _ Hy) by lia. reflexivity.
Qed.

Lemma get_started W k t st horizon :
  1 <= W -> Started W k t t st -> k <= horizon ->
  exists s2, get registry st [k] None horizon =
               Some (GValues [PTuple (PInt (Z.of_nat k)) (PInt (Z.of_nat k))], s2) /\
             Idle W (S k) (t + k) s2.
Proof.
  intros HW H0 Hk.
  destruct (started_advance W k t st k H0 (le_n _)) as (y & Hy & Ha).
  destruct (started_done W k t y HW Hy) as [Hi He].
  exists (advance registry st k). split; [|rewrite Ha; exact Hi].
  assert (Hat : all_terminal (settle registry y) [k] = true)
    by (unfold all_terminal; cbn [forallb]; unfold entry_terminal; rewrite He; reflexivity).
  unfold get. rewrite (poll_first registry horizon None (fun s => all_terminal s [k]) st k Hk).
  - cbv beta. rewrite Ha, Hat. cbn [collect]. rewrite He. reflexivity.
  - left. cbv beta. rewrite Ha. exact Hat.
  - intros m' Hm'. split; [|reflexivity].
    destruct (started_advance W k t st m' H0 ltac:(lia)) as (y' & Hy' & Ha').
    rewrite Ha', (started_early _ _ _ _ _ Hy') by lia.
    unfold all_terminal. cbn [forallb]. unfold entry_terminal. rewrite (sd_entry _ _ _ _ _ Hy'). reflexivity.
Qed.

Lemma get_each_idle W horizon N k t st :
  1 <= W -> Idle W k t st -> k + N <= S horizon ->
  exists st', get_each horizon k N st =
    Some (map (fun n => GValues [PTuple (PInt (Z.of_nat n)) (PInt (Z.of_nat n))]) (seq k N), st') /\
    Idle W (k + N) (t + list_sum (seq k N)) st'.
Proof.
  intros HW. revert k t st. induction N as [|N IH]; intros k t st Hi HN.
  - exists st. rewrite !Nat.add_0_r. split; [reflexivity|exact Hi].
  - destruct (submit_idle W k t st HW Hi) as (s1 & Hs1 & Hst1).
    destruct (get_started W k t s1 horizon HW Hst1 ltac:(lia)) as (s2 & Hg & Hi2).
    destruct (IH (S k) (t + k) s2 Hi2 ltac:(lia)) as (s3 & He & Hi3).
    exists s3. cbn [get_each]. rewrite Hs1, Hg, He. split; [reflexivity|].
    replace (k + S N) with (S k + N) by lia. cbn [seq]. change (list_sum (k :: ?l)) with (k + list_sum l).
    replace (t + (k + list_sum (seq (S k) N))) with (t + k + list_sum (seq (S k) N)) by lia.
    exact Hi3.
Qed.

Lemma list_sum_seq0 N : 2 * list_sum (seq 0 N) = N * (N - 1).
Proof.
  induction N as [|N IH]; [reflexivity|].
  rewrite seq_S, list_sum_app, Nat.mul_add_distr_l, IH. simpl. destruct N; [reflexivity|]. nia.
Qed.

(** X1: the cell [for n in range(N): id = expensive_task.remote(n);
    n2, duration = ray.get(id)], on a pool of any size [W >= 1]: each Get
    returns [(n, n)], and the loop ends at time [0 + 1 + ... + (N-1)]:
    the calls run one after the other. *)
Theorem get_each_sequential W N horizon :
  1 <= W -> N <= S horizon ->
  exists st', get_each horizon 0 N (init W) =
    Some (map (fun n => GValues [PTuple (PInt (Z.of_nat n)) (PInt (Z.of_nat n))]) (seq 0 N), st') /\
    2 * now st' = N * (N - 1).
Proof.
  intros HW HN. destruct (get_each_idle W horizon N 0 0 (init W) HW (idle_init W) HN) as (st' & He & Hi).
  exists st'. split; [exact He|]. rewrite (id_now _ _ _ _ Hi). apply list_sum_seq0.
Qed.

Lemma get_each_sequential_witness :
  1 <= 8 /\ 5 <= S 5 /\
  exists st', get_each 5 0 5 (init 8) =
    Some (map (fun n => GValues [PTuple (PInt (Z.of_nat n)) (PInt (Z.of_nat n))]) (seq 0 5), st') /\
    2 * now st' = 20.
Proof.
  split; [lia|]. split; [lia|].
  exact (get_each_sequential 8 5 5 ltac:(lia) ltac:(lia)).
Defined.

(** X2: the cell [ids = [expensive_task.remote(n) for n in range(N)];
    ray.get(ids)] on a pool of [W >= N] slots: the handles are
    [0 .. N-1], and the Get returns [(n, n)] for each of them, in that
    order, at time [N - 1], the duration of the longest call. *)
Theorem fire_then_get W N horizon :
  N <= W -> N <= S horizon ->
  fst (submit_all 0 N (init W)) = seq 0 N /\
  get registry (snd (submit_all 0 N (init W))) (seq 0 N) None horizon =
    Some (GValues (map (fun n => PTuple (PInt (Z.of_nat n)) (PInt (Z.of_nat n))) (seq 0 N)),
          advance registry (snd (submit_all 0 N (init W))) (N - 1)) /\
  now (advance registry (snd (submit_all 0 N (init W))) (N - 1)) = N - 1.
Proof.
  intros HNW HN. rewrite submit_all_eq by reflexivity. cbn [fst snd].
  set (st := submit_range 0 N (init W)).
  assert (Hs : Submitted W N st) by (apply (submit_range_submitted W 0 N); [lia|apply submitted_init]).
  pose proof (submitted_fanned W N st HNW Hs) as F0.
  pose proof (sb_now _ _ _ Hs) as Hn0.
  destruct (fanned_advance W N st (N - 1) HNW F0 Hn0) as [F Hn].
  split; [reflexivity|]. split; [|exact Hn].
  unfold get.
  rewrite (poll_first registry horizon None (fun s => all_terminal s (seq 0 N)) st (N - 1)).
  - rewrite (fanned_all_terminal _ _ _ _ F). destruct (Nat.leb_spec N (S (N - 1))); [|lia].
    rewrite (fanned_collect W N (S (N - 1)) _ 0 N F) by lia. reflexivity.
  - lia.
  - left. rewrite (fanned_all_terminal _ _ _ _ F). apply Nat.leb_le. lia.
  - intros m' Hm'. split; [|reflexivity].
    destruct (fanned_advance W N st m' HNW F0 Hn0) as [F' _].
    rewrite (fanned_all_terminal _ _ _ _ F'). apply Nat.leb_gt. lia.
Qed.

Lemma fire_then_get_witness :
  5 <= 8 /\ 5 <= S 5 /\
  get registry (snd (submit_all 0 5 (init 8))) [0; 1; 2; 3; 4] None 5 =
    Some (GValues [PTuple (PInt 0) (PInt 0); PTuple (PInt 1) (PInt 1); PTuple (PInt 2) (PInt 2);
                   PTuple (PInt 3) (PInt 3); PTuple (PInt 4) (PInt 4)],
          advance registry (snd (submit_all 0 5 (init 8))) 4) /\
  now (advance registry (snd (submit_all 0 5 (init 8))) 4) = 4.
Proof.
  split; [lia|]. split; [lia|].
  exact (proj2 (fire_then_get 8 5 5 ltac:(lia) ltac:(lia))).
Defined.


(** ** The oversubscribed fire-off cell *)

Lemma done_time_bound W j : j < 2 * W -> done_time W j <= 3 * W - 2.
Proof. intros Hj. unfold done_time. destruct (Nat.ltb_spec j W); lia. Qed.

Lemma done_time_last W : 1 <= W -> done_time W (2 * W - 1) = 3 * W - 2.
Proof. intros HW. unfold done_time. destruct (Nat.ltb_spec (2 * W - 1) W); lia. Qed.

Lemma running_collect W t st k M :
  Running W t st -> k + M <= 2 * W -> (forall j, j < 2 * W -> done_time W j <= t) ->
  collect st (seq k M) = GValues (map (fun n => PTuple (PInt (Z.of_nat n)) (PInt (Z.of_nat n))) (seq k M)).
Proof.
  intros R. revert k. induction M as [|M IH]; intros k Hk Hd; [reflexivity|].
  cbn [seq collect map]. rewrite (rn_store _ _ _ R).
  destruct (Nat.ltb_spec k (2 * W)); [|lia]. unfold entry_at.
  destruct (Nat.leb_spec (done_time W k) t); [|specialize (Hd k ltac:(lia)); lia].
  rewrite IH by (auto; lia). reflexivity.
Qed.

(** X3: the cell [ids = []; for n in range(2*int(num_cpus)):
    ids.append(expensive_task.remote(n))], then [ray.get(ids)], on a pool
    of [W >= 1] slots: the Get returns [(n, n)] for every [n < 2W], in
    submission order, and returns at time [3W - 2]. *)
Theorem oversubscription_get W horizon :
  1 <= W -> 3 * W - 2 <= horizon ->
  fst (submit_all 0 (2 * W) (init W)) = seq 0 (2 * W) /\
  get registry (snd (submit_all 0 (2 * W) (init W))) (seq 0 (2 * W)) None horizon =
    Some (GValues (map (fun n => PTuple (PInt (Z.of_nat n)) (PInt (Z.of_nat n))) (seq 0 (2 * W))),
          advance registry (snd (submit_all 0 (2 * W) (init W))) (3 * W - 2)) /\
  now (advance registry (snd (submit_all 0 (2 * W) (init W))) (3 * W - 2)) = 3 * W - 2.
Proof.
  intros HW Hh. rewrite submit_all_eq by reflexivity. cbn [fst snd].
  pose proof (oversub_running W (3 * W - 2) HW) as R.
  split; [reflexivity|]. split; [|exact (rn_now _ _ _ R)].
  assert (Hall : all_terminal (advance registry (submit_range 0 (2 * W) (init W)) (3 * W - 2)) (seq 0 (2 * W)) = true).
  { unfold all_terminal. apply forallb_forall. intros x Hx. apply in_seq in Hx.
    rewrite (running_terminal W _ _ x R) by lia. apply Nat.leb_le, done_time_bound. lia. }
  unfold get.
  rewrite (poll_first registry horizon None (fun s => all_terminal s (seq 0 (2 * W)))
             (submit_range 0 (2 * W) (init W)) (3 * W - 2) Hh).
  - cbv beta. rewrite Hall, (running_collect W (3 * W - 2) _ 0 (2 * W) R) by (auto using done_time_bound; lia).
    reflexivity.
  - left. exact Hall.
  - intros m' Hm'. split; [|reflexivity]. cbv beta.
    pose proof (oversub_running W m' HW) as R'.
    destruct (all_terminal (advance registry (submit_range 0 (2 * W) (init W)) m') (seq 0 (2 * W))) eqn:E;
      [|reflexivity].
    unfold all_terminal in E. rewrite forallb_forall in E.
    specialize (E (2 * W - 1) ltac:(apply in_seq; lia)).
    rewrite (running_terminal W _ _ _ R'), done_time_last in E by lia.
    apply Nat.leb_le in E. lia.
Qed.

Lemma oversubscription_get_witness :
  1 <= 8 /\ 3 * 8 - 2 <= 22 /\
  get registry (snd (submit_all 0 16 (init 8))) (seq 0 16) None 22 =
    Some (GValues (map (fun n => PTuple (PInt (Z.of_nat n)) (PInt (Z.of_nat n))) (seq 0 16)),
          advance registry (snd (submit_all 0 16 (init 8))) 22) /\
  now (advance registry (snd (submit_all 0 16 (init 8))) 22) = 22.
Proof.
  split; [lia|]. split; [lia|].
  exact (proj2 (oversubscription_get 8 22 ltac:(lia) ltac:(lia))).
Defined.

(** ** Calls made in the driver itself *)

Lemma call_each_returns (f : Z -> Out * nat) (g : nat -> PyVal) k N :
  (forall n, f (Z.of_nat n) = (Returned (g n), n)) ->
  call_each f k N = (inl (map g (seq k N)), list_sum (seq k N)).
Proof.
  intros Hf. revert k. induction N as [|N IH]; intros k; [reflexivity|].
  cbn [call_each seq map]. rewrite Hf, IH. reflexivity.
Qed.

(** X4: the cell [for n in range(N): n2, duration = expensive(n)], run in
    the driver without Ray: every call returns [(n, n)] and the loop takes
    [0 + 1 + ... + (N-1)] time units. *)
Theorem local_expensive_loop N :
  fst (call_each expensive 0 N) = inl (map (fun n => PTuple (PInt (Z.of_nat n)) (PInt (Z.of_nat n))) (seq 0 N)) /\
  2 * snd (call_each expensive 0 N) = N * (N - 1).
Proof.
  rewrite (call_each_returns expensive (fun n => PTuple (PInt (Z.of_nat n)) (PInt (Z.of_nat n)))).
  - split; [reflexivity|]. apply list_sum_seq0.
  - intros n. exact (registry_expensive n).
Qed.

(** X5: the cell [squares = [slow_square(n) for n in range(N)]]: the squares
    [n * n] in order, computed in [0 + 1 + ... + (N-1)] time units (6 for
    [range(4)], above the bound of the cell's second [assert]). *)
Theorem local_slow_squares N :
  fst (call_each slow_square 0 N) = inl (map (fun n => PInt (Z.of_nat (n * n))) (seq 0 N)) /\
  2 * snd (call_each slow_square 0 N) = N * (N - 1).
Proof.
  rewrite (call_each_returns slow_square (fun n => PInt (Z.of_nat (n * n)))).
  - split; [reflexivity|]. apply list_sum_seq0.
  - intros n. unfold slow_square.
    destruct (Z.ltb_spec (Z.of_nat n) 0); [lia|]. rewrite Nat2Z.id, Nat2Z.inj_mul. reflexivity.
Qed.

End DriverProofs.
